(** * Movie service and vector-search adapter: a shallow embedding

    The development follows the two service modules of the backend:
    the vector-search adapter ([isQdrant], [isPinecone], [isChroma],
    [stringToNumericId], [upsertMovieEmbeddings], [semanticSearch]) and the
    read, search, list, update and delete operations of the movie service
    ([getMovieById], [getMoviesByIds], [searchMoviesByEmbedding],
    [getAllMovies], [updateMovie], [deleteMovie]). The libraries they call
    (the SHA-256 digest, [bson] identifiers, the document store, the vector
    clients and [axios]) are modelled by what the services observe of them.

    Conventions.
    - A JavaScript string is represented by the byte sequence of its UTF-8
      encoding, as a [string].
    - A finite JavaScript number that is an integer is a [Z]; scores,
      distances and vector components are doubles, held as the rationals
      [Q] they are (the backends deliver them as JSON numbers, so they
      are finite). Comparing two of them is exact, and the sort reads
      only the sign of a difference, which rounding leaves as it is; the
      difference [1 - distance], whose value is returned, rounds to the
      nearest double ([Number_sub]).
    - An [async] function is a computation in the monad [M]: it reads and
      writes a [World] (document collection and trace of external calls)
      and either resolves ([Return]) or rejects ([Throw]). *)

From Stdlib Require Import String Ascii ZArith QArith Qround Qabs Lqa DecimalString Bool Lia
  Permutation Sorted List.
Import ListNotations.

Local Open Scope string_scope.
Local Open Scope list_scope.
Local Open Scope Z_scope.

(* ===================================================================== *)
(** ** SHA-256 (FIPS 180-4), as computed by [createHash('sha256')] *)
(* ===================================================================== *)

Module SHA256.

Definition word_mod : Z := 2 ^ 32.

Definition add32 (a b : Z) : Z := (a + b) mod word_mod.

Definition rotr (n x : Z) : Z :=
  Z.lor (Z.shiftr x n) (Z.shiftl x (32 - n)) mod word_mod.

Definition shr (n x : Z) : Z := Z.shiftr x n.

Definition not32 (x : Z) : Z := Z.lxor x (word_mod - 1).

Definition Ch (x y z : Z) : Z := Z.lxor (Z.land x y) (Z.land (not32 x) z).

Definition Maj (x y z : Z) : Z :=
  Z.lxor (Z.lxor (Z.land x y) (Z.land x z)) (Z.land y z).

Definition Sigma0 (x : Z) : Z := Z.lxor (Z.lxor (rotr 2 x) (rotr 13 x)) (rotr 22 x).
Definition Sigma1 (x : Z) : Z := Z.lxor (Z.lxor (rotr 6 x) (rotr 11 x)) (rotr 25 x).
Definition sigma0 (x : Z) : Z := Z.lxor (Z.lxor (rotr 7 x) (rotr 18 x)) (shr 3 x).
Definition sigma1 (x : Z) : Z := Z.lxor (Z.lxor (rotr 17 x) (rotr 19 x)) (shr 10 x).

(** The constants are defined from the primes, as the standard does: the
    first 32 bits of the fractional part of the cube root (round
    constants) and of the square root (initial hash value). *)
Definition primes : list Z :=
  [ 2; 3; 5; 7; 11; 13; 17; 19; 23; 29; 31; 37; 41; 43; 47; 53;
    59; 61; 67; 71; 73; 79; 83; 89; 97; 101; 103; 107; 109; 113; 127; 131;
    137; 139; 149; 151; 157; 163; 167; 173; 179; 181; 191; 193; 197; 199; 211; 223;
    227; 229; 233; 239; 241; 251; 257; 263; 269; 271; 277; 281; 283; 293; 307; 311 ].

(** Integer cube root below 2^[bits], found bit by bit. *)
Fixpoint cube_root (bits : nat) (n r : Z) : Z :=
  match bits with
  | O => r
  | S bits' =>
      let c := r + 2 ^ Z.of_nat bits' in
      cube_root bits' n (if c * c * c <=? n then c else r)
  end.

Definition frac_cube_root (p : Z) : Z := cube_root 40 (p * 2 ^ 96) 0 mod word_mod.

Definition frac_square_root (p : Z) : Z := Z.sqrt (p * 2 ^ 64) mod word_mod.

Definition K : list Z := Eval vm_compute in map frac_cube_root primes.

(** The eight working variables / the intermediate hash value. *)
Record state : Type := mkState
  { sa : Z; sb : Z; sc : Z; sd : Z; se : Z; sf : Z; sg : Z; sh : Z }.

Definition H0 : state :=
  Eval vm_compute in
    mkState (frac_square_root 2) (frac_square_root 3) (frac_square_root 5)
            (frac_square_root 7) (frac_square_root 11) (frac_square_root 13)
            (frac_square_root 17) (frac_square_root 19).

(** Big-endian value of a byte sequence. *)
Definition be_value (bs : list Z) : Z :=
  fold_left (fun acc b => acc * 256 + b) bs 0.

(** Big-endian bytes of a 32-bit word and of a 64-bit length. *)
Definition word_bytes (w : Z) : list Z :=
  [ (w / 2 ^ 24) mod 256; (w / 2 ^ 16) mod 256; (w / 2 ^ 8) mod 256; w mod 256 ].

Definition len64_bytes (n : Z) : list Z :=
  word_bytes ((n / word_mod) mod word_mod) ++ word_bytes (n mod word_mod).

(** Padding: the bit '1', zero bits up to 448 mod 512, the bit length. *)
Definition pad (msg : list Z) : list Z :=
  let len := Z.of_nat (length msg) in
  msg ++ [0x80] ++ repeat 0 (Z.to_nat ((55 - len) mod 64)) ++ len64_bytes (8 * len).

Fixpoint chunks (fuel : nat) (size : nat) (l : list Z) : list (list Z) :=
  match fuel with
  | O => []
  | S fuel' =>
      match l with
      | [] => []
      | _ => firstn size l :: chunks fuel' size (skipn size l)
      end
  end.

Definition block_words (block : list Z) : list Z :=
  map be_value (chunks 16 4 block).

(** Message schedule: [n] further words after the sixteen of the block. *)
Fixpoint schedule (n : nat) (w : list Z) : list Z :=
  match n with
  | O => w
  | S n' =>
      let t := length w in
      let at_ (k : nat) := nth (t - k) w 0 in
      schedule n'
        (w ++ [add32 (add32 (sigma1 (at_ 2%nat)) (at_ 7%nat))
                     (add32 (sigma0 (at_ 15%nat)) (at_ 16%nat))])
  end.

Definition round (s : state) (kw : Z * Z) : state :=
  let (k, w) := kw in
  let t1 := add32 (add32 (add32 (sh s) (Sigma1 (se s))) (add32 (Ch (se s) (sf s) (sg s)) k)) w in
  let t2 := add32 (Sigma0 (sa s)) (Maj (sa s) (sb s) (sc s)) in
  mkState (add32 t1 t2) (sa s) (sb s) (sc s) (add32 (sd s) t1) (se s) (sf s) (sg s).

Definition compress (h : state) (block : list Z) : state :=
  let w := schedule 48 (block_words block) in
  let s := fold_left round (combine K w) h in
  mkState (add32 (sa h) (sa s)) (add32 (sb h) (sb s))
          (add32 (sc h) (sc s)) (add32 (sd h) (sd s))
          (add32 (se h) (se s)) (add32 (sf h) (sf s))
          (add32 (sg h) (sg s)) (add32 (sh h) (sh s)).

Definition state_bytes (s : state) : list Z :=
  word_bytes (sa s) ++ word_bytes (sb s) ++ word_bytes (sc s) ++ word_bytes (sd s) ++
  word_bytes (se s) ++ word_bytes (sf s) ++ word_bytes (sg s) ++ word_bytes (sh s).

(** [createHash('sha256').update(msg).digest()]: the 32-byte digest. *)
Definition digest (msg : list Z) : list Z :=
  let padded := pad msg in
  state_bytes (fold_left compress (chunks (length padded) 64 padded) H0).

End SHA256.

(* ===================================================================== *)
(** ** JavaScript runtime pieces used by the services *)
(* ===================================================================== *)

Module JS.

(** A promise settles with a value or with an [Error] carrying a message. *)
Inductive Error : Type := mkError (message : string).

Inductive Result (A : Type) : Type :=
| Return (a : A)
| Throw (e : Error).
Arguments Return {A} a.
Arguments Throw {A} e.

(** The bytes [Hash.update(str)] feeds to the digest: the UTF-8 encoding. *)
Definition utf8_bytes (s : string) : list Z :=
  map (fun c => Z.of_N (N_of_ascii c)) (list_ascii_of_string s).

(** [Number.MAX_SAFE_INTEGER] = 2^53 - 1. *)
Definition MAX_SAFE_INTEGER : Z := 9007199254740991.

(** [buf.readBigUInt64BE(offset)]: a RangeError outside the buffer. *)
Definition readBigUInt64BE (buf : list Z) (offset : nat) : Result Z :=
  if (offset + 8 <=? length buf)%nat
  then Return (SHA256.be_value (firstn 8 (skipn offset buf)))
  else Throw (mkError "ERR_OUT_OF_RANGE").

(** [Number(b)] for a BigInt [b]: the double nearest to [b], ties to even
    (53-bit significand); magnitudes below 2^53 are exact. *)
Definition Number_of_BigInt (b : Z) : Z :=
  let a := Z.abs b in
  if a <? 2 ^ 53 then b
  else
    let e := Z.log2 a - 52 in
    let q := Z.shiftr a e in
    let r := a - Z.shiftl q e in
    let half := 2 ^ (e - 1) in
    let q' := if r <? half then q
              else if half <? r then q + 1
              else if Z.even q then q else q + 1 in
    Z.sgn b * (q' * 2 ^ e).

(** The decimal numeral of a non-negative integer. *)
Definition numeral (n : Z) : string :=
  NilZero.string_of_int (Z.to_int n).

Definition decimal_length (n : Z) : Z :=
  Z.of_nat (String.length (numeral n)).

Fixpoint zeros (n : nat) : string :=
  match n with
  | O => EmptyString
  | S n' => String "0"%char (zeros n')
  end.

(** Number::toString looks for the fewest digits [s] (with [k] digits)
    and a power [j] such that [s * 10^j] still converts to the number
    [v]. For given [k] and [j] the multiples of [10^j] next to [v] are
    the only ones to try; of two that fit, the nearer one is taken. *)
Definition nearer (v p a b : Z) : Z :=
  if Z.abs (a * p - v) <? Z.abs (b * p - v) then a
  else if Z.abs (b * p - v) <? Z.abs (a * p - v) then b
  else if Z.even a then a else b.

Definition digits_candidate (v k j : Z) : option Z :=
  if j <? 0 then None
  else
    let p := 10 ^ j in
    let lo := v / p in
    let fits s :=
      (10 ^ (k - 1) <=? s) && (s <? 10 ^ k) && (Number_of_BigInt (s * p) =? v) in
    match fits lo, fits (lo + 1) with
    | true, true => Some (nearer v p lo (lo + 1))
    | true, false => Some lo
    | false, true => Some (lo + 1)
    | false, false => None
    end.

(** The digits and the power of ten, trying [k], [k + 1], ... digits;
    [n] is the number of digits of [v] itself, which always fit. *)
Fixpoint shortest_digits (fuel : nat) (v n k : Z) : Z * Z :=
  match fuel with
  | O => (v, 0)
  | S fuel' =>
      match digits_candidate v k (n - k), digits_candidate v k (n + 1 - k) with
      | Some s, Some s' =>
          if Z.abs (s' * 10 ^ (n + 1 - k) - v) <? Z.abs (s * 10 ^ (n - k) - v)
          then (s', n + 1 - k) else (s, n - k)
      | Some s, None => (s, n - k)
      | None, Some s' => (s', n + 1 - k)
      | None, None => shortest_digits fuel' v n (k + 1)
      end
  end.

(** Number::toString for a non-negative integer number: up to 21 digits
    the digits are followed by zeros, beyond that the exponent is
    written out. *)
Definition Number_toString (v : Z) : string :=
  if v =? 0 then "0"%string
  else
    let n := decimal_length v in
    let (s, j) := shortest_digits (Z.to_nat n) v n 1 in
    let exponent := decimal_length s + j in
    if exponent <=? 21 then String.append (numeral s) (zeros (Z.to_nat j))
    else
      match numeral s with
      | String d EmptyString =>
          String d (String.append "e+" (numeral (exponent - 1)))
      | String d rest =>
          String d (String "."%char
                      (String.append rest
                         (String.append "e+" (numeral (exponent - 1)))))
      | EmptyString => EmptyString
      end.

(** [String(n)] for an integer [n] held in a number: the numeral of the
    double, which is the exact decimal numeral up to 2^53 and the
    shortest numeral that reads back as the same double beyond. *)
Definition String_of_number (n : Z) : string :=
  let v := Number_of_BigInt n in
  if v <? 0 then String "-"%char (Number_toString (- v)) else Number_toString v.

(** Values a payload field can hold (JSON scalars, or nothing). *)
Inductive Value : Type :=
| VUndefined
| VNull
| VString (s : string)
| VNumber (n : Z).

(** [String(v)]. *)
Definition String_of (v : Value) : string :=
  match v with
  | VUndefined => "undefined"
  | VNull => "null"
  | VString s => s
  | VNumber n => String_of_number n
  end.

(** Truthiness of a string: [Boolean(s)]. *)
Definition Boolean_string (s : string) : bool :=
  negb (String.eqb s "").

(** [a || b] on strings. *)
Definition or_string (a b : string) : string :=
  if Boolean_string a then a else b.

(** [a || b] where [a] may be absent. *)
Definition or_opt_string (a : option string) (b : string) : string :=
  match a with
  | Some s => or_string s b
  | None => b
  end.

(** [a ?? b]. *)
Definition nullish {A : Type} (a : option A) (b : A) : A :=
  match a with
  | Some x => x
  | None => b
  end.

(** A plain object used as a record, and a [Map] keyed by strings: both
    keep their entries in insertion order, and assigning to a key that is
    present replaces the value in place. *)
Section Maps.
Context {V : Type}.

Definition Map : Type := list (string * V).

Fixpoint Map_get (m : Map) (k : string) : option V :=
  match m with
  | [] => None
  | (k', v) :: m' => if String.eqb k' k then Some v else Map_get m' k
  end.

Fixpoint Map_set (m : Map) (k : string) (v : V) : Map :=
  match m with
  | [] => [(k, v)]
  | (k', v') :: m' =>
      if String.eqb k' k then (k', v) :: m' else (k', v') :: Map_set m' k v
  end.

(** [new Map(entries)]. *)
Definition Map_of_entries (entries : list (string * V)) : Map :=
  fold_left (fun m kv => Map_set m (fst kv) (snd kv)) entries [].

(** [Array.from(m.values())]. *)
Definition Map_values (m : Map) : list V := map snd m.

Definition Map_keys (m : Map) : list string := map fst m.
End Maps.
Arguments Map V : clear implicits.

(** [obj[key] = value] on a plain object created by [{}], for a value
    that is a string: the object keeps its keys in the order they were
    added. The key [__proto__] is the accessor inherited from
    [Object.prototype], whose setter ignores a value that is not an
    object: the assignment adds no property. *)
Definition Object_set (obj : Map string) (key value : string) : Map string :=
  if String.eqb key "__proto__" then obj else Map_set obj key value.

Section Arrays.
Context {A : Type}.

(** [arr.sort(cmp)]: the sort is stable; [cmp a b > 0] puts [a] after
    [b]. With a comparator that is a consistent ordering every stable
    sort yields the list computed here. *)
Fixpoint sort_insert (cmp : A -> A -> Q) (x : A) (l : list A) : list A :=
  match l with
  | [] => [x]
  | y :: l' =>
      if Qle_bool (cmp x y) 0 then x :: y :: l' else y :: sort_insert cmp x l'
  end.

Definition Array_sort (cmp : A -> A -> Q) (l : list A) : list A :=
  fold_right (sort_insert cmp) [] l.

(** [arr.slice(0, end)]: a negative [end] counts from the back. *)
Definition Array_slice0 (l : list A) (end_ : Z) : list A :=
  let len := Z.of_nat (List.length l) in
  let final := if end_ <? 0 then Z.max (len + end_) 0 else Z.min end_ len in
  firstn (Z.to_nat final) l.

(** [arr[idx]]: [undefined] out of range. *)
Definition Array_at (l : list A) (idx : nat) : option A := nth_error l idx.
End Arrays.

(** A number that is an integer or not finite. *)
Inductive Number : Type :=
| Finite (n : Z)
| PositiveInfinity
| NegativeInfinity
| NaN.

(** [Math.ceil(a / b)] for integers [a] and [b]: division by zero gives
    an infinity or NaN; otherwise the quotient is taken exactly. *)
Definition Math_ceil_div (a b : Z) : Number :=
  if b =? 0 then
    if a =? 0 then NaN
    else if 0 <? a then PositiveInfinity else NegativeInfinity
  else Finite (Qceiling (inject_Z a / inject_Z b)).

(** A finite double is a rational [m * 2^e] with [|m| < 2^53] and
    [-1074 <= e]; an arithmetic operation on doubles returns the double
    nearest to the exact result, a tie going to the even significand.
    Results beyond the largest double are outside this model. *)
Definition pow2 (e : Z) : Q :=
  if 0 <=? e then inject_Z (2 ^ e) else (1 # Z.to_pos (2 ^ (- e)))%Q.

(** [floor (log2 |q|)] for [q] other than zero. *)
Definition binade (q : Q) : Z :=
  let k := Z.log2 (Z.abs (Qnum q)) - Z.log2 (Zpos (Qden q)) in
  if Qle_bool (pow2 k) (Qabs q) then k else k - 1.

(** The integer nearest to [x], a tie going to the even one. *)
Definition round_half_even (x : Q) : Z :=
  let f := Qfloor x in
  match ((x - inject_Z f) ?= (1 # 2))%Q with
  | Lt => f
  | Gt => f + 1
  | Eq => if Z.even f then f else f + 1
  end.

Definition nearest_double (q : Q) : Q :=
  if Qeq_bool q 0 then 0%Q
  else
    let e := Z.max (binade q - 52) (-1074) in
    Qred (inject_Z (round_half_even (q / pow2 e)) * pow2 e)%Q.

(** The double nearest to a rational; equal rationals give the same
    double, whatever fraction writes them. *)
Definition Number_of_Q (q : Q) : Q := nearest_double (Qred q).

(** [a - b] on doubles. *)
Definition Number_sub (a b : Q) : Q := Number_of_Q (a - b)%Q.

(** [a > b] on finite numbers. *)
Definition Qgt_bool (a b : Q) : bool := negb (Qle_bool a b).

(** [arr.filter(Boolean)] on an array whose holes are [undefined]. *)
Fixpoint filter_defined {A : Type} (l : list (option A)) : list A :=
  match l with
  | [] => []
  | Some x :: l' => x :: filter_defined l'
  | None :: l' => filter_defined l'
  end.

End JS.
Import JS.

(* ===================================================================== *)
(** ** Data model *)
(* ===================================================================== *)

(** Opaque metadata attached to a vector ([Record<string, unknown>]). *)
Definition Payload : Type := Map Value.

(** [VectorMatch]. *)
Record VectorMatch : Type := mkVectorMatch
  { vm_id : string;
    score : Q;
    payload : Payload }.

(** [EmbeddingRecord = Record<string, number[]>], as [Object.entries]
    enumerates it. *)
Definition EmbeddingRecord : Type := Map (list Q).

(** A persisted movie. [_id] is the ObjectId in its canonical
    hexadecimal form; the virtual [id] of a document is that string. *)
Record MovieDocument : Type := mkMovieDocument
  { _id : string;
    title : string;
    genres : list string;
    cast : list string;
    director : option string;
    releaseYear : option Z;
    plot : option string;
    trailerUrl : option string;
    posterUrl : option string;
    rating : option Q;
    metadata : option Payload;
    embeddingKeys : Map string;
    createdAt : Z }.

Definition doc_id (m : MovieDocument) : string := _id m.

(** [Partial<CreateMovieDTO>], as a JSON request body carries it: every
    field may be absent. A key that is present with the value
    [undefined] (which JSON cannot write) is not represented. *)
Record PartialMovie : Type := mkPartialMovie
  { p_title : option string;
    p_genres : option (list string);
    p_cast : option (list string);
    p_director : option string;
    p_releaseYear : option Z;
    p_plot : option string;
    p_trailerUrl : option string;
    p_posterUrl : option string;
    p_rating : option Q;
    p_metadata : option Payload }.

(** [{ ...a, ...b }]: the fields of [b] override those of [a]. *)
Definition spread (a b : PartialMovie) : PartialMovie :=
  let pick {A} (x y : option A) := match y with Some _ => y | None => x end in
  mkPartialMovie
    (pick (p_title a) (p_title b)) (pick (p_genres a) (p_genres b))
    (pick (p_cast a) (p_cast b)) (pick (p_director a) (p_director b))
    (pick (p_releaseYear a) (p_releaseYear b)) (pick (p_plot a) (p_plot b))
    (pick (p_trailerUrl a) (p_trailerUrl b)) (pick (p_posterUrl a) (p_posterUrl b))
    (pick (p_rating a) (p_rating b)) (pick (p_metadata a) (p_metadata b)).

(* ===================================================================== *)
(** ** Effects: the world an [async] function runs in *)
(* ===================================================================== *)

Inductive Level : Type := info | warn | error.

(** Requests sent to a backend over HTTP. *)
Inductive AxiosBody : Type :=
| QueryBody (query_embeddings : list (list Q)) (n_results : Z)
| AddBody (ids : list string) (embeddings : list (list Q)) (metadatas : list Payload).

(** Everything observable outside the process, in the order it happens. *)
Inductive Event : Type :=
| Log (level : Level) (msg : string)
| QdrantGetCollection (collection : string)
| QdrantSearch (collection : string) (vector : list Q) (limit : Z)
| QdrantUpsert (collection : string) (ids : list Z)
| PineconeQuery (index : string) (vector : list Q) (topK : Z)
| PineconeUpsert (index : string) (ids : list string)
| AxiosPost (url : string) (body : AxiosBody)
| DbFindById (id : string)
| DbFindIn (ids : list string)
| DbFindPage (sortBy : string) (direction : Z) (skip : Z) (limit : Z)
| DbCountDocuments
| DbFindByIdAndUpdate (id : string) (update : PartialMovie)
| DbFindByIdAndDelete (id : string)
| RegenerateMovieEmbeddings (id : string) (embeddingPayload : PartialMovie).

Record World : Type := mkWorld
  { collection : list MovieDocument;
    trace : list Event }.

Definition M (A : Type) : Type := World -> Result A * World.

Definition ret {A} (a : A) : M A := fun w => (Return a, w).

Definition throw {A} (e : Error) : M A := fun w => (Throw e, w).

Definition bind {A B} (m : M A) (k : A -> M B) : M B :=
  fun w =>
    match m w with
    | (Return a, w') => k a w'
    | (Throw e, w') => (Throw e, w')
    end.

(** [try { m } catch (error) { handler(error) }]. *)
Definition try_catch {A} (m : M A) (handler : Error -> M A) : M A :=
  fun w =>
    match m w with
    | (Return a, w') => (Return a, w')
    | (Throw e, w') => handler e w'
    end.

Definition emit (ev : Event) : M unit :=
  fun w => (Return tt, mkWorld (collection w) (trace w ++ [ev])).

Definition lift {A} (r : Result A) : M A := fun w => (r, w).

Declare Scope M_scope.
Delimit Scope M_scope with M.
Notation "x <- m ;; k" := (bind m (fun x => k))
  (at level 100, m at next level, right associativity) : M_scope.
Notation "m ;; k" := (bind m (fun _ => k))
  (at level 100, right associativity) : M_scope.
Local Open Scope M_scope.

(** [for (const x of xs) ...] collecting results; stops at the first throw. *)
Fixpoint mapM {A B} (f : A -> M B) (xs : list A) : M (list B) :=
  match xs with
  | [] => ret []
  | x :: xs' => y <- f x ;; ys <- mapM f xs' ;; ret (y :: ys)
  end.

(** [logger.info], [logger.warn], [logger.error]. *)
Definition logger (level : Level) (msg : string) : M unit := emit (Log level msg).

(** A method call on a client object: a TypeError when the property is
    undefined, and otherwise the call is issued and its promise awaited. *)
Definition call {A} (method : option (Result A)) (ev : Event) : M A :=
  match method with
  | None => throw (mkError "TypeError: not a function")
  | Some r => emit ev ;; lift r
  end.

(* ===================================================================== *)
(** ** The vector clients *)
(* ===================================================================== *)

(** *** Qdrant ([@qdrant/js-client-rest]) *)

Record CollectionInfo : Type := mkCollectionInfo
  { points_count : option Z  (* [undefined]/[null] when not reported *) }.

Inductive PointId : Type :=
| NumericPointId (n : Z)
| StringPointId (s : string).

Record ScoredPoint : Type := mkScoredPoint
  { sp_id : PointId;
    sp_score : option Q;
    sp_payload : option Payload }.

(** What [client.search] resolves to: an array of points, or something
    that is falsy or not an array. *)
Inductive SearchResponse : Type :=
| NotAnArray
| PointArray (points : list ScoredPoint).

Record QdrantPoint : Type := mkQdrantPoint
  { qp_id : Z;
    qp_vector : list Q;
    qp_payload : Payload }.

Definition GetCollectionMethod : Type := string -> Result CollectionInfo.
Definition SearchMethod : Type := string -> list Q -> Z -> Result SearchResponse.
Definition UpsertMethod : Type := string -> list QdrantPoint -> Result unit.

Record QdrantClient : Type := mkQdrantClient
  { QdrantClient_getCollection : GetCollectionMethod;
    QdrantClient_search : SearchMethod;
    QdrantClient_upsert : UpsertMethod }.

(** *** Pinecone ([@pinecone-database/pinecone]) *)

Record PineconeMatch : Type := mkPineconeMatch
  { pm_id : string;
    pm_score : option Q;
    pm_metadata : option Payload }.

Record QueryResponse : Type := mkQueryResponse
  { matches : option (list PineconeMatch) }.

Record PineconeVector : Type := mkPineconeVector
  { pv_id : string;
    pv_values : list Q;
    pv_metadata : Payload }.

Record PineconeIndex : Type := mkPineconeIndex
  { index_query : list Q -> Z -> Result QueryResponse;
    index_upsert : list PineconeVector -> Result unit }.

Definition IndexMethod : Type := string -> PineconeIndex.

Record Pinecone : Type := mkPinecone
  { Pinecone_index : IndexMethod }.

(** *** Chroma, reached over REST with [axios] *)

Record ChromaResults : Type := mkChromaResults
  { chroma_ids : option (list (list string));
    chroma_distances : option (list (list (option Q)));
    chroma_metadatas : option (list (list (option Payload))) }.

Record AxiosResponse : Type := mkAxiosResponse
  { data : option ChromaResults }.

(** *** The client value returned by [getVectorClient()]

    An object has a prototype and own properties. An instance of a client
    class inherits the methods of that class; a property that is neither
    own nor inherited reads as [undefined] ([None]). *)
Inductive Prototype : Type :=
| QdrantClient_prototype (methods : QdrantClient)
| Pinecone_prototype (methods : Pinecone)
| Object_prototype.

Record Client : Type := mkClient
  { prototype : Prototype;
    own_getCollection : option GetCollectionMethod;
    own_search : option SearchMethod;
    own_upsert : option UpsertMethod;
    own_index : option IndexMethod;
    own_baseUrl : option string;
    own_collection : option string }.

Definition instanceof_QdrantClient (client : Client) : bool :=
  match prototype client with
  | QdrantClient_prototype _ => true
  | _ => false
  end.

Definition instanceof_Pinecone (client : Client) : bool :=
  match prototype client with
  | Pinecone_prototype _ => true
  | _ => false
  end.

(** Property reads [client.search], [client.getCollection], ... *)
Definition inherited {A} (own : option A) (from_class : option A) : option A :=
  match own with
  | Some v => Some v
  | None => from_class
  end.

Definition client_search (client : Client) : option SearchMethod :=
  inherited (own_search client)
    match prototype client with
    | QdrantClient_prototype q => Some (QdrantClient_search q)
    | _ => None
    end.

Definition client_getCollection (client : Client) : option GetCollectionMethod :=
  inherited (own_getCollection client)
    match prototype client with
    | QdrantClient_prototype q => Some (QdrantClient_getCollection q)
    | _ => None
    end.

Definition client_upsert (client : Client) : option UpsertMethod :=
  inherited (own_upsert client)
    match prototype client with
    | QdrantClient_prototype q => Some (QdrantClient_upsert q)
    | _ => None
    end.

Definition client_index (client : Client) : option IndexMethod :=
  inherited (own_index client)
    match prototype client with
    | Pinecone_prototype p => Some (Pinecone_index p)
    | _ => None
    end.

Definition client_baseUrl (client : Client) : option string := own_baseUrl client.

Definition client_collection (client : Client) : option string := own_collection client.

Definition defined {A} (v : option A) : bool :=
  match v with
  | Some _ => true
  | None => false
  end.

(** Configuration and collaborators that the services take from their
    environment: [env], [getVectorClient()] and the [axios] transport. *)
Record Env : Type := mkEnv
  { VECTOR_COLLECTION : string;
    PINECONE_INDEX : option string }.

Class Deployment : Type := mkDeployment
  { env : Env;
    getVectorClient : Client;
    axios_post : string -> AxiosBody -> Result AxiosResponse }.

(** The [bson] identifier type: which strings are identifiers, and the
    canonical hexadecimal string of the identifier a valid string denotes. *)
Class Bson : Type := mkBson
  { ObjectId_isValid : string -> bool;
    ObjectId_cast : string -> string }.

(* ===================================================================== *)
(** ** services/vectorSearchService *)
(* ===================================================================== *)

Section VectorSearchService.
Context {deployment : Deployment}.
Local Open Scope string_scope.

(** Helpers to check the client type. *)
Definition isQdrant (client : Client) : bool :=
  instanceof_QdrantClient client || defined (client_search client).

Definition isPinecone (client : Client) : bool :=
  instanceof_Pinecone client || defined (client_index client).

Definition isChroma (client : Client) : bool :=
  defined (client_baseUrl client).

(** Convert a string id to a numeric id for Qdrant. *)
Definition stringToNumericId (str : string) : Result Z :=
  let hash := SHA256.digest (utf8_bytes str) in
  match readBigUInt64BE hash 0 with
  | Throw e => Throw e
  | Return bigInt =>
      let numericId := Number_of_BigInt (bigInt mod MAX_SAFE_INTEGER) in
      Return numericId
  end.

Definition template_undefined (v : option string) : string :=
  match v with
  | Some s => s
  | None => "undefined"
  end.

Definition unsupported_provider : Error :=
  mkError "Unsupported vector database provider".

Definition count_string {A} (l : list A) : string :=
  String_of_number (Z.of_nat (List.length l)).

Definition composite_key (movieId source : string) : string :=
  movieId ++ ":" ++ source.

Definition source_of (metadata : Payload) : string :=
  String_of (nullish (Map_get metadata "source") VUndefined).

(** The Qdrant branch of [upsertMovieEmbeddings]. *)
Definition upsert_Qdrant (client : Client) (movieId : string)
    (embeddings : EmbeddingRecord) : M (Map string) :=
  points <- mapM (fun entry : string * list Q =>
              let (source, vector) := entry in
              let stringId := composite_key movieId source in
              numericId <- lift (stringToNumericId stringId) ;;
              ret (mkQdrantPoint numericId vector
                     [ ("movieId", VString movieId);
                       ("source", VString source);
                       ("originalId", VString stringId) ]))
            embeddings ;;
  call (option_map (fun upsert => upsert (VECTOR_COLLECTION env) points)
                   (client_upsert client))
       (QdrantUpsert (VECTOR_COLLECTION env) (map qp_id points)) ;;
  logger info ("Upserted " ++ count_string points ++ " embeddings for movie "
               ++ movieId ++ " to Qdrant") ;;
  ret (fold_left
         (fun acc point =>
            Object_set acc (source_of (qp_payload point)) (String_of_number (qp_id point)))
         points []).

(** The vectors written to Pinecone and to Chroma. *)
Definition string_keyed_vectors (movieId : string) (embeddings : EmbeddingRecord)
  : list PineconeVector :=
  map (fun entry : string * list Q =>
         let (source, vector) := entry in
         mkPineconeVector (composite_key movieId source) vector
           [ ("movieId", VString movieId); ("source", VString source) ])
      embeddings.

Definition returned_keys (vectors : list PineconeVector) : Map string :=
  fold_left (fun acc vec => Object_set acc (source_of (pv_metadata vec)) (pv_id vec))
            vectors [].

(** The Pinecone branch of [upsertMovieEmbeddings]. *)
Definition upsert_Pinecone (client : Client) (movieId : string)
    (embeddings : EmbeddingRecord) : M (Map string) :=
  match client_index client with
  | None => throw (mkError "TypeError: client.index is not a function")
  | Some index_method =>
      let name := or_opt_string (PINECONE_INDEX env) (VECTOR_COLLECTION env) in
      let index := index_method name in
      let vectors := string_keyed_vectors movieId embeddings in
      call (Some (index_upsert index vectors))
           (PineconeUpsert name (map pv_id vectors)) ;;
      logger info ("Upserted " ++ count_string vectors ++ " embeddings for movie "
                   ++ movieId ++ " to Pinecone") ;;
      ret (returned_keys vectors)
  end.

Definition chroma_url (client : Client) (action : string) : string :=
  template_undefined (client_baseUrl client) ++ "/collections/"
  ++ template_undefined (client_collection client) ++ "/" ++ action.

(** The Chroma branch of [upsertMovieEmbeddings]. *)
Definition upsert_Chroma (client : Client) (movieId : string)
    (embeddings : EmbeddingRecord) : M (Map string) :=
  let vectors := string_keyed_vectors movieId embeddings in
  let url := chroma_url client "add" in
  let body := AddBody (map pv_id vectors) (map pv_values vectors)
                      (map pv_metadata vectors) in
  call (Some (axios_post url body)) (AxiosPost url body) ;;
  logger info ("Upserted " ++ count_string vectors ++ " embeddings for movie "
               ++ movieId ++ " to Chroma") ;;
  ret (returned_keys vectors).

Definition upsertMovieEmbeddings (movieId : string) (embeddings : EmbeddingRecord)
  : M (Map string) :=
  let client := getVectorClient in
  if (List.length (Map_keys embeddings) =? 0)%nat then
    throw (mkError "No embeddings provided for upsert")
  else if isQdrant client then upsert_Qdrant client movieId embeddings
  else if isPinecone client then upsert_Pinecone client movieId embeddings
  else if isChroma client then upsert_Chroma client movieId embeddings
  else throw unsupported_provider.

Definition String_of_PointId (id : PointId) : string :=
  match id with
  | NumericPointId n => String_of_number n
  | StringPointId s => s
  end.

(** [distance || 0]: [undefined], [null] and [0] are falsy. *)
Definition or_zero (distance : option Q) : Q :=
  match distance with
  | Some d => if Qeq_bool d 0 then 0%Q else d
  | None => 0%Q
  end.

(** The pre-check of the Qdrant branch: [Some r] when the function
    returns [r] from inside the inner [try], [None] to go on. *)
Definition qdrant_precheck (client : Client) : M (option (list VectorMatch)) :=
  try_catch
    (collectionInfo <- call (option_map (fun getCollection => getCollection (VECTOR_COLLECTION env))
                                        (client_getCollection client))
                            (QdrantGetCollection (VECTOR_COLLECTION env)) ;;
     match points_count collectionInfo with
     | Some 0 =>
         logger info ("Vector collection '" ++ VECTOR_COLLECTION env
                      ++ "' is empty. Returning empty results.") ;;
         ret (Some [])
     | _ => ret None
     end)
    (fun _ =>
       logger warn ("Vector collection '" ++ VECTOR_COLLECTION env
                    ++ "' does not exist. Returning empty results.") ;;
       ret (Some [])).

(** The Qdrant branch of [semanticSearch]. *)
Definition search_Qdrant (client : Client) (embedding : list Q) (limit : Z)
  : M (list VectorMatch) :=
  try_catch
    (early <- qdrant_precheck client ;;
     match early with
     | Some result => ret result
     | None =>
         response <- call (option_map (fun search => search (VECTOR_COLLECTION env) embedding limit)
                                      (client_search client))
                          (QdrantSearch (VECTOR_COLLECTION env) embedding limit) ;;
         match response with
         | NotAnArray =>
             logger warn "Qdrant search returned invalid response" ;;
             ret []
         | PointArray points =>
             ret (map (fun point =>
                         mkVectorMatch (String_of_PointId (sp_id point))
                                       (nullish (sp_score point) 0%Q)
                                       (nullish (sp_payload point) []))
                      points)
         end
     end)
    (fun _ =>
       logger error "Qdrant search error" ;;
       logger warn "Returning empty results due to search error" ;;
       ret []).

(** The Pinecone branch of [semanticSearch]. *)
Definition search_Pinecone (client : Client) (embedding : list Q) (limit : Z)
  : M (list VectorMatch) :=
  match client_index client with
  | None => throw (mkError "TypeError: client.index is not a function")
  | Some index_method =>
      let name := or_opt_string (PINECONE_INDEX env) (VECTOR_COLLECTION env) in
      let index := index_method name in
      queryResponse <- call (Some (index_query index embedding limit))
                            (PineconeQuery name embedding limit) ;;
      ret (map (fun m =>
                  mkVectorMatch (pm_id m) (nullish (pm_score m) 0%Q)
                                (nullish (pm_metadata m) []))
               (nullish (matches queryResponse) []))
  end.

(** [results.xs?.[0] || []]. *)
Definition first_or_empty {A} (xs : option (list (list A))) : list A :=
  match xs with
  | Some (x :: _) => x
  | _ => []
  end.

(** The matches built from a Chroma query result. *)
Definition chroma_matches (results : ChromaResults) : list VectorMatch :=
  match chroma_ids results with
  | Some (ids :: _) =>
      let distances := first_or_empty (chroma_distances results) in
      let metadatas := first_or_empty (chroma_metadatas results) in
      map (fun entry : nat * string =>
             let (idx, id) := entry in
             mkVectorMatch id
               (Number_sub 1 (or_zero (nullish (Array_at distances idx) None)))
               (nullish (nullish (Array_at metadatas idx) None) []))
          (combine (seq 0 (List.length ids)) ids)
  | _ => []
  end.

(** The Chroma branch of [semanticSearch]. *)
Definition search_Chroma (client : Client) (embedding : list Q) (limit : Z)
  : M (list VectorMatch) :=
  let url := chroma_url client "query" in
  let body := QueryBody [embedding] limit in
  response <- call (Some (axios_post url body)) (AxiosPost url body) ;;
  match data response with
  | None => throw (mkError "TypeError: cannot read properties of undefined")
  | Some results => ret (chroma_matches results)
  end.

Definition semanticSearch (embedding : list Q) (limit : Z) : M (list VectorMatch) :=
  let client := getVectorClient in
  if isQdrant client then search_Qdrant client embedding limit
  else if isPinecone client then search_Pinecone client embedding limit
  else if isChroma client then search_Chroma client embedding limit
  else throw unsupported_provider.

End VectorSearchService.

(* ===================================================================== *)
(** ** The document store behind [MovieModel] *)
(* ===================================================================== *)

Section MovieModel.
Context {bson : Bson}.
Local Open Scope string_scope.

Definition get_collection : M (list MovieDocument) :=
  fun w => (Return (collection w), w).

Definition put_collection (docs : list MovieDocument) : M unit :=
  fun w => (Return tt, mkWorld docs (trace w)).

Definition CastError : Error :=
  mkError "CastError: Cast to ObjectId failed".

Definition has_id (id : string) (m : MovieDocument) : bool :=
  String.eqb (_id m) (ObjectId_cast id).

(** [MovieModel.findById(id)]. *)
Definition MovieModel_findById (id : string) : M (option MovieDocument) :=
  emit (DbFindById id) ;;
  if ObjectId_isValid id then
    docs <- get_collection ;;
    ret (find (has_id id) docs)
  else throw CastError.

(** [MovieModel.find({ _id: { $in: ids } })]. *)
Definition MovieModel_find_in (ids : list string) : M (list MovieDocument) :=
  emit (DbFindIn ids) ;;
  if forallb ObjectId_isValid ids then
    docs <- get_collection ;;
    ret (filter (fun m => existsb (fun id => has_id id m) ids) docs)
  else throw CastError.

Definition sign (c : comparison) : Q :=
  match c with
  | Lt => (-1)%Q
  | Eq => 0%Q
  | Gt => 1%Q
  end.

Definition compare_option {A} (cmp : A -> A -> comparison) (a b : option A) : comparison :=
  match a, b with
  | None, None => Eq
  | None, Some _ => Lt
  | Some _, None => Gt
  | Some x, Some y => cmp x y
  end.

(** Order of two documents on one scalar field (a missing value sorts
    first). The order on the array and object fields, and on any
    other path, is not modelled: there the documents compare equal. *)
Definition compare_field (field : string) (a b : MovieDocument) : comparison :=
  if String.eqb field "createdAt" then Z.compare (createdAt a) (createdAt b)
  else if String.eqb field "title" then String.compare (title a) (title b)
  else if String.eqb field "releaseYear" then compare_option Z.compare (releaseYear a) (releaseYear b)
  else if String.eqb field "rating" then compare_option Qcompare (rating a) (rating b)
  else if String.eqb field "_id" then String.compare (_id a) (_id b)
  else if String.eqb field "director" then compare_option String.compare (director a) (director b)
  else if String.eqb field "plot" then compare_option String.compare (plot a) (plot b)
  else if String.eqb field "trailerUrl" then
    compare_option String.compare (trailerUrl a) (trailerUrl b)
  else if String.eqb field "posterUrl" then
    compare_option String.compare (posterUrl a) (posterUrl b)
  else Eq.

(** [MovieModel.find().sort({ [sortBy]: direction }).skip(skip).limit(limit)]:
    a negative skip is refused by the server, a limit of 0 means no
    limit and a negative limit is taken by its absolute value. The
    server promises no order among documents that compare equal; here
    they keep the order of the collection, so what depends on that
    order holds of the server only where no two documents compare
    equal. *)
Definition MovieModel_find_page (sortBy : string) (direction skip limit : Z)
  : M (list MovieDocument) :=
  emit (DbFindPage sortBy direction skip limit) ;;
  if (skip <? 0)%Z then throw (mkError "MongoServerError: skip value must be non-negative")
  else
    docs <- get_collection ;;
    let sorted := Array_sort (fun a b => inject_Z direction * sign (compare_field sortBy a b))%Q docs in
    let skipped := skipn (Z.to_nat skip) sorted in
    ret (if (limit =? 0)%Z then skipped else firstn (Z.to_nat (Z.abs limit)) skipped).

(** [MovieModel.countDocuments()]. *)
Definition MovieModel_countDocuments : M Z :=
  emit DbCountDocuments ;;
  docs <- get_collection ;;
  ret (Z.of_nat (List.length docs)).

(** [{ $set: payload }] applied to a document. *)
Definition apply_set (payload : PartialMovie) (m : MovieDocument) : MovieDocument :=
  mkMovieDocument (_id m)
    (nullish (p_title payload) (title m))
    (nullish (p_genres payload) (genres m))
    (nullish (p_cast payload) (cast m))
    (match p_director payload with Some d => Some d | None => director m end)
    (match p_releaseYear payload with Some y => Some y | None => releaseYear m end)
    (match p_plot payload with Some p => Some p | None => plot m end)
    (match p_trailerUrl payload with Some u => Some u | None => trailerUrl m end)
    (match p_posterUrl payload with Some u => Some u | None => posterUrl m end)
    (match p_rating payload with Some r => Some r | None => rating m end)
    (match p_metadata payload with Some d => Some d | None => metadata m end)
    (embeddingKeys m) (createdAt m).

Fixpoint update_first (p : MovieDocument -> bool) (f : MovieDocument -> MovieDocument)
    (docs : list MovieDocument) : list MovieDocument :=
  match docs with
  | [] => []
  | m :: docs' => if p m then f m :: docs' else m :: update_first p f docs'
  end.

Fixpoint remove_first (p : MovieDocument -> bool) (docs : list MovieDocument)
  : list MovieDocument :=
  match docs with
  | [] => []
  | m :: docs' => if p m then docs' else m :: remove_first p docs'
  end.

(** [MovieModel.findByIdAndUpdate(id, { $set: payload }, { new: true })]. *)
Definition MovieModel_findByIdAndUpdate (id : string) (payload : PartialMovie)
  : M (option MovieDocument) :=
  emit (DbFindByIdAndUpdate id payload) ;;
  if ObjectId_isValid id then
    docs <- get_collection ;;
    put_collection (update_first (has_id id) (apply_set payload) docs) ;;
    ret (option_map (apply_set payload) (find (has_id id) docs))
  else throw CastError.

(** [MovieModel.findByIdAndDelete(id)]. *)
Definition MovieModel_findByIdAndDelete (id : string) : M (option MovieDocument) :=
  emit (DbFindByIdAndDelete id) ;;
  if ObjectId_isValid id then
    docs <- get_collection ;;
    put_collection (remove_first (has_id id) docs) ;;
    ret (find (has_id id) docs)
  else throw CastError.

End MovieModel.

(* ===================================================================== *)
(** ** services/movieService *)
(* ===================================================================== *)

Inductive SortOrder : Type := asc | desc.

(** An entry of the search result: [{ movie, score }]. *)
Record ScoredMovie : Type := mkScoredMovie
  { movie : MovieDocument;
    movie_score : Q }.

(** The value [getAllMovies] resolves to. *)
Record MoviePage : Type := mkMoviePage
  { movies : list MovieDocument;
    total : Z;
    page : Z;
    totalPages : Number }.

(** [Promise.all([a, b])]: both requests are issued; the result rejects
    with the first rejection. *)
Definition Promise_all2 {A B} (a : M A) (b : M B) : M (A * B) :=
  fun w =>
    let (ra, w1) := a w in
    let (rb, w2) := b w1 in
    match ra, rb with
    | Return x, Return y => (Return (x, y), w2)
    | Throw e, _ => (Throw e, w2)
    | _, Throw e => (Throw e, w2)
    end.

(** [for (const x of xs) acc = await step(acc, x)]. *)
Fixpoint foldM {A B} (step : B -> A -> M B) (xs : list A) (acc : B) : M B :=
  match xs with
  | [] => ret acc
  | x :: xs' => acc' <- step acc x ;; foldM step xs' acc'
  end.

(** The comparator of the final sort: [(a, b) => b.score - a.score]. The
    sort reads its sign only, and the difference of two doubles has the
    sign of the exact difference. *)
Definition by_score_descending (a b : ScoredMovie) : Q :=
  (movie_score b - movie_score a)%Q.

Section MovieService.
Context {bson : Bson} {deployment : Deployment}.
Local Open Scope string_scope.

Definition getMovieById (id : string) : M (option MovieDocument) :=
  if negb (ObjectId_isValid id) then ret None
  else MovieModel_findById id.

Definition getMoviesByIds (ids : list string) : M (list MovieDocument) :=
  let objectIds := filter ObjectId_isValid ids in
  if (List.length objectIds =? 0)%nat then ret []
  else
    movies <- MovieModel_find_in objectIds ;;
    let movieMap := Map_of_entries (map (fun movie => (doc_id movie, movie)) movies) in
    ret (filter_defined (map (fun id => Map_get movieMap id) ids)).

(** [String(match.payload.movieId)]. *)
Definition payload_movieId (m : VectorMatch) : string :=
  String_of (nullish (Map_get (payload m) "movieId") VUndefined).

(** The lookup keyed by both [movie.id] and [String(movie._id)]. *)
Definition index_movies (movies : list MovieDocument) : Map MovieDocument :=
  fold_left
    (fun movieMap movie =>
       let movieId := or_string (doc_id movie) (_id movie) in
       if Boolean_string movieId
       then Map_set (Map_set movieMap movieId movie) (_id movie) movie
       else movieMap)
    movies [].

(** One step of [matches.forEach]: keep the highest score per movie. *)
Definition merge_match (movieMap : Map MovieDocument)
    (movieScoreMap : Map ScoredMovie) (m : VectorMatch) : M (Map ScoredMovie) :=
  let movieId := payload_movieId m in
  match Map_get movieMap movieId with
  | None =>
      logger warn ("Movie not found for ID: " ++ movieId) ;;
      ret movieScoreMap
  | Some movie =>
      let existing := Map_get movieScoreMap movieId in
      if match existing with
         | None => true
         | Some e => Qgt_bool (score m) (movie_score e)
         end
      then ret (Map_set movieScoreMap movieId (mkScoredMovie movie (score m)))
      else ret movieScoreMap
  end.

Definition searchMoviesByEmbedding (embedding : list Q) (limit : Z)
  : M (list ScoredMovie) :=
  matches <- semanticSearch embedding (limit * 2) ;;
  if (List.length matches =? 0)%nat then ret []
  else
    let ids := filter Boolean_string (map payload_movieId matches) in
    if (List.length ids =? 0)%nat then ret []
    else
      movies <- getMoviesByIds ids ;;
      let movieMap := index_movies movies in
      movieScoreMap <- foldM (merge_match movieMap) matches [] ;;
      ret (Array_slice0
             (Array_sort by_score_descending (Map_values movieScoreMap))
             limit).

Definition getAllMovies (page limit : Z) (sortBy : string) (sortOrder : SortOrder)
  : M MoviePage :=
  let skip := (page - 1) * limit in
  let direction := match sortOrder with asc => 1 | desc => -1 end in
  results <- Promise_all2 (MovieModel_find_page sortBy direction skip limit)
                          MovieModel_countDocuments ;;
  let (movies, total) := results : list MovieDocument * Z in
  ret (mkMoviePage movies total page (Math_ceil_div total limit)).

(** Modelled from the spec: [regenerateMovieEmbeddings] of the ingestion
    service is not among the sources. The update triggers it without
    awaiting it and a failure there is only logged, so the call is an
    event of the trace and never fails the update. *)
Definition regenerateMovieEmbeddings (id : string) (embeddingPayload : PartialMovie)
  : M unit :=
  emit (RegenerateMovieEmbeddings id embeddingPayload).

Definition updateMovie (id : string) (payload : PartialMovie)
  : M (option MovieDocument) :=
  if negb (ObjectId_isValid id) then ret None
  else
    updatedMovie <- MovieModel_findByIdAndUpdate id payload ;;
    match updatedMovie with
    | Some updated =>
        let embeddingPayload :=
          spread (mkPartialMovie (Some (title updated)) (Some (genres updated))
                    None None None (plot updated) None None None (metadata updated))
                 payload in
        regenerateMovieEmbeddings id embeddingPayload ;;
        ret updatedMovie
    | None => ret updatedMovie
    end.

Definition deleteMovie (id : string) : M bool :=
  if negb (ObjectId_isValid id) then ret false
  else
    result <- MovieModel_findByIdAndDelete id ;;
    ret (match result with Some _ => true | None => false end).

End MovieService.

(* ===================================================================== *)
(** ** Specification-side definitions *)
(* ===================================================================== *)

(** The numeric key as the specification words it: SHA-256 digest of the
    composite key, first 8 bytes as an unsigned 64-bit big-endian integer,
    reduced modulo the largest safe integer. *)
Definition uint64_be (b0 b1 b2 b3 b4 b5 b6 b7 : Z) : Z :=
  b0 * 2 ^ 56 + b1 * 2 ^ 48 + b2 * 2 ^ 40 + b3 * 2 ^ 32
  + b4 * 2 ^ 24 + b5 * 2 ^ 16 + b6 * 2 ^ 8 + b7.

Definition spec_numeric_id (key : string) : option Z :=
  match SHA256.digest (utf8_bytes key) with
  | b0 :: b1 :: b2 :: b3 :: b4 :: b5 :: b6 :: b7 :: _ =>
      Some (uint64_be b0 b1 b2 b3 b4 b5 b6 b7 mod (2 ^ 53 - 1))
  | _ => None
  end.

Definition is_byte (b : Z) : Prop := 0 <= b < 256.

(** Events by which a search query reaches a backend. *)
Definition is_query_event (ev : Event) : bool :=
  match ev with
  | QdrantSearch _ _ _ | PineconeQuery _ _ _ | AxiosPost _ _ => true
  | _ => false
  end.

(** What the collection-info call of the Qdrant pre-check yields:
    [None] when the client has no such method. *)
Definition getCollection_outcome {deployment : Deployment} (client : Client)
  : option (Result CollectionInfo) :=
  option_map (fun getCollection => getCollection (VECTOR_COLLECTION env))
             (client_getCollection client).

Definition no_embeddings_error : Error :=
  mkError "No embeddings provided for upsert".

(** The collection as the database keeps it: every [_id] is an identifier
    in canonical form, and no two documents share one. *)
Definition canonical_ids {bson : Bson} (docs : list MovieDocument) : bool :=
  forallb (fun m => ObjectId_isValid (_id m) && String.eqb (ObjectId_cast (_id m)) (_id m))
          docs.

Fixpoint distinct_ids (docs : list MovieDocument) : bool :=
  match docs with
  | [] => true
  | m :: docs' =>
      negb (existsb (fun m' => String.eqb (_id m') (_id m)) docs') && distinct_ids docs'
  end.

Definition well_formed_collection {bson : Bson} (docs : list MovieDocument) : bool :=
  canonical_ids docs && distinct_ids docs.

(** The stored document whose [id] is, character for character, the
    given string, if the string is a valid identifier. This is the
    document a lookup keyed by [movie.id] finds; an identifier written
    otherwise than the store writes it (in upper case, say) has none. *)
Definition record_of {bson : Bson} (docs : list MovieDocument) (id : string)
  : option MovieDocument :=
  if ObjectId_isValid id then find (fun m => String.eqb (doc_id m) id) docs else None.

(** The stored document an identifier denotes: the one the store finds
    for it, as the single lookup returns it. *)
Definition denoted_record {bson : Bson} (docs : list MovieDocument) (id : string)
  : option MovieDocument :=
  if ObjectId_isValid id then find (has_id id) docs else None.

(** The bulk lookup as the specification words it: go through the input
    identifiers in order and keep the stored record of each one that
    has one. *)
Definition claimed_getMoviesByIds {bson : Bson} (docs : list MovieDocument)
    (ids : list string) : list MovieDocument :=
  flat_map (fun id => match denoted_record docs id with
                      | Some m => [m]
                      | None => []
                      end) ids.

(** The bulk lookup by id string: go through the input identifiers in
    order and keep, for each, the document with exactly that [id]. *)
Definition spec_getMoviesByIds {bson : Bson} (docs : list MovieDocument) (ids : list string)
  : list MovieDocument :=
  flat_map (fun id => match record_of docs id with
                      | Some m => [m]
                      | None => []
                      end) ids.

(** The merge step of [searchMoviesByEmbedding] without its warning: what
    [merge_match] does to the score map. *)
Definition merge_step (movieMap : Map MovieDocument) (movieScoreMap : Map ScoredMovie)
    (m : VectorMatch) : Map ScoredMovie :=
  let movieId := payload_movieId m in
  match Map_get movieMap movieId with
  | None => movieScoreMap
  | Some movie =>
      if match Map_get movieScoreMap movieId with
         | None => true
         | Some e => Qgt_bool (score m) (movie_score e)
         end
      then Map_set movieScoreMap movieId (mkScoredMovie movie (score m))
      else movieScoreMap
  end.

(** Descending order of scores. *)
Definition score_desc (a b : ScoredMovie) : Prop := (movie_score b <= movie_score a)%Q.

(** An entry pairs a loaded movie with the highest score among the raw
    matches that carry this movie's [id] string. *)
Definition best_match {bson : Bson} (docs : list MovieDocument) (found : list VectorMatch)
    (e : ScoredMovie) : Prop :=
  exists m : VectorMatch,
    In m found
    /\ record_of docs (payload_movieId m) = Some (movie e)
    /\ movie_score e = score m
    /\ forall m' : VectorMatch,
         In m' found -> record_of docs (payload_movieId m') = Some (movie e) ->
         (score m' <= movie_score e)%Q.

(** A computation that leaves the document collection as it found it. *)
Definition keeps_collection {A} (m : M A) : Prop :=
  forall w : World, collection (snd (m w)) = collection w.

(** What the score map holds after the matches [seen] have been merged:
    one entry per key; every entry is a movie the index resolves, with the
    score of one of the seen matches for it and no seen match for it
    scoring higher; and every seen match that resolves has an entry. *)
Definition merge_invariant (movieMap : Map MovieDocument) (acc : Map ScoredMovie)
    (seen : list VectorMatch) : Prop :=
  NoDup (Map_keys acc)
  /\ (forall k e,
        Map_get acc k = Some e ->
        Map_get movieMap k = Some (movie e)
        /\ exists m, In m seen /\ payload_movieId m = k /\ movie_score e = score m
                     /\ forall m', In m' seen -> payload_movieId m' = k ->
                                   (score m' <= movie_score e)%Q)
  /\ (forall m, In m seen -> Map_get movieMap (payload_movieId m) <> None ->
                Map_get acc (payload_movieId m) <> None).

(* ===================================================================== *)
(** ** Concrete instances used in examples *)
(* ===================================================================== *)

(** The identifier strings [bson] accepts: 24 hexadecimal characters,
    denoting the identifier whose canonical form is in lower case. *)
Definition is_hex_digit (c : ascii) : bool :=
  let n := nat_of_ascii c in
  ((48 <=? n) && (n <=? 57) || (65 <=? n) && (n <=? 70) || (97 <=? n) && (n <=? 102))%nat.

Definition lower_case (c : ascii) : ascii :=
  let n := nat_of_ascii c in
  if ((65 <=? n) && (n <=? 90))%nat then ascii_of_nat (n + 32) else c.

Definition hex24 : Bson :=
  mkBson
    (fun s => (String.length s =? 24)%nat && forallb is_hex_digit (list_ascii_of_string s))
    (fun s => string_of_list_ascii (map lower_case (list_ascii_of_string s))).

Definition sample_movie (id title : string) (created : Z) : MovieDocument :=
  mkMovieDocument id title [] [] None None None None None None None [] created.

Definition alien : MovieDocument := sample_movie "507f1f77bcf86cd799439011" "Alien" 100.
Definition brazil : MovieDocument := sample_movie "507f1f77bcf86cd799439012" "Brazil" 200.
Definition casablanca : MovieDocument := sample_movie "507f1f77bcf86cd799439013" "Casablanca" 300.

Definition sample_world : World := mkWorld [alien; brazil; casablanca] [].

Definition sample_env : Env := mkEnv "movies" None.

Definition no_http : string -> AxiosBody -> Result AxiosResponse :=
  fun _ _ => Throw (mkError "ECONNREFUSED").

(** An object with none of the probed properties. *)
Definition plain_object : Client :=
  mkClient Object_prototype None None None None None None.

Definition unsupported_deployment : Deployment :=
  mkDeployment sample_env plain_object no_http.

(** A Qdrant client whose collection is missing, one whose collection is
    empty, and one that answers a search with given points. *)
Definition qdrant_client (info : Result CollectionInfo) (response : Result SearchResponse)
  : Client :=
  mkClient
    (QdrantClient_prototype
       (mkQdrantClient (fun _ => info) (fun _ _ _ => response) (fun _ _ => Return tt)))
    None None None None None None.

Definition qdrant_deployment (info : Result CollectionInfo) (response : Result SearchResponse)
  : Deployment :=
  mkDeployment sample_env (qdrant_client info response) no_http.

(** A Pinecone client whose index answers a query with [response]. *)
Definition pinecone_client (response : Result QueryResponse) : Client :=
  mkClient
    (Pinecone_prototype
       (mkPinecone (fun _ => mkPineconeIndex (fun _ _ => response) (fun _ => Return tt))))
    None None None None None None.

Definition pinecone_deployment (response : Result QueryResponse) : Deployment :=
  mkDeployment sample_env (pinecone_client response) no_http.

(** A Chroma client: a plain object with [baseUrl] and [collection]. *)
Definition chroma_client : Client :=
  mkClient Object_prototype None None None None (Some "http://localhost:8000") (Some "movies").

Definition chroma_deployment (response : Result AxiosResponse) : Deployment :=
  mkDeployment sample_env chroma_client (fun _ _ => response).

(** A duck-typed object carrying the markers of all three backends. *)
Definition ambiguous_client : Client :=
  mkClient Object_prototype
    (Some (fun _ => Return (mkCollectionInfo (Some 5))))
    (Some (fun _ _ _ => Return (PointArray [])))
    (Some (fun _ _ => Return tt))
    (Some (fun _ => mkPineconeIndex (fun _ _ => Return (mkQueryResponse None))
                                    (fun _ => Return tt)))
    (Some "http://localhost:8000") (Some "movies").

Definition ambiguous_deployment : Deployment :=
  mkDeployment sample_env ambiguous_client no_http.

(** An object with the markers of Pinecone and Chroma only. *)
Definition index_and_baseUrl_client : Client :=
  mkClient Object_prototype None None None
    (Some (fun _ => mkPineconeIndex (fun _ _ => Return (mkQueryResponse None))
                                    (fun _ => Return tt)))
    (Some "http://localhost:8000") (Some "movies").

Definition index_and_baseUrl_deployment : Deployment :=
  mkDeployment sample_env index_and_baseUrl_client no_http.

(** A Chroma answer with two hits, at distances 0 and 1. *)
Definition two_hits : ChromaResults :=
  mkChromaResults
    (Some [["507f1f77bcf86cd799439011:title"; "507f1f77bcf86cd799439012:plot"]])
    (Some [[Some 0%Q; Some 1%Q]])
    (Some [[Some [("movieId", VString "507f1f77bcf86cd799439011")];
            Some [("movieId", VString "507f1f77bcf86cd799439012")]]]).

(** A collection of 45 movies, created one after the other. *)
Definition hex_digit (n : nat) : string :=
  String.substring (n mod 16) 1 "0123456789abcdef".

Definition numbered_movie (n : nat) : MovieDocument :=
  sample_movie ("507f1f77bcf86cd7994390" ++ hex_digit (n / 16) ++ hex_digit n)%string
               "Untitled" (Z.of_nat n).

Definition forty_five_movies : World := mkWorld (map numbered_movie (seq 0 45)) [].

(** Raw matches as Qdrant returns them: three for one movie, scored 0.9,
    0.7 and 0.95, one for a second movie and one whose movie is not stored. *)
Definition raw_point (movieId source : string) (s : Q) : ScoredPoint :=
  mkScoredPoint (NumericPointId 1) (Some s)
    (Some [("movieId", VString movieId); ("source", VString source)]).

Definition three_for_alien : list ScoredPoint :=
  [ raw_point "507f1f77bcf86cd799439011" "title" (9#10);
    raw_point "507f1f77bcf86cd7994390ff" "title" (99#100);
    raw_point "507f1f77bcf86cd799439011" "plot" (7#10);
    raw_point "507f1f77bcf86cd799439012" "plot" (4#5);
    raw_point "507f1f77bcf86cd799439011" "genre" (95#100) ].

Definition alien_deployment : Deployment :=
  qdrant_deployment (Return (mkCollectionInfo (Some 5))) (Return (PointArray three_for_alien)).

(** One raw match for each of two stored movies, the lower score first. *)
Definition two_movies : list ScoredPoint :=
  [ raw_point "507f1f77bcf86cd799439012" "plot" (4#5);
    raw_point "507f1f77bcf86cd799439011" "genre" (95#100) ].

Definition two_movies_deployment : Deployment :=
  qdrant_deployment (Return (mkCollectionInfo (Some 2))) (Return (PointArray two_movies)).



Definition as_match (p : ScoredPoint) : VectorMatch :=
  mkVectorMatch "1" (nullish (sp_score p) 0%Q) (nullish (sp_payload p) []).

(** The numeric id of a composite key, as a number; [stringToNumericId]
    never throws, so the second case does not arise. *)
Definition numeric_id_of (key : string) : Z :=
  match stringToNumericId key with
  | Return n => n
  | Throw _ => 0
  end.

(** The points the Qdrant branch writes for a movie. *)
Definition qdrant_points (movieId : string) (embeddings : EmbeddingRecord)
  : list QdrantPoint :=
  map (fun entry : string * list Q =>
         mkQdrantPoint (numeric_id_of (composite_key movieId (fst entry))) (snd entry)
           [ ("movieId", VString movieId);
             ("source", VString (fst entry));
             ("originalId", VString (composite_key movieId (fst entry))) ])
      embeddings.

(** The names an object built by assignment can hold as keys of its
    own: every name but [__proto__]. *)
Definition assignable (entry : string * list Q) : bool :=
  negb (String.eqb (fst entry) "__proto__").

(** The log line after a successful write. *)
Definition upserted_message {A} (written : list A) (movieId backend : string) : string :=
  ("Upserted " ++ count_string written ++ " embeddings for movie "
   ++ movieId ++ " to " ++ backend)%string.

(** No colon occurs in a string. *)
Definition colon_free (s : string) : bool :=
  forallb (fun c => negb (Ascii.eqb c ":"%char)) (list_ascii_of_string s).

(** The warning logged for a raw match whose movie is not loaded. *)
Definition not_found_warning (m : VectorMatch) : Event :=
  Log warn ("Movie not found for ID: " ++ payload_movieId m)%string.

(** The store request of a bulk lookup: none when no identifier is valid. *)
Definition lookup_request {bson : Bson} (ids : list string) : list Event :=
  match filter ObjectId_isValid ids with
  | [] => []
  | objectIds => [DbFindIn objectIds]
  end.

(** What a single lookup contributes to a bulk lookup: the movie found,
    if the lookup resolves to one. *)
Definition single_lookup {bson : Bson} (w : World) (id : string) : list MovieDocument :=
  match fst (getMovieById id w) with
  | Return (Some m) => [m]
  | _ => []
  end.

(** The documents [getAllMovies] puts on a page (none if it rejects). *)
Definition page_movies (page limit : Z) (sortBy : string) (sortOrder : SortOrder)
    (w : World) : list MovieDocument :=
  match fst (getAllMovies page limit sortBy sortOrder w) with
  | Return result => movies result
  | Throw _ => []
  end.

(** The whole collection in the order a listing asks for. *)
Definition sorted_collection (sortBy : string) (sortOrder : SortOrder)
    (docs : list MovieDocument) : list MovieDocument :=
  Array_sort (fun a b => inject_Z match sortOrder with asc => 1 | desc => -1 end
                         * sign (compare_field sortBy a b))%Q
             docs.

(** An update that sets the title only. *)
Definition new_title : PartialMovie :=
  mkPartialMovie (Some "Brazil (1985)") None None None None None None None None None.

(** The payload handed to the re-embedding after an update. *)
Definition regeneration_payload (updated : MovieDocument) (payload : PartialMovie)
  : PartialMovie :=
  spread (mkPartialMovie (Some (title updated)) (Some (genres updated))
            None None None (plot updated) None None None (metadata updated))
         payload.

(* ===================================================================== *)
(** * Properties *)
(* ===================================================================== *)

(** ** The numeric identifier *)

(** The digest agrees with the published test vectors: the empty message,
    a one-block message and a message whose padding needs a second block. *)
Example digest_empty :
  SHA256.digest (utf8_bytes "")
  = [ 227; 176; 196; 66; 152; 252; 28; 20; 154; 251; 244; 200; 153; 111; 185; 36;
      39; 174; 65; 228; 100; 155; 147; 76; 164; 149; 153; 27; 120; 82; 184; 85 ].
Proof. vm_compute. reflexivity. Qed.

Example digest_abc :
  SHA256.digest (utf8_bytes "abc")
  = [ 186; 120; 22; 191; 143; 1; 207; 234; 65; 65; 64; 222; 93; 174; 34; 35;
      176; 3; 97; 163; 150; 23; 122; 156; 180; 16; 255; 97; 242; 0; 21; 173 ].
Proof. vm_compute. reflexivity. Qed.

Example digest_two_blocks :
  SHA256.digest (utf8_bytes "abcdbcdecdefdefgefghfghighijhijkijkljklmklmnlmnomnopnopq")
  = [ 36; 141; 106; 97; 210; 6; 56; 184; 229; 192; 38; 147; 12; 62; 96; 57;
      163; 60; 228; 89; 100; 255; 33; 103; 246; 236; 237; 212; 25; 219; 6; 193 ].
Proof. vm_compute. reflexivity. Qed.

Lemma word_bytes_are_bytes (w : Z) : Forall is_byte (SHA256.word_bytes w).
Proof.
  unfold SHA256.word_bytes, is_byte.
  repeat constructor; apply Z.mod_pos_bound; lia.
Qed.

Lemma state_bytes_are_bytes (s : SHA256.state) : Forall is_byte (SHA256.state_bytes s).
Proof.
  unfold SHA256.state_bytes.
  repeat (apply Forall_app; split); apply word_bytes_are_bytes.
Qed.

Lemma digest_bytes (msg : list Z) : Forall is_byte (SHA256.digest msg).
Proof. unfold SHA256.digest. apply state_bytes_are_bytes. Qed.

Lemma digest_length (msg : list Z) : List.length (SHA256.digest msg) = 32%nat.
Proof.
  unfold SHA256.digest, SHA256.state_bytes, SHA256.word_bytes.
  rewrite !length_app. reflexivity.
Qed.

(** A digest is a list of 32 bytes, so its first eight can be named. *)
Lemma digest_first8 (msg : list Z) :
  exists b0 b1 b2 b3 b4 b5 b6 b7 rest,
    SHA256.digest msg = b0 :: b1 :: b2 :: b3 :: b4 :: b5 :: b6 :: b7 :: rest
    /\ Forall is_byte [b0; b1; b2; b3; b4; b5; b6; b7].
Proof.
  pose proof (digest_bytes msg) as Hb.
  pose proof (digest_length msg) as Hl.
  destruct (SHA256.digest msg) as [|b0 [|b1 [|b2 [|b3 [|b4 [|b5 [|b6 [|b7 rest]]]]]]]];
    try discriminate Hl.
  exists b0, b1, b2, b3, b4, b5, b6, b7, rest. split; [reflexivity|].
  repeat match goal with
         | H : Forall _ (_ :: _) |- _ => inversion H; subst; clear H
         end.
  repeat (apply Forall_cons; [assumption|]). apply Forall_nil.
Qed.

Lemma be_value_8 (b0 b1 b2 b3 b4 b5 b6 b7 : Z) :
  SHA256.be_value [b0; b1; b2; b3; b4; b5; b6; b7] = uint64_be b0 b1 b2 b3 b4 b5 b6 b7.
Proof. unfold SHA256.be_value, uint64_be. simpl fold_left. ring. Qed.

Lemma uint64_be_range (b0 b1 b2 b3 b4 b5 b6 b7 : Z) :
  Forall is_byte [b0; b1; b2; b3; b4; b5; b6; b7] ->
  0 <= uint64_be b0 b1 b2 b3 b4 b5 b6 b7 < 2 ^ 64.
Proof.
  intros H.
  repeat match goal with
         | H : Forall _ (_ :: _) |- _ => inversion H; subst; clear H
         end.
  unfold is_byte, uint64_be in *. lia.
Qed.

Lemma Number_of_BigInt_safe (b : Z) :
  Z.abs b < 2 ^ 53 -> Number_of_BigInt b = b.
Proof.
  intros H. unfold Number_of_BigInt.
  destruct (Z.ltb_spec (Z.abs b) (2 ^ 53)); [reflexivity | lia].
Qed.

(** [Number(b)] rounds only from 2^53 on, to the nearest double. *)
Example Number_of_BigInt_rounds :
  Number_of_BigInt (2 ^ 53 - 1) = 2 ^ 53 - 1
  /\ Number_of_BigInt (2 ^ 53 + 1) = 2 ^ 53
  /\ Number_of_BigInt (2 ^ 53 + 3) = 2 ^ 53 + 4
  /\ Number_of_BigInt (2 ^ 64 - 1) = 2 ^ 64.
Proof. repeat split. Qed.

(** C1. [stringToNumericId] never throws and is the function of the
    specification: the SHA-256 digest of the key, its first 8 bytes read
    as an unsigned 64-bit big-endian integer, reduced modulo
    [Number.MAX_SAFE_INTEGER]. Hence equal keys give equal ids, and the id
    is a non-negative integer strictly below [Number.MAX_SAFE_INTEGER]. *)
Theorem stringToNumericId_spec :
  forall str : string,
  exists numericId : Z,
    stringToNumericId str = Return numericId
    /\ spec_numeric_id str = Some numericId
    /\ (forall str' : string, str' = str -> stringToNumericId str' = Return numericId)
    /\ 0 <= numericId < MAX_SAFE_INTEGER.
Proof.
  intros str.
  destruct (digest_first8 (utf8_bytes str))
    as (b0 & b1 & b2 & b3 & b4 & b5 & b6 & b7 & rest & Hd & Hb).
  pose proof (uint64_be_range _ _ _ _ _ _ _ _ Hb) as Hr.
  assert (Hm : 0 <= uint64_be b0 b1 b2 b3 b4 b5 b6 b7 mod MAX_SAFE_INTEGER < MAX_SAFE_INTEGER)
    by (apply Z.mod_pos_bound; reflexivity).
  assert (Hrun : stringToNumericId str
                 = Return (uint64_be b0 b1 b2 b3 b4 b5 b6 b7 mod MAX_SAFE_INTEGER)).
  { unfold stringToNumericId, readBigUInt64BE. rewrite Hd.
    change (skipn 0 (b0 :: b1 :: b2 :: b3 :: b4 :: b5 :: b6 :: b7 :: rest))
      with (b0 :: b1 :: b2 :: b3 :: b4 :: b5 :: b6 :: b7 :: rest).
    change (firstn 8 (b0 :: b1 :: b2 :: b3 :: b4 :: b5 :: b6 :: b7 :: rest))
      with [b0; b1; b2; b3; b4; b5; b6; b7].
    rewrite be_value_8.
    replace ((0 + 8 <=? List.length (b0 :: b1 :: b2 :: b3 :: b4 :: b5 :: b6 :: b7 :: rest))%nat)
      with true by (symmetry; apply Nat.leb_le; simpl; lia).
    rewrite Number_of_BigInt_safe; [reflexivity|].
    unfold MAX_SAFE_INTEGER in *. lia. }
  exists (uint64_be b0 b1 b2 b3 b4 b5 b6 b7 mod MAX_SAFE_INTEGER).
  split; [exact Hrun|]. split.
  - unfold spec_numeric_id. rewrite Hd. reflexivity.
  - split; [intros str' ->; exact Hrun | exact Hm].
Qed.

Example stringToNumericId_abc : stringToNumericId "abc" = Return 6780411434882493.
Proof. vm_compute. reflexivity. Qed.

(** ** Identifier validation in the movie service *)

(** C9. For an identifier that is not a valid ObjectId, [getMovieById] and
    [updateMovie] resolve to [null] and [deleteMovie] to [false]; nothing
    is thrown, and the world (collection and trace of store requests) is
    left as it was. *)
Theorem invalid_id_is_not_found :
  forall (bson : Bson) (id : string) (payload : PartialMovie) (w : World),
    ObjectId_isValid id = false ->
    getMovieById id w = (Return None, w)
    /\ updateMovie id payload w = (Return None, w)
    /\ deleteMovie id w = (Return false, w).
Proof.
  intros bson id payload w Hid.
  unfold getMovieById, updateMovie, deleteMovie.
  rewrite Hid. repeat split.
Qed.

Lemma invalid_id_is_not_found_witness :
  @ObjectId_isValid hex24 "not-an-id" = false
  /\ @getMovieById hex24 "not-an-id" sample_world = (Return None, sample_world).
Proof.
  split; [reflexivity|].
  apply (invalid_id_is_not_found hex24 "not-an-id"
           (mkPartialMovie None None None None None None None None None None) sample_world).
  reflexivity.
Defined.

(** Without the guard the store itself rejects such an identifier. *)
Example findById_rejects_invalid :
  fst (@MovieModel_findById hex24 "not-an-id" sample_world) = Throw CastError.
Proof. reflexivity. Qed.

Example getMovieById_found :
  fst (@getMovieById hex24 "507f1f77bcf86cd799439012" sample_world) = Return (Some brazil).
Proof. reflexivity. Qed.

(** ** The search adapter *)

Ltac run_M :=
  cbv beta iota zeta delta [bind try_catch call logger emit lift ret throw];
  cbn [collection trace].

Lemma world_trace_app (docs : list MovieDocument) (t : list Event) (e1 e2 : list Event) :
  mkWorld docs ((t ++ e1) ++ e2) = mkWorld docs (t ++ e1 ++ e2).
Proof. rewrite <- app_assoc. reflexivity. Qed.

(** C4. On the Qdrant backend, when the collection-info call fails (the
    collection does not exist) or reports [points_count] 0, [semanticSearch]
    resolves to the empty list: nothing is thrown and no search query is
    issued. *)
Theorem qdrant_missing_or_empty_collection :
  forall (deployment : Deployment) (embedding : list Q) (limit : Z) (w : World),
    isQdrant getVectorClient = true ->
    (forall info, getCollection_outcome getVectorClient <> Some (Return info))
    \/ (exists info, getCollection_outcome getVectorClient = Some (Return info)
                     /\ points_count info = Some 0) ->
    exists evs : list Event,
      semanticSearch embedding limit w
      = (Return [], mkWorld (collection w) (trace w ++ evs))
      /\ forallb (fun ev => negb (is_query_event ev)) evs = true.
Proof.
  intros deployment embedding limit w Hq Hcase.
  unfold semanticSearch. rewrite Hq.
  unfold search_Qdrant, qdrant_precheck.
  unfold getCollection_outcome in Hcase.
  destruct (client_getCollection getVectorClient) as [getCollection|]; cbn [option_map] in *.
  - destruct (getCollection (VECTOR_COLLECTION env)) as [info|e] eqn:Hinfo.
    + destruct Hcase as [Hfail | (info' & Heq & Hzero)].
      * exfalso. apply (Hfail info). reflexivity.
      * injection Heq as <-.
        run_M. rewrite Hzero. cbn [collection trace].
        eexists. split; [rewrite world_trace_app; reflexivity | reflexivity].
    + run_M.
      eexists. split; [rewrite world_trace_app; reflexivity | reflexivity].
  - run_M. eexists. split; [reflexivity | reflexivity].
Qed.

Lemma qdrant_missing_or_empty_collection_witness :
  exists evs : list Event,
    @semanticSearch
      (qdrant_deployment (Return (mkCollectionInfo (Some 0))) (Return (PointArray [])))
      [1#2; 1#3] 10 sample_world
    = (Return [], mkWorld (collection sample_world) (trace sample_world ++ evs))
    /\ forallb (fun ev => negb (is_query_event ev)) evs = true.
Proof.
  apply (qdrant_missing_or_empty_collection
           (qdrant_deployment (Return (mkCollectionInfo (Some 0))) (Return (PointArray [])))).
  - reflexivity.
  - right. exists (mkCollectionInfo (Some 0)). split; reflexivity.
Defined.

Example search_missing_collection :
  @semanticSearch
    (qdrant_deployment (Throw (mkError "Not found: Collection `movies` doesn't exist!"))
                       (Return (PointArray [])))
    [1#2; 1#3] 10 sample_world
  = (Return [],
     mkWorld [alien; brazil; casablanca]
       [ QdrantGetCollection "movies";
         Log warn "Vector collection 'movies' does not exist. Returning empty results." ]).
Proof. reflexivity. Qed.

(** The Qdrant branch never rejects: every failure inside it is caught. *)
Lemma search_Qdrant_resolves :
  forall (deployment : Deployment) (client : Client) (embedding : list Q) (limit : Z)
         (w : World),
  exists (result : list VectorMatch) (w' : World),
    search_Qdrant client embedding limit w = (Return result, w').
Proof.
  intros. unfold search_Qdrant.
  unfold try_catch at 1.
  match goal with
  | |- context [let (_, _) := ?m w in _] => destruct (m w) as [[r|e] w1]
  end.
  - eauto.
  - run_M. eauto.
Qed.

(** A failing search call on Qdrant is logged and answered by the empty list. *)
Lemma search_Qdrant_swallows_query_failure :
  forall (deployment : Deployment) (client : Client) (embedding : list Q) (limit : Z)
         (w : World) (info : CollectionInfo) (search : SearchMethod) (e : Error),
    getCollection_outcome client = Some (Return info) ->
    points_count info <> Some 0 ->
    client_search client = Some search ->
    search (VECTOR_COLLECTION env) embedding limit = Throw e ->
    search_Qdrant client embedding limit w
    = (Return [],
       mkWorld (collection w)
         (trace w ++ [ QdrantGetCollection (VECTOR_COLLECTION env);
                       QdrantSearch (VECTOR_COLLECTION env) embedding limit;
                       Log error "Qdrant search error";
                       Log warn "Returning empty results due to search error" ])).
Proof.
  intros deployment client embedding limit w info search e Hinfo Hcount Hsearch Hfail.
  unfold search_Qdrant, qdrant_precheck.
  unfold getCollection_outcome in Hinfo.
  rewrite Hsearch.
  destruct (client_getCollection client) as [getCollection|]; [|discriminate].
  cbn [option_map] in *. injection Hinfo as Hinfo.
  run_M. rewrite Hinfo, Hfail.
  destruct (points_count info) as [[| |]|]; try (exfalso; apply Hcount; reflexivity);
    cbn [collection trace]; rewrite !world_trace_app; reflexivity.
Qed.

(** The Pinecone and Chroma branches have no handler: the failure of the
    query is the failure of the search. *)
Lemma search_Pinecone_propagates :
  forall (deployment : Deployment) (embedding : list Q) (limit : Z) (w : World)
         (index_method : IndexMethod) (e : Error),
    isQdrant getVectorClient = false ->
    client_index getVectorClient = Some index_method ->
    index_query (index_method (or_opt_string (PINECONE_INDEX env) (VECTOR_COLLECTION env)))
                embedding limit = Throw e ->
    semanticSearch embedding limit w
    = (Throw e,
       mkWorld (collection w)
         (trace w ++ [PineconeQuery (or_opt_string (PINECONE_INDEX env) (VECTOR_COLLECTION env))
                                    embedding limit])).
Proof.
  intros deployment embedding limit w index_method e Hq Hindex Hfail.
  unfold semanticSearch, isPinecone. rewrite Hq, Hindex. cbn [defined].
  rewrite orb_true_r. unfold search_Pinecone. rewrite Hindex. run_M. rewrite Hfail. reflexivity.
Qed.

Lemma search_Chroma_propagates :
  forall (deployment : Deployment) (embedding : list Q) (limit : Z) (w : World) (e : Error),
    isQdrant getVectorClient = false ->
    isPinecone getVectorClient = false ->
    isChroma getVectorClient = true ->
    axios_post (chroma_url getVectorClient "query") (QueryBody [embedding] limit) = Throw e ->
    semanticSearch embedding limit w
    = (Throw e,
       mkWorld (collection w)
         (trace w ++ [AxiosPost (chroma_url getVectorClient "query")
                                (QueryBody [embedding] limit)])).
Proof.
  intros deployment embedding limit w e Hq Hp Hc Hfail.
  unfold semanticSearch. rewrite Hq, Hp, Hc.
  unfold search_Chroma. run_M. rewrite Hfail. reflexivity.
Qed.

(** C3. Contrary to the claim, on the Pinecone and Chroma backends a query
    that fails makes [semanticSearch] reject with that failure, after the
    query was issued and with nothing logged. *)
Theorem search_failure_propagates_outside_Qdrant :
  (@isPinecone (@getVectorClient (pinecone_deployment (Throw (mkError "PineconeConnectionError"))))
   = true
   /\ @semanticSearch (pinecone_deployment (Throw (mkError "PineconeConnectionError")))
        [1#2; 1#3] 10 sample_world
      = (Throw (mkError "PineconeConnectionError"),
         mkWorld [alien; brazil; casablanca] [PineconeQuery "movies" [1#2; 1#3] 10]))
  /\ (@isChroma (@getVectorClient (chroma_deployment (Throw (mkError "ECONNREFUSED")))) = true
      /\ @semanticSearch (chroma_deployment (Throw (mkError "ECONNREFUSED")))
           [1#2; 1#3] 10 sample_world
         = (Throw (mkError "ECONNREFUSED"),
            mkWorld [alien; brazil; casablanca]
              [AxiosPost "http://localhost:8000/collections/movies/query"
                         (QueryBody [[1#2; 1#3]] 10)])).
Proof. repeat split. Qed.

(** ** The upsert adapter *)

(** C5, as stated, fails: with an empty mapping a client of no known shape
    gets the empty-mapping error, not the unsupported-provider error. *)
Lemma upsert_empty_on_unsupported_client :
  @isQdrant plain_object = false
  /\ @isPinecone plain_object = false
  /\ @isChroma plain_object = false
  /\ @upsertMovieEmbeddings unsupported_deployment "507f1f77bcf86cd799439011" [] sample_world
     = (Throw no_embeddings_error, sample_world)
  /\ no_embeddings_error <> unsupported_provider.
Proof. repeat split. discriminate. Qed.

(** C5 (amended). [upsertMovieEmbeddings] rejects with the empty-mapping
    error whenever the mapping is empty, for any client and before
    anything is written; with a non-empty mapping it rejects with the
    unsupported-provider error for every client of none of the three
    shapes, again leaving the world untouched. *)
Theorem upsert_rejections :
  forall (deployment : Deployment) (movieId : string) (embeddings : EmbeddingRecord)
         (w : World),
    (embeddings = [] ->
     upsertMovieEmbeddings movieId embeddings w = (Throw no_embeddings_error, w))
    /\ (embeddings <> [] ->
        isQdrant getVectorClient = false ->
        isPinecone getVectorClient = false ->
        isChroma getVectorClient = false ->
        upsertMovieEmbeddings movieId embeddings w = (Throw unsupported_provider, w)).
Proof.
  intros deployment movieId embeddings w. split.
  - intros ->. reflexivity.
  - intros Hne Hq Hp Hc. unfold upsertMovieEmbeddings.
    rewrite Hq, Hp, Hc.
    destruct embeddings as [|entry rest]; [contradiction|]. reflexivity.
Qed.

Lemma upsert_rejections_witness :
  @upsertMovieEmbeddings unsupported_deployment "507f1f77bcf86cd799439011"
     [("title", [1#2; 1#3])] sample_world
  = (Throw unsupported_provider, sample_world).
Proof.
  apply (upsert_rejections unsupported_deployment "507f1f77bcf86cd799439011"
           [("title", [1#2; 1#3])] sample_world).
  - discriminate.
  - reflexivity.
  - reflexivity.
  - reflexivity.
Defined.

(** ** Backend classification *)

Lemma instance_has_search (client : Client) :
  instanceof_QdrantClient client = true -> defined (client_search client) = true.
Proof.
  unfold instanceof_QdrantClient, client_search, inherited.
  destruct (prototype client); try discriminate.
  destruct (own_search client); reflexivity.
Qed.

Lemma instance_has_index (client : Client) :
  instanceof_Pinecone client = true -> defined (client_index client) = true.
Proof.
  unfold instanceof_Pinecone, client_index, inherited.
  destruct (prototype client); try discriminate.
  destruct (own_index client); reflexivity.
Qed.

Lemma isQdrant_search (client : Client) :
  isQdrant client = defined (client_search client).
Proof.
  unfold isQdrant.
  destruct (instanceof_QdrantClient client) eqn:Hi; [|reflexivity].
  rewrite (instance_has_search client Hi). reflexivity.
Qed.

Lemma isPinecone_index (client : Client) :
  isPinecone client = defined (client_index client).
Proof.
  unfold isPinecone.
  destruct (instanceof_Pinecone client) eqn:Hi; [|reflexivity].
  rewrite (instance_has_index client Hi). reflexivity.
Qed.

(** C10. Classification goes by precedence. Each shape test comes down to
    whether one property ([search], [index], [baseUrl]) is defined; a
    client with [search] defined takes the Qdrant branch of both
    operations whatever else it has, and a client with [index] defined and
    no [search] takes the Pinecone branch even with [baseUrl] defined. *)
Theorem classification_by_precedence :
  forall (deployment : Deployment),
    (isQdrant getVectorClient = defined (client_search getVectorClient)
     /\ isPinecone getVectorClient = defined (client_index getVectorClient)
     /\ isChroma getVectorClient = defined (client_baseUrl getVectorClient))
    /\ (defined (client_search getVectorClient) = true ->
        forall (movieId : string) (embeddings : EmbeddingRecord)
               (embedding : list Q) (limit : Z),
          semanticSearch embedding limit = search_Qdrant getVectorClient embedding limit
          /\ (embeddings <> [] ->
              upsertMovieEmbeddings movieId embeddings
              = upsert_Qdrant getVectorClient movieId embeddings))
    /\ (defined (client_search getVectorClient) = false ->
        defined (client_index getVectorClient) = true ->
        forall (movieId : string) (embeddings : EmbeddingRecord)
               (embedding : list Q) (limit : Z),
          semanticSearch embedding limit = search_Pinecone getVectorClient embedding limit
          /\ (embeddings <> [] ->
              upsertMovieEmbeddings movieId embeddings
              = upsert_Pinecone getVectorClient movieId embeddings)).
Proof.
  intros deployment.
  split; [|split].
  - split; [apply isQdrant_search | split; [apply isPinecone_index | reflexivity]].
  - intros Hs movieId embeddings embedding limit.
    unfold semanticSearch, upsertMovieEmbeddings.
    rewrite isQdrant_search, Hs. split; [reflexivity|].
    intros Hne. destruct embeddings; [contradiction | reflexivity].
  - intros Hs Hi movieId embeddings embedding limit.
    unfold semanticSearch, upsertMovieEmbeddings.
    rewrite isQdrant_search, Hs, isPinecone_index, Hi. split; [reflexivity|].
    intros Hne. destruct embeddings; [contradiction | reflexivity].
Qed.

Lemma classification_by_precedence_witness :
  (@semanticSearch ambiguous_deployment [1#2] 10
   = @search_Qdrant ambiguous_deployment ambiguous_client [1#2] 10)
  /\ (@semanticSearch index_and_baseUrl_deployment [1#2] 10
      = @search_Pinecone index_and_baseUrl_deployment index_and_baseUrl_client [1#2] 10).
Proof.
  split.
  - apply (proj1 (proj2 (classification_by_precedence ambiguous_deployment))
             eq_refl "507f1f77bcf86cd799439011" [("title", [1#2])] [1#2] 10).
  - apply (proj2 (proj2 (classification_by_precedence index_and_baseUrl_deployment))
             eq_refl eq_refl "507f1f77bcf86cd799439011" [("title", [1#2])] [1#2] 10).
Defined.

Example ambiguous_client_is_searched_as_Qdrant :
  @semanticSearch ambiguous_deployment [1#2] 10 sample_world
  = (Return [],
     mkWorld [alien; brazil; casablanca]
       [QdrantGetCollection "movies"; QdrantSearch "movies" [1#2] 10]).
Proof. reflexivity. Qed.

(** ** Score normalisation on Chroma *)

Lemma or_zero_reported (d : Q) : (or_zero (Some d) == d)%Q.
Proof.
  unfold or_zero. destruct (Qeq_bool d 0) eqn:Hz.
  - apply Qeq_bool_iff in Hz. symmetry. exact Hz.
  - reflexivity.
Qed.

Lemma nth_error_indexed {A} (xs : list A) :
  forall (start idx : nat) (x : A),
    nth_error xs idx = Some x ->
    nth_error (combine (seq start (List.length xs)) xs) idx = Some ((start + idx)%nat, x).
Proof.
  induction xs as [|y ys IH]; intros start idx x Hx.
  - destruct idx; discriminate.
  - destruct idx as [|idx]; cbn in *.
    + injection Hx as ->. rewrite Nat.add_0_r. reflexivity.
    + rewrite (IH (S start) idx x Hx). f_equal. f_equal. lia.
Qed.

Lemma chroma_matches_length (results : ChromaResults) (ids : list string)
    (others : list (list string)) :
  chroma_ids results = Some (ids :: others) ->
  List.length (chroma_matches results) = List.length ids.
Proof.
  intros Hids. unfold chroma_matches. rewrite Hids.
  rewrite length_map, length_combine, length_seq. apply Nat.min_id.
Qed.

(** *** Subtraction of doubles *)

Lemma Number_of_Q_equal (q q' : Q) : (q == q')%Q -> Number_of_Q q = Number_of_Q q'.
Proof. intros H. unfold Number_of_Q. rewrite (Qred_complete q q' H). reflexivity. Qed.

Lemma Number_sub_equal (a b b' : Q) : (b == b')%Q -> Number_sub a b = Number_sub a b'.
Proof. intros H. unfold Number_sub. apply Number_of_Q_equal. rewrite H. reflexivity. Qed.

Lemma round_half_even_error (x : Q) :
  (Qabs (inject_Z (round_half_even x) - x) <= 1 # 2)%Q.
Proof.
  unfold round_half_even.
  pose proof (Qfloor_le x) as Hlo. pose proof (Qlt_floor x) as Hhi.
  assert (Hnext : (inject_Z (Qfloor x + 1) == inject_Z (Qfloor x) + 1)%Q)
    by (rewrite inject_Z_plus; reflexivity).
  rewrite Hnext in Hhi.
  apply Qabs_Qle_condition.
  destruct (Qcompare_spec (x - inject_Z (Qfloor x)) (1 # 2)) as [Heq|Hlt|Hgt].
  - destruct (Z.even (Qfloor x)); [|rewrite Hnext]; split; lra.
  - split; lra.
  - rewrite Hnext. split; lra.
Qed.

Lemma pow2_pos (e : Z) : (0 < pow2 e)%Q.
Proof.
  unfold pow2. destruct (0 <=? e) eqn:He.
  - apply Z.leb_le in He. unfold Qlt. cbn. rewrite Z.mul_1_r.
    apply Z.pow_pos_nonneg; lia.
  - reflexivity.
Qed.

Lemma pow2_le_negative (e : Z) : e <= -52 -> (pow2 e <= 1 # 4503599627370496)%Q.
Proof.
  intros He. unfold pow2. destruct (0 <=? e) eqn:Hs; [apply Z.leb_le in Hs; lia|].
  unfold Qle. cbn [Qnum Qden]. rewrite !Z.mul_1_l.
  assert (Hp : 2 ^ 52 <= 2 ^ (- e)) by (apply Z.pow_le_mono_r; lia).
  rewrite Z2Pos.id by lia. exact Hp.
Qed.

Lemma binade_small (q : Q) : (Qabs q <= 1)%Q -> binade q <= 0.
Proof.
  intros Hq. unfold binade.
  assert (Hnum : Z.abs (Qnum q) <= Zpos (Qden q)).
  { destruct q as [n d]. unfold Qle in Hq. cbn in Hq. cbn. lia. }
  pose proof (Z.log2_le_mono _ _ Hnum) as Hlog.
  destruct (Qle_bool _ _); lia.
Qed.

(** Up to magnitude 1 a double is within 2^-53 of what it rounds. *)
Lemma nearest_double_error (q : Q) :
  (Qabs q <= 1)%Q -> (Qabs (nearest_double q - q) <= 1 # 9007199254740992)%Q.
Proof.
  intros Hq. unfold nearest_double.
  destruct (Qeq_bool q 0) eqn:Hz.
  - apply Qeq_bool_iff in Hz. rewrite Hz. cbn. discriminate.
  - set (e := Z.max (binade q - 52) (-1074)).
    assert (He : e <= -52) by (pose proof (binade_small q Hq); unfold e; lia).
    pose proof (pow2_pos e) as Hpos.
    pose proof (pow2_le_negative e He) as Hle.
    pose proof (round_half_even_error (q / pow2 e)) as Herr.
    rewrite Qred_correct.
    set (n := inject_Z (round_half_even (q / pow2 e))) in *.
    assert (Hq' : (q == (q / pow2 e) * pow2 e)%Q) by (field; lra).
    apply Qabs_Qle_condition in Herr. destruct Herr as [Hl Hu].
    apply Qabs_Qle_condition.
    set (x := (q / pow2 e)%Q) in *.
    assert (H1 : (n * pow2 e - q == (n - x) * pow2 e)%Q) by (rewrite Hq' at 1; ring).
    rewrite H1. split; nra.
Qed.

Lemma Number_sub_error (d : Q) :
  (0 <= d)%Q -> (d <= 2)%Q ->
  (Qabs (Number_sub 1 d - (1 - d)) <= 1 # 9007199254740992)%Q.
Proof.
  intros Hlo Hhi. unfold Number_sub, Number_of_Q.
  assert (Hred : (Qred (1 - d) == 1 - d)%Q) by apply Qred_correct.
  rewrite <- Hred at 2. apply nearest_double_error.
  rewrite Hred. apply Qabs_Qle_condition. split; lra.
Qed.

(** The subtraction rounds: [1 - 2^-60] is 1, and [1 - 0.1] is the
    double written 0.9. *)
Example Number_sub_rounds :
  Number_sub 1 (1 # 1152921504606846976) = 1%Q
  /\ Number_sub 1 (3602879701896397 # 36028797018963968)
     = (8106479329266893 # 9007199254740992)%Q
  /\ Number_of_Q (9 # 10) = (8106479329266893 # 9007199254740992)%Q
  /\ Number_of_Q (1 # 10) = (3602879701896397 # 36028797018963968)%Q.
Proof. repeat split; vm_compute; reflexivity. Qed.

Lemma chroma_matches_score (results : ChromaResults) (ids : list string)
    (others : list (list string)) (ds : list (option Q)) (others_d : list (list (option Q)))
    (idx : nat) (d : Q) :
  chroma_ids results = Some (ids :: others) ->
  chroma_distances results = Some (ds :: others_d) ->
  (idx < List.length ids)%nat ->
  nth_error ds idx = Some (Some d) ->
  exists m, nth_error (chroma_matches results) idx = Some m /\ score m = Number_sub 1 d.
Proof.
  intros Hids Hds Hidx Hd.
  destruct (nth_error ids idx) as [id|] eqn:Hid;
    [|apply nth_error_None in Hid; lia].
  unfold chroma_matches. rewrite Hids, Hds. cbn [first_or_empty].
  rewrite nth_error_map, (nth_error_indexed ids 0 idx id Hid).
  cbn [option_map Nat.add]. eexists. split; [reflexivity|].
  cbn [score]. unfold Array_at. rewrite Hd. cbn [nullish].
  apply Number_sub_equal, or_zero_reported.
Qed.

(** C6. On Chroma, [semanticSearch] turns every reported distance [d] into
    the score [1 - d], the subtraction being that of the numbers of the
    language (doubles): the match at each position carries the double
    nearest to the difference, which for a distance between 0 and 2 is
    within 2^-53 of it; in particular distance 0 gives score 1 and
    distance 1 gives score 0. *)
Theorem chroma_distance_to_similarity :
  forall (deployment : Deployment) (embedding : list Q) (limit : Z) (w : World)
         (results : ChromaResults) (ids : list string) (others : list (list string))
         (ds : list (option Q)) (others_d : list (list (option Q))),
    isQdrant getVectorClient = false ->
    isPinecone getVectorClient = false ->
    isChroma getVectorClient = true ->
    axios_post (chroma_url getVectorClient "query") (QueryBody [embedding] limit)
    = Return (mkAxiosResponse (Some results)) ->
    chroma_ids results = Some (ids :: others) ->
    chroma_distances results = Some (ds :: others_d) ->
    exists (found : list VectorMatch) (w' : World),
      semanticSearch embedding limit w = (Return found, w')
      /\ List.length found = List.length ids
      /\ forall (idx : nat) (d : Q),
           (idx < List.length ids)%nat ->
           nth_error ds idx = Some (Some d) ->
           exists m : VectorMatch,
             nth_error found idx = Some m
             /\ score m = Number_sub 1 d
             /\ ((0 <= d)%Q -> (d <= 2)%Q ->
                 (Qabs (score m - (1 - d)) <= 1 # 9007199254740992)%Q)
             /\ ((d == 0)%Q -> score m = 1%Q)
             /\ ((d == 1)%Q -> score m = 0%Q).
Proof.
  intros deployment embedding limit w results ids others ds others_d
         Hq Hp Hc Hpost Hids Hds.
  unfold semanticSearch. rewrite Hq, Hp, Hc.
  unfold search_Chroma. run_M. rewrite Hpost. cbn [data].
  eexists. eexists. split; [reflexivity|]. split.
  - apply (chroma_matches_length results ids others Hids).
  - intros idx d Hidx Hd.
    destruct (chroma_matches_score results ids others ds others_d idx d Hids Hds Hidx Hd)
      as (m & Hm & Hscore).
    exists m. split; [exact Hm|]. split; [exact Hscore|]. split; [|split].
    + intros Hlo Hhi. rewrite Hscore. apply Number_sub_error; assumption.
    + intros Hzero. rewrite Hscore, (Number_sub_equal 1 d 0 Hzero). reflexivity.
    + intros Hone. rewrite Hscore, (Number_sub_equal 1 d 1 Hone). reflexivity.
Qed.

Lemma chroma_distance_to_similarity_witness :
  exists (found : list VectorMatch) (w' : World),
    @semanticSearch (chroma_deployment (Return (mkAxiosResponse (Some two_hits))))
       [1#2; 1#3] 10 sample_world = (Return found, w')
    /\ List.length found = 2%nat
    /\ forall (idx : nat) (d : Q),
         (idx < 2)%nat ->
         nth_error [Some 0%Q; Some 1%Q] idx = Some (Some d) ->
         exists m : VectorMatch,
           nth_error found idx = Some m
           /\ score m = Number_sub 1 d
           /\ ((0 <= d)%Q -> (d <= 2)%Q ->
               (Qabs (score m - (1 - d)) <= 1 # 9007199254740992)%Q)
           /\ ((d == 0)%Q -> score m = 1%Q)
           /\ ((d == 1)%Q -> score m = 0%Q).
Proof.
  apply (chroma_distance_to_similarity
           (chroma_deployment (Return (mkAxiosResponse (Some two_hits))))
           [1#2; 1#3] 10 sample_world two_hits
           ["507f1f77bcf86cd799439011:title"; "507f1f77bcf86cd799439012:plot"] []
           [Some 0%Q; Some 1%Q] []);
    reflexivity.
Defined.

Example chroma_scores_of_two_hits :
  option_map (fun found => map score found)
    (match fst (@semanticSearch (chroma_deployment (Return (mkAxiosResponse (Some two_hits))))
                  [1#2; 1#3] 10 sample_world) with
     | Return found => Some found
     | Throw _ => None
     end)
  = Some [1%Q; 0%Q].
Proof. vm_compute. reflexivity. Qed.

(** A distance that is a tenth, as a double, gives the double written
    0.9, and a distance of 2^-60 gives 1. *)
Example chroma_scores_are_rounded :
  map score (chroma_matches
               (mkChromaResults (Some [["a"; "b"]])
                  (Some [[Some (3602879701896397 # 36028797018963968)%Q;
                          Some (1 # 1152921504606846976)%Q]])
                  None))
  = [(8106479329266893 # 9007199254740992)%Q; 1%Q].
Proof. vm_compute. reflexivity. Qed.

(** ** Maps in insertion order *)

Lemma Map_set_fresh {V} (m : Map V) (k : string) (v : V) :
  ~ In k (Map_keys m) -> Map_set m k v = m ++ [(k, v)].
Proof.
  induction m as [|[k' v'] m IH]; intros Hfresh; cbn in *.
  - reflexivity.
  - destruct (String.eqb_spec k' k) as [->|Hne].
    + exfalso. apply Hfresh. left. reflexivity.
    + rewrite IH; [reflexivity|]. intros Hin. apply Hfresh. right. exact Hin.
Qed.

Lemma Map_of_entries_distinct_from {V} (entries acc : list (string * V)) :
  NoDup (map fst (acc ++ entries)) ->
  fold_left (fun m kv => Map_set m (fst kv) (snd kv)) entries acc = acc ++ entries.
Proof.
  revert acc. induction entries as [|[k v] entries IH]; intros acc Hnd; cbn.
  - rewrite app_nil_r. reflexivity.
  - assert (Hfresh : ~ In k (Map_keys acc)).
    { unfold Map_keys. rewrite map_app in Hnd. cbn in Hnd.
      apply NoDup_remove_2 in Hnd. intros Hin. apply Hnd.
      apply in_or_app. left. exact Hin. }
    rewrite (Map_set_fresh acc k v Hfresh).
    rewrite IH; rewrite <- app_assoc; [reflexivity | exact Hnd].
Qed.

Lemma Map_of_entries_distinct {V} (entries : list (string * V)) :
  NoDup (map fst entries) -> Map_of_entries entries = entries.
Proof.
  intros Hnd. unfold Map_of_entries.
  apply (Map_of_entries_distinct_from entries [] Hnd).
Qed.

Lemma Map_get_keyed {A} (key : A -> string) (xs : list A) (k : string) :
  Map_get (map (fun x => (key x, x)) xs) k = find (fun x => String.eqb (key x) k) xs.
Proof.
  induction xs as [|x xs IH]; cbn; [reflexivity|].
  destruct (String.eqb (key x) k); [reflexivity | exact IH].
Qed.

(** ** Bulk lookup by identifier *)

Lemma distinct_ids_NoDup (docs : list MovieDocument) :
  distinct_ids docs = true -> NoDup (map _id docs).
Proof.
  induction docs as [|m docs IH]; cbn; intros H; [constructor|].
  apply andb_true_iff in H as [Hm Hrest].
  constructor; [|apply IH; exact Hrest].
  intros Hin. apply in_map_iff in Hin as (m' & Heq & Hin).
  apply negb_true_iff in Hm.
  assert (Hex : existsb (fun m' => String.eqb (_id m') (_id m)) docs = true).
  { apply existsb_exists. exists m'. split; [exact Hin|]. rewrite Heq. apply String.eqb_refl. }
  rewrite Hex in Hm. discriminate.
Qed.

Lemma NoDup_map_filter {A B} (f : A -> B) (p : A -> bool) (xs : list A) :
  NoDup (map f xs) -> NoDup (map f (filter p xs)).
Proof.
  induction xs as [|x xs IH]; cbn; intros H; [constructor|].
  inversion H as [|? ? Hnotin Hnd]; subst.
  destruct (p x); cbn; [|apply IH; exact Hnd].
  constructor; [|apply IH; exact Hnd].
  intros Hin. apply Hnotin.
  apply in_map_iff in Hin as (y & Hy & Hin). apply filter_In in Hin as [Hin _].
  apply in_map_iff. exists y. split; assumption.
Qed.

Lemma find_filter_implied {A} (p q : A -> bool) (xs : list A) :
  (forall x, In x xs -> p x = true -> q x = true) ->
  find p (filter q xs) = find p xs.
Proof.
  induction xs as [|x xs IH]; intros Himp; cbn; [reflexivity|].
  assert (IH' : find p (filter q xs) = find p xs).
  { apply IH. intros y Hy. apply Himp. right. exact Hy. }
  destruct (p x) eqn:Hp.
  - rewrite (Himp x (or_introl eq_refl) Hp). cbn. rewrite Hp. reflexivity.
  - destruct (q x); cbn; [rewrite Hp|]; exact IH'.
Qed.

Lemma filter_defined_flat_map {A B} (f : A -> option B) (xs : list A) :
  filter_defined (map f xs)
  = flat_map (fun x => match f x with Some y => [y] | None => [] end) xs.
Proof.
  induction xs as [|x xs IH]; cbn; [reflexivity|].
  destruct (f x); cbn; rewrite IH; reflexivity.
Qed.

Section BulkLookup.
Context {bson : Bson}.
Variable docs : list MovieDocument.
Hypothesis Hwf : well_formed_collection docs = true.

Lemma stored_id_canonical (m : MovieDocument) :
  In m docs -> ObjectId_isValid (_id m) = true /\ ObjectId_cast (_id m) = _id m.
Proof.
  intros Hin. unfold well_formed_collection in Hwf.
  apply andb_true_iff in Hwf as [Hcanon _].
  unfold canonical_ids in Hcanon. rewrite forallb_forall in Hcanon.
  specialize (Hcanon m Hin). apply andb_true_iff in Hcanon as [Hv Hc].
  split; [exact Hv | apply String.eqb_eq; exact Hc].
Qed.

(** What the map built from the query result holds for an identifier. *)
Lemma movieMap_get (objectIds : list string) (id : string) :
  (ObjectId_isValid id = true -> In id objectIds) ->
  Map_get
    (Map_of_entries
       (map (fun movie => (doc_id movie, movie))
            (filter (fun m => existsb (fun id' => has_id id' m) objectIds) docs)))
    id
  = record_of docs id.
Proof.
  intros Hmem.
  rewrite Map_of_entries_distinct.
  2:{ rewrite map_map. cbn [fst]. apply NoDup_map_filter.
      apply distinct_ids_NoDup. unfold well_formed_collection in Hwf.
      apply andb_true_iff in Hwf as [_ Hd]. exact Hd. }
  rewrite Map_get_keyed.
  rewrite find_filter_implied.
  - unfold record_of. destruct (ObjectId_isValid id) eqn:Hvalid; [reflexivity|].
    destruct (find (fun x => String.eqb (doc_id x) id) docs) as [m|] eqn:Hfind;
      [|reflexivity].
    apply find_some in Hfind as [Hin Heq]. apply String.eqb_eq in Heq.
    destruct (stored_id_canonical m Hin) as [Hv _].
    unfold doc_id in Heq. rewrite Heq in Hv. congruence.
  - intros m Hin Heq. apply String.eqb_eq in Heq. unfold doc_id in Heq.
    destruct (stored_id_canonical m Hin) as [Hv Hc].
    apply existsb_exists. exists id. split.
    + apply Hmem. rewrite <- Heq. exact Hv.
    + unfold has_id. rewrite <- Heq, Hc. apply String.eqb_refl.
Qed.

Lemma getMoviesByIds_run (ids : list string) (w : World) :
  collection w = docs ->
  exists w' : World,
    getMoviesByIds ids w = (Return (spec_getMoviesByIds docs ids), w')
    /\ collection w' = docs.
Proof.
  intros Hw. unfold getMoviesByIds, spec_getMoviesByIds.
  destruct (filter ObjectId_isValid ids) as [|id0 objectIds'] eqn:Hfilter.
  - cbn [List.length Nat.eqb]. exists w. split; [|exact Hw].
    unfold ret. f_equal. f_equal.
    assert (Hnone : forall id, In id ids -> record_of docs id = None).
    { intros id Hin. unfold record_of.
      destruct (ObjectId_isValid id) eqn:Hv; [|reflexivity].
      assert (Hin' : In id (filter ObjectId_isValid ids))
        by (apply filter_In; split; assumption).
      rewrite Hfilter in Hin'. destruct Hin'. }
    clear Hfilter. induction ids as [|id ids IH]; cbn; [reflexivity|].
    rewrite (Hnone id (or_introl eq_refl)). cbn. apply IH.
    intros id' Hin'. apply Hnone. right. exact Hin'.
  - cbn [List.length Nat.eqb]. rewrite <- Hfilter.
    unfold MovieModel_find_in, get_collection. run_M.
    assert (Hall : forallb ObjectId_isValid (filter ObjectId_isValid ids) = true).
    { apply forallb_forall. intros id Hin. apply filter_In in Hin as [_ Hv]. exact Hv. }
    rewrite Hall. cbn [collection trace]. rewrite Hw.
    eexists. split.
    + f_equal. f_equal.
      rewrite <- filter_defined_flat_map. f_equal.
      apply map_ext_in. intros id Hin.
      apply movieMap_get. intros Hv. apply filter_In. split; assumption.
    + reflexivity.
Qed.
End BulkLookup.

(** C7. The claim fails on the code for an identifier that is valid but
    not written as the store writes it. The upper-case spelling of a
    stored identifier passes the format test and is found by the store
    (the single lookup returns its record), so the claim has the bulk
    lookup return that record; [getMoviesByIds] returns nothing for it,
    because it looks the input string up among the [id] strings of the
    documents the store returned. *)
Theorem getMoviesByIds_omits_a_stored_record :
  @ObjectId_isValid hex24 "507F1F77BCF86CD799439011" = true
  /\ @getMovieById hex24 "507F1F77BCF86CD799439011" sample_world
     = (Return (Some alien),
        mkWorld [alien; brazil; casablanca] [DbFindById "507F1F77BCF86CD799439011"])
  /\ @claimed_getMoviesByIds hex24 (collection sample_world)
       ["507F1F77BCF86CD799439011"; "507f1f77bcf86cd799439012"]
     = [alien; brazil]
  /\ @getMoviesByIds hex24 ["507F1F77BCF86CD799439011"; "507f1f77bcf86cd799439012"]
       sample_world
     = (Return [brazil],
        mkWorld [alien; brazil; casablanca]
          [DbFindIn ["507F1F77BCF86CD799439011"; "507f1f77bcf86cd799439012"]]).
Proof. repeat split; reflexivity. Qed.

(** X26. What [getMoviesByIds] does return: it goes through the input
    list in order and keeps, for each string, the stored document whose
    [id] is exactly that string; a string of invalid format, or one that
    is the [id] of no document, contributes nothing, and nothing is
    thrown. The collection is left as it was. *)
Theorem getMoviesByIds_preserves_input_order :
  forall (bson : Bson) (ids : list string) (w : World),
    well_formed_collection (collection w) = true ->
    exists w' : World,
      getMoviesByIds ids w = (Return (spec_getMoviesByIds (collection w) ids), w')
      /\ collection w' = collection w
      /\ (forall before id after,
            ids = before ++ id :: after ->
            spec_getMoviesByIds (collection w) ids
            = spec_getMoviesByIds (collection w) before
              ++ match record_of (collection w) id with
                 | Some m => [m]
                 | None => []
                 end
              ++ spec_getMoviesByIds (collection w) after)
      /\ (forall id, ObjectId_isValid id = false -> record_of (collection w) id = None).
Proof.
  intros bson ids w Hwf.
  destruct (getMoviesByIds_run (collection w) Hwf ids w eq_refl) as (w' & Hrun & Hcoll).
  exists w'. split; [exact Hrun|]. split; [exact Hcoll|]. split.
  - intros before id after ->. unfold spec_getMoviesByIds.
    rewrite flat_map_app. reflexivity.
  - intros id Hv. unfold record_of. rewrite Hv. reflexivity.
Qed.

Lemma getMoviesByIds_preserves_input_order_witness :
  fst (@getMoviesByIds hex24
         [ "507f1f77bcf86cd799439013"; "not-an-id"; "507f1f77bcf86cd799439011";
           "507f1f77bcf86cd7994390ff"; "507f1f77bcf86cd799439013" ]
         sample_world)
  = Return [casablanca; alien; casablanca].
Proof.
  destruct (getMoviesByIds_preserves_input_order hex24
              [ "507f1f77bcf86cd799439013"; "not-an-id"; "507f1f77bcf86cd799439011";
                "507f1f77bcf86cd7994390ff"; "507f1f77bcf86cd799439013" ]
              sample_world eq_refl) as (w' & Hrun & _).
  rewrite Hrun. reflexivity.
Defined.

(** For identifiers written as the store writes them the two readings
    agree: the document with that [id] string is the document the
    identifier denotes. *)
Lemma record_of_denoted {bson : Bson} (docs : list MovieDocument) (id : string) :
  (ObjectId_isValid id = true -> ObjectId_cast id = id) ->
  record_of docs id = denoted_record docs id.
Proof.
  intros Hcanonical. unfold record_of, denoted_record.
  destruct (ObjectId_isValid id); [|reflexivity].
  unfold has_id, doc_id. rewrite (Hcanonical eq_refl). reflexivity.
Qed.

(** ** Pagination *)

Lemma sort_insert_length {A} (cmp : A -> A -> Q) (x : A) (l : list A) :
  List.length (sort_insert cmp x l) = S (List.length l).
Proof.
  induction l as [|y l IH]; cbn; [reflexivity|].
  destruct (Qle_bool (cmp x y) 0); cbn; [reflexivity | rewrite IH; reflexivity].
Qed.

Lemma Array_sort_length {A} (cmp : A -> A -> Q) (l : list A) :
  List.length (Array_sort cmp l) = List.length l.
Proof.
  induction l as [|x l IH]; cbn; [reflexivity|].
  rewrite sort_insert_length. unfold Array_sort in IH. rewrite IH. reflexivity.
Qed.

(** The ceiling of a quotient with a positive divisor is the least
    integer whose multiple of the divisor reaches the dividend. *)
Lemma Qceiling_div_pos (a b : Z) :
  0 < b ->
  (Qceiling (inject_Z a / inject_Z b) - 1) * b < a <= Qceiling (inject_Z a / inject_Z b) * b.
Proof.
  intros Hb. destruct b as [|p|p]; try lia.
  rewrite (Qceiling_comp _ (a # p)) by (symmetry; apply Qmake_Qdiv).
  unfold Qceiling, Qfloor, Qopp. cbn [Qnum Qden].
  pose proof (Z.div_mod (- a) (Z.pos p) ltac:(lia)) as Hdm.
  pose proof (Z.mod_pos_bound (- a) (Z.pos p) ltac:(lia)) as Hmod.
  nia.
Qed.

(** C8. Whenever the limit is not 0 and the skipped count [(page - 1) * limit]
    is not negative, in particular for every page from 1 on with a
    positive limit, [getAllMovies] resolves; [total] is the number of
    stored documents and [totalPages] is the ceiling of [total / limit]:
    the integer n with [n - 1 < total / limit <= n], which for a positive
    limit is the least n with [total <= n * limit]. The page holds [limit]
    documents, or what is left after the skipped ones; with 45 documents,
    page 1 and limit 20 that is 20 documents and 3 pages. *)
Theorem getAllMovies_totalPages :
  forall (page limit : Z) (sortBy : string) (sortOrder : SortOrder) (w : World),
    limit <> 0 ->
    0 <= (page - 1) * limit ->
    exists (result : MoviePage) (w' : World) (n : Z),
      getAllMovies page limit sortBy sortOrder w = (Return result, w')
      /\ total result = Z.of_nat (List.length (collection w))
      /\ totalPages result = Finite n
      /\ (inject_Z (n - 1) < inject_Z (total result) / inject_Z limit)%Q
      /\ (inject_Z (total result) / inject_Z limit <= inject_Z n)%Q
      /\ (0 < limit -> (n - 1) * limit < total result <= n * limit)
      /\ Z.of_nat (List.length (movies result))
         = Z.min (Z.abs limit) (Z.max 0 (total result - (page - 1) * limit))
      /\ (total result = 45 -> limit = 20 -> page = 1 ->
          n = 3 /\ List.length (movies result) = 20%nat).
Proof.
  intros page limit sortBy sortOrder w Hlimit Hskip.
  unfold getAllMovies, Promise_all2, MovieModel_find_page, MovieModel_countDocuments,
    get_collection.
  run_M.
  destruct (Z.ltb_spec ((page - 1) * limit) 0) as [Hneg|_]; [lia|].
  destruct (Z.eqb_spec limit 0) as [Hz|_]; [lia|].
  cbn [collection trace].
  set (count := Z.of_nat (List.length (collection w))).
  eexists. eexists. exists (Qceiling (inject_Z count / inject_Z limit)).
  split; [reflexivity|]. cbn [total totalPages movies].
  assert (Hlen : Z.of_nat (List.length
                   (firstn (Z.to_nat (Z.abs limit))
                      (skipn (Z.to_nat ((page - 1) * limit))
                         (Array_sort
                            (fun a b => (inject_Z match sortOrder with asc => 1 | desc => -1 end
                                         * sign (compare_field sortBy a b))%Q)
                            (collection w)))))
                 = Z.min (Z.abs limit) (Z.max 0 (count - (page - 1) * limit))).
  { rewrite length_firstn, length_skipn, Array_sort_length. unfold count. lia. }
  assert (Hpos : 0 < limit ->
                 (Qceiling (inject_Z count / inject_Z limit) - 1) * limit
                 < count <= Qceiling (inject_Z count / inject_Z limit) * limit)
    by (apply Qceiling_div_pos).
  split; [reflexivity|]. split.
  - unfold Math_ceil_div. destruct (Z.eqb_spec limit 0); [lia | reflexivity].
  - split; [apply Qceiling_lt|]. split; [apply Qle_ceiling|].
    split; [exact Hpos|]. split; [exact Hlen|].
    intros Htotal Hl Hp. rewrite Hl in Hpos. specialize (Hpos ltac:(lia)).
    rewrite Htotal, Hl, Hp in *. split; lia.
Qed.

Lemma getAllMovies_totalPages_witness :
  exists (result : MoviePage) (w' : World),
    getAllMovies 1 20 "createdAt" desc forty_five_movies = (Return result, w')
    /\ total result = 45
    /\ totalPages result = Finite 3
    /\ List.length (movies result) = 20%nat.
Proof.
  destruct (getAllMovies_totalPages 1 20 "createdAt" desc forty_five_movies
              ltac:(lia) ltac:(lia))
    as (result & w' & n & Hrun & Htotal & Hpages & _ & _ & _ & _ & Hexample).
  exists result, w'.
  assert (H45 : total result = 45) by (rewrite Htotal; reflexivity).
  destruct (Hexample H45 eq_refl eq_refl) as [Hn Hlen].
  rewrite Hn in Hpages. repeat split; assumption.
Defined.

(** With a limit of 0 the quotient is not finite, and the store applies
    no limit. *)
Example getAllMovies_limit_0 :
  match fst (getAllMovies 1 0 "createdAt" desc forty_five_movies) with
  | Return result => (List.length (movies result), totalPages result)
  | Throw _ => (0%nat, NaN)
  end
  = (45%nat, PositiveInfinity).
Proof. vm_compute. reflexivity. Qed.

Example getAllMovies_page_1_of_45 :
  match fst (getAllMovies 1 20 "createdAt" desc forty_five_movies) with
  | Return result =>
      (map createdAt (movies result), total result, page result, totalPages result)
  | Throw _ => ([], 0, 0, NaN)
  end
  = ([44; 43; 42; 41; 40; 39; 38; 37; 36; 35; 34; 33; 32; 31; 30; 29; 28; 27; 26; 25],
     45, 1, Finite 3).
Proof. vm_compute. reflexivity. Qed.

(** ** Sorting and slicing *)

Lemma Map_get_set {V} (m : Map V) (k k' : string) (v : V) :
  Map_get (Map_set m k v) k' = if String.eqb k k' then Some v else Map_get m k'.
Proof.
  induction m as [|[k0 v0] m IH]; cbn.
  - destruct (String.eqb k k'); reflexivity.
  - destruct (String.eqb_spec k0 k) as [->|Hne]; cbn.
    + destruct (String.eqb k k'); reflexivity.
    + rewrite IH. destruct (String.eqb_spec k k') as [<-|Hne'].
      * destruct (String.eqb_spec k0 k); [contradiction | reflexivity].
      * reflexivity.
Qed.

Lemma Map_set_keys {V} (m : Map V) (k : string) (v : V) :
  Map_keys (Map_set m k v)
  = if existsb (String.eqb k) (Map_keys m) then Map_keys m else Map_keys m ++ [k].
Proof.
  induction m as [|[k0 v0] m IH]; cbn; [reflexivity|].
  destruct (String.eqb_spec k0 k) as [->|Hne]; cbn.
  - rewrite String.eqb_refl. reflexivity.
  - destruct (String.eqb_spec k k0) as [->|_]; [contradiction|]. cbn.
    unfold Map_keys in IH. rewrite IH.
    destruct (existsb (String.eqb k) (map fst m)); reflexivity.
Qed.

Lemma Map_set_NoDup {V} (m : Map V) (k : string) (v : V) :
  NoDup (Map_keys m) -> NoDup (Map_keys (Map_set m k v)).
Proof.
  intros Hnd. rewrite Map_set_keys.
  destruct (existsb (String.eqb k) (Map_keys m)) eqn:Hex; [exact Hnd|].
  apply NoDup_app; [exact Hnd | repeat constructor; intros [] |].
  intros x Hin [->|[]].
  assert (Htrue : existsb (String.eqb x) (Map_keys m) = true).
  { apply existsb_exists. exists x. split; [exact Hin | apply String.eqb_refl]. }
  congruence.
Qed.

Lemma Map_get_In {V} (m : Map V) (k : string) (v : V) :
  NoDup (Map_keys m) -> In (k, v) m -> Map_get m k = Some v.
Proof.
  induction m as [|[k0 v0] m IH]; cbn; intros Hnd Hin; [contradiction|].
  inversion Hnd as [|? ? Hnotin Hnd']; subst.
  destruct Hin as [Heq|Hin].
  - injection Heq as -> ->. rewrite String.eqb_refl. reflexivity.
  - destruct (String.eqb_spec k0 k) as [->|_]; [|apply IH; assumption].
    exfalso. apply Hnotin. apply in_map_iff. exists (k, v). split; [reflexivity | exact Hin].
Qed.

Section SortByScore.

Lemma cmp_before (x y : ScoredMovie) :
  Qle_bool (by_score_descending x y) 0 = true -> score_desc x y.
Proof.
  intros H. apply Qle_bool_iff in H. unfold by_score_descending, score_desc in *.
  apply Qle_minus_iff in H. apply Qle_minus_iff.
  setoid_replace (movie_score x + - movie_score y)%Q
    with (0 + - (movie_score y - movie_score x))%Q by ring.
  exact H.
Qed.

Lemma cmp_after (x y : ScoredMovie) :
  Qle_bool (by_score_descending x y) 0 = false -> score_desc y x.
Proof.
  intros H. unfold score_desc.
  destruct (Qlt_le_dec (movie_score x) (movie_score y)) as [Hlt|Hle].
  - apply Qlt_le_weak. exact Hlt.
  - exfalso. assert (Htrue : Qle_bool (by_score_descending x y) 0 = true); [|congruence].
    apply Qle_bool_iff. unfold by_score_descending. apply Qle_minus_iff.
    setoid_replace (0 + - (movie_score y - movie_score x))%Q
      with (movie_score x + - movie_score y)%Q by ring.
    apply Qle_minus_iff in Hle. exact Hle.
Qed.

Lemma score_desc_trans (a b c : ScoredMovie) :
  score_desc a b -> score_desc b c -> score_desc a c.
Proof. unfold score_desc. intros Hab Hbc. eapply Qle_trans; eassumption. Qed.

Lemma sort_insert_Permutation (x : ScoredMovie) (l : list ScoredMovie) :
  Permutation (x :: l) (sort_insert by_score_descending x l).
Proof.
  induction l as [|y l IH]; cbn; [reflexivity|].
  destruct (Qle_bool (by_score_descending x y) 0); [reflexivity|].
  rewrite perm_swap. apply perm_skip. exact IH.
Qed.

Lemma Array_sort_Permutation (l : list ScoredMovie) :
  Permutation l (Array_sort by_score_descending l).
Proof.
  induction l as [|x l IH]; cbn; [reflexivity|].
  rewrite <- sort_insert_Permutation. apply perm_skip. exact IH.
Qed.

Lemma sort_insert_sorted (x : ScoredMovie) (l : list ScoredMovie) :
  StronglySorted score_desc l -> StronglySorted score_desc (sort_insert by_score_descending x l).
Proof.
  induction l as [|y l IH]; intros Hs; cbn.
  - repeat constructor.
  - inversion Hs as [|? ? Hs' Hall]; subst.
    destruct (Qle_bool (by_score_descending x y) 0) eqn:Hc.
    + constructor; [exact Hs|]. constructor; [apply cmp_before; exact Hc|].
      eapply Forall_impl; [|exact Hall]. intros z Hz.
      eapply score_desc_trans; [apply cmp_before; exact Hc | exact Hz].
    + constructor; [apply IH; exact Hs'|].
      eapply Permutation_Forall; [apply sort_insert_Permutation|].
      constructor; [apply cmp_after; exact Hc | exact Hall].
Qed.

Lemma Array_sort_sorted (l : list ScoredMovie) :
  StronglySorted score_desc (Array_sort by_score_descending l).
Proof.
  induction l as [|x l IH]; cbn; [constructor|].
  apply sort_insert_sorted. exact IH.
Qed.
End SortByScore.

Lemma firstn_In {A} (n : nat) (l : list A) (x : A) : In x (firstn n l) -> In x l.
Proof.
  intros Hin. rewrite <- (firstn_skipn n l). apply in_or_app. left. exact Hin.
Qed.

Lemma StronglySorted_firstn {A} (R : A -> A -> Prop) (n : nat) (l : list A) :
  StronglySorted R l -> StronglySorted R (firstn n l).
Proof.
  revert l. induction n as [|n IH]; intros l Hs; cbn; [constructor|].
  destruct l as [|x l]; [constructor|].
  inversion Hs as [|? ? Hs' Hall]; subst.
  constructor; [apply IH; exact Hs'|].
  apply Forall_forall. intros y Hy. rewrite Forall_forall in Hall.
  apply Hall. eapply firstn_In; exact Hy.
Qed.

Lemma NoDup_firstn {A} (n : nat) (l : list A) : NoDup l -> NoDup (firstn n l).
Proof.
  revert l. induction n as [|n IH]; intros l Hnd; cbn; [constructor|].
  destruct l as [|x l]; [constructor|].
  inversion Hnd as [|? ? Hnotin Hnd']; subst.
  constructor; [|apply IH; exact Hnd'].
  intros Hin. apply Hnotin. eapply firstn_In; exact Hin.
Qed.

Lemma Array_slice0_firstn {A} (l : list A) (n : Z) :
  0 <= n -> Array_slice0 l n = firstn (Z.to_nat n) l.
Proof.
  intros Hn. unfold Array_slice0.
  destruct (Z.ltb_spec n 0) as [Hneg|_]; [lia|].
  destruct (Z.le_gt_cases n (Z.of_nat (List.length l))) as [Hle|Hgt].
  - rewrite Z.min_l by exact Hle. reflexivity.
  - rewrite Z.min_r by lia. rewrite Nat2Z.id.
    rewrite firstn_all. symmetry. apply firstn_all2. lia.
Qed.

(** ** The search adapter never touches the document collection *)

Lemma keeps_ret {A} (a : A) : keeps_collection (ret a).
Proof. intros w. reflexivity. Qed.

Lemma keeps_throw {A} (e : Error) : keeps_collection (@throw A e).
Proof. intros w. reflexivity. Qed.

Lemma keeps_lift {A} (r : Result A) : keeps_collection (lift r).
Proof. intros w. reflexivity. Qed.

Lemma keeps_emit (ev : Event) : keeps_collection (emit ev).
Proof. intros w. reflexivity. Qed.

Lemma keeps_bind {A B} (m : M A) (k : A -> M B) :
  keeps_collection m -> (forall a, keeps_collection (k a)) -> keeps_collection (bind m k).
Proof.
  intros Hm Hk w. unfold bind. specialize (Hm w).
  destruct (m w) as [[a|e] w1]; cbn in *.
  - rewrite (Hk a w1). exact Hm.
  - exact Hm.
Qed.

Lemma keeps_try_catch {A} (m : M A) (handler : Error -> M A) :
  keeps_collection m -> (forall e, keeps_collection (handler e)) ->
  keeps_collection (try_catch m handler).
Proof.
  intros Hm Hh w. unfold try_catch. specialize (Hm w).
  destruct (m w) as [[a|e] w1]; cbn in *.
  - exact Hm.
  - rewrite (Hh e w1). exact Hm.
Qed.

Lemma keeps_call {A} (method : option (Result A)) (ev : Event) :
  keeps_collection (call method ev).
Proof.
  unfold call. destruct method.
  - apply keeps_bind; [apply keeps_emit | intros; apply keeps_lift].
  - apply keeps_throw.
Qed.

Lemma keeps_logger (level : Level) (msg : string) : keeps_collection (logger level msg).
Proof. apply keeps_emit. Qed.

Ltac keeps :=
  repeat first
    [ apply keeps_ret | apply keeps_throw | apply keeps_lift | apply keeps_logger
    | apply keeps_call | apply keeps_emit
    | apply keeps_bind; [|intros ?]
    | apply keeps_try_catch; [|intros ?]
    | match goal with
      | |- keeps_collection (match ?x with _ => _ end) => destruct x
      end ].

Lemma semanticSearch_keeps_collection :
  forall (deployment : Deployment) (embedding : list Q) (limit : Z),
    keeps_collection (semanticSearch embedding limit).
Proof.
  intros deployment embedding limit.
  unfold semanticSearch, search_Qdrant, qdrant_precheck, search_Pinecone, search_Chroma.
  keeps.
Qed.

(** ** Joining matches with movies *)

Lemma record_of_some {bson : Bson} (docs : list MovieDocument) (id : string)
    (m : MovieDocument) :
  record_of docs id = Some m -> _id m = id /\ In m docs /\ ObjectId_isValid id = true.
Proof.
  unfold record_of. destruct (ObjectId_isValid id); [|discriminate].
  intros Hfind. apply find_some in Hfind as [Hin Heq].
  apply String.eqb_eq in Heq. repeat split; assumption.
Qed.

Lemma spec_getMoviesByIds_In {bson : Bson} (docs : list MovieDocument) (ids : list string)
    (m : MovieDocument) :
  In m (spec_getMoviesByIds docs ids) <-> exists id, In id ids /\ record_of docs id = Some m.
Proof.
  unfold spec_getMoviesByIds. rewrite in_flat_map. split.
  - intros (id & Hin & Hm). exists id. split; [exact Hin|].
    destruct (record_of docs id) as [m'|]; [|destruct Hm].
    destruct Hm as [->|[]]. reflexivity.
  - intros (id & Hin & Hrec). exists id. split; [exact Hin|].
    rewrite Hrec. left. reflexivity.
Qed.

Lemma or_string_same (a : string) : or_string a a = a.
Proof. unfold or_string. destruct (Boolean_string a); reflexivity. Qed.

(** The index finds only listed movies, under their own identifier ... *)
Lemma index_movies_sound (movies : list MovieDocument) (k : string) (m : MovieDocument) :
  Map_get (index_movies movies) k = Some m -> In m movies /\ _id m = k.
Proof.
  unfold index_movies.
  assert (Hgen : forall acc,
             Map_get (fold_left
                        (fun movieMap movie =>
                           let movieId := or_string (doc_id movie) (_id movie) in
                           if Boolean_string movieId
                           then Map_set (Map_set movieMap movieId movie) (_id movie) movie
                           else movieMap) movies acc) k = Some m ->
             (In m movies /\ _id m = k) \/ Map_get acc k = Some m).
  { induction movies as [|x movies IH]; intros acc Hget; cbn in *; [right; exact Hget|].
    destruct (IH _ Hget) as [[Hin Hk]|Hacc]; [left; split; [right|]; assumption|].
    destruct (Boolean_string (or_string (doc_id x) (_id x))); [|right; exact Hacc].
    rewrite !Map_get_set in Hacc.
    destruct (String.eqb_spec (_id x) k) as [Hk|Hnk].
    - injection Hacc as ->. left. split; [left; reflexivity | exact Hk].
    - unfold or_string, doc_id in Hacc.
      destruct (Boolean_string (_id x));
        destruct (String.eqb_spec (_id x) k); try contradiction; right; exact Hacc. }
  intros Hget. destruct (Hgen [] Hget) as [H|H]; [exact H | discriminate H].
Qed.

(** ... and it finds every listed movie that has an identifier. *)
Lemma index_movies_complete (movies : list MovieDocument) (m : MovieDocument) :
  In m movies -> _id m <> "" -> Map_get (index_movies movies) (_id m) <> None.
Proof.
  unfold index_movies.
  assert (Hgen : forall acc,
             (In m movies /\ _id m <> "") \/ Map_get acc (_id m) <> None ->
             Map_get (fold_left
                        (fun movieMap movie =>
                           let movieId := or_string (doc_id movie) (_id movie) in
                           if Boolean_string movieId
                           then Map_set (Map_set movieMap movieId movie) (_id movie) movie
                           else movieMap) movies acc) (_id m) <> None).
  { induction movies as [|x movies IH]; intros acc Hcase; cbn in *.
    - destruct Hcase as [[[] _]|Hacc]. exact Hacc.
    - apply IH. destruct Hcase as [[[->|Hin] Hne]|Hacc].
      + right. cbn beta zeta. unfold doc_id. rewrite or_string_same.
        unfold Boolean_string.
        destruct (String.eqb_spec (_id m) ""); [contradiction|]. cbn [negb].
        rewrite Map_get_set, String.eqb_refl. discriminate.
      + left. split; assumption.
      + right. destruct (Boolean_string (or_string (doc_id x) (_id x))); [|exact Hacc].
        rewrite !Map_get_set.
        destruct (String.eqb (_id x) (_id m)); [discriminate|].
        destruct (String.eqb (or_string (doc_id x) (_id x)) (_id m)); [discriminate|].
        exact Hacc. }
  intros Hin Hne. apply Hgen. left. split; assumption.
Qed.

(** Every raw match resolves through the index to its stored record. *)
Lemma movieMap_resolves {bson : Bson} (docs : list MovieDocument)
    (found : list VectorMatch) (m : VectorMatch) :
  ObjectId_isValid "" = false ->
  In m found ->
  Map_get (index_movies
             (spec_getMoviesByIds docs
                (filter Boolean_string (map payload_movieId found))))
          (payload_movieId m)
  = record_of docs (payload_movieId m).
Proof.
  intros Hempty Hin.
  set (ids := filter Boolean_string (map payload_movieId found)).
  set (k := payload_movieId m).
  assert (Hsound : forall m', Map_get (index_movies (spec_getMoviesByIds docs ids)) k = Some m' ->
                              record_of docs k = Some m').
  { intros m' Hget. apply index_movies_sound in Hget as [Hin' Hk].
    apply spec_getMoviesByIds_In in Hin' as (id & _ & Hrec).
    destruct (record_of_some docs id m' Hrec) as [Hid _]. congruence. }
  destruct (record_of docs k) as [d|] eqn:Hrec.
  - destruct (record_of_some docs k d Hrec) as (Hid & _ & Hvalid).
    assert (Hne : k <> "") by (intros Heq; rewrite Heq in Hvalid; congruence).
    assert (Hk : In k ids).
    { apply filter_In. split; [apply in_map; exact Hin|].
      unfold Boolean_string. fold k. destruct (String.eqb_spec k ""); [contradiction|reflexivity]. }
    assert (Hd : In d (spec_getMoviesByIds docs ids))
      by (apply spec_getMoviesByIds_In; exists k; split; assumption).
    pose proof (index_movies_complete _ d Hd ltac:(rewrite Hid; exact Hne)) as Hsome.
    rewrite Hid in Hsome.
    destruct (Map_get (index_movies (spec_getMoviesByIds docs ids)) k) as [m'|] eqn:Hget;
      [|contradiction].
    specialize (Hsound m' eq_refl). congruence.
  - destruct (Map_get (index_movies (spec_getMoviesByIds docs ids)) k) as [m'|] eqn:Hget;
      [|reflexivity].
    specialize (Hsound m' eq_refl). discriminate.
Qed.

(** The loop over the matches computes [merge_step] and only logs. *)
Lemma foldM_merge_match (movieMap : Map MovieDocument) (found : list VectorMatch) :
  forall (acc : Map ScoredMovie) (w : World),
  exists w' : World,
    foldM (merge_match movieMap) found acc w
    = (Return (fold_left (merge_step movieMap) found acc), w')
    /\ collection w' = collection w.
Proof.
  induction found as [|m found IH]; intros acc w; cbn [foldM fold_left].
  - exists w. split; reflexivity.
  - unfold bind at 1. unfold merge_match at 1, merge_step at 2.
    destruct (Map_get movieMap (payload_movieId m)) as [movie|].
    + destruct (match Map_get acc (payload_movieId m) with
                | Some e => Qgt_bool (score m) (movie_score e)
                | None => true
                end); unfold ret at 1; apply IH.
    + run_M.
      destruct (IH acc (mkWorld (collection w)
                          (trace w ++ [Log warn ("Movie not found for ID: " ++ payload_movieId m)])))
        as (w' & Hrun & Hcoll).
      exists w'. split; [exact Hrun | exact Hcoll].
Qed.

Lemma Qgt_bool_true (a b : Q) : Qgt_bool a b = true -> (b <= a)%Q.
Proof.
  unfold Qgt_bool. intros H. apply negb_true_iff in H.
  destruct (Qlt_le_dec b a) as [Hlt|Hle]; [apply Qlt_le_weak; exact Hlt|].
  apply Qle_bool_iff in Hle. congruence.
Qed.

Lemma Qgt_bool_false (a b : Q) : Qgt_bool a b = false -> (a <= b)%Q.
Proof.
  unfold Qgt_bool. intros H. apply negb_false_iff in H.
  apply Qle_bool_iff. exact H.
Qed.

Lemma Map_get_Some_In {V} (m : Map V) (k : string) (v : V) :
  Map_get m k = Some v -> In (k, v) m.
Proof.
  induction m as [|[k0 v0] m IH]; cbn; [discriminate|].
  destruct (String.eqb_spec k0 k) as [->|_].
  - intros [= ->]. left. reflexivity.
  - intros H. right. apply IH. exact H.
Qed.

Lemma merge_step_invariant (movieMap : Map MovieDocument) (acc : Map ScoredMovie)
    (seen : list VectorMatch) (m : VectorMatch) :
  merge_invariant movieMap acc seen ->
  merge_invariant movieMap (merge_step movieMap acc m) (seen ++ [m]).
Proof.
  intros (Hnd & Hsound & Hcomplete). unfold merge_step.
  set (k := payload_movieId m).
  assert (Hweaken : forall k' e,
             k' <> k -> Map_get acc k' = Some e ->
             Map_get movieMap k' = Some (movie e)
             /\ exists m0, In m0 (seen ++ [m]) /\ payload_movieId m0 = k'
                           /\ movie_score e = score m0
                           /\ forall m', In m' (seen ++ [m]) -> payload_movieId m' = k' ->
                                         (score m' <= movie_score e)%Q).
  { intros k' e Hne Hget. destruct (Hsound k' e Hget) as (Hres & m0 & Hin0 & Hk0 & Hs0 & Hmax).
    split; [exact Hres|]. exists m0. split; [apply in_or_app; left; exact Hin0|].
    split; [exact Hk0|]. split; [exact Hs0|].
    intros m' Hin' Hk'. apply in_app_or in Hin' as [Hin'|[<-|[]]].
    - apply Hmax; assumption.
    - exfalso. apply Hne. symmetry. exact Hk'. }
  destruct (Map_get movieMap k) as [d|] eqn:Hres.
  - assert (Hset : forall bound : Q,
               (forall m', In m' seen -> payload_movieId m' = k -> (score m' <= bound)%Q) ->
               (bound <= score m)%Q ->
               merge_invariant movieMap (Map_set acc k (mkScoredMovie d (score m)))
                               (seen ++ [m])).
    { intros bound Hbound Hle. split; [apply Map_set_NoDup; exact Hnd|]. split.
      - intros k' e. rewrite Map_get_set.
        destruct (String.eqb_spec k k') as [<-|Hne]; [|apply Hweaken; congruence].
        intros [= <-]. cbn [movie movie_score]. split; [exact Hres|].
        exists m. split; [apply in_or_app; right; left; reflexivity|].
        split; [reflexivity|]. split; [reflexivity|].
        intros m' Hin' Hk'. apply in_app_or in Hin' as [Hin'|[<-|[]]].
        + eapply Qle_trans; [apply Hbound; assumption | exact Hle].
        + apply Qle_refl.
      - intros m' Hin' Hres'. rewrite Map_get_set.
        destruct (String.eqb k (payload_movieId m')) eqn:Heq; [discriminate|].
        apply in_app_or in Hin' as [Hin'|[<-|[]]].
        + apply Hcomplete; assumption.
        + fold k in Heq. rewrite String.eqb_refl in Heq. discriminate. }
    destruct (Map_get acc k) as [e0|] eqn:Hex.
    + destruct (Hsound k e0 Hex) as (_ & _ & _ & _ & _ & Hmax).
      destruct (Qgt_bool (score m) (movie_score e0)) eqn:Hgt.
      * apply (Hset (movie_score e0) Hmax). apply Qgt_bool_true. exact Hgt.
      * apply Qgt_bool_false in Hgt. split; [exact Hnd|]. split.
        -- intros k' e Hget. destruct (String.eqb_spec k' k) as [->|Hne];
             [|apply Hweaken; assumption].
           destruct (Hsound k e Hget) as (Hres' & m0 & Hin0 & Hk0 & Hs0 & Hmax').
           split; [exact Hres'|]. exists m0. split; [apply in_or_app; left; exact Hin0|].
           split; [exact Hk0|]. split; [exact Hs0|].
           intros m' Hin' Hk'. apply in_app_or in Hin' as [Hin'|[<-|[]]].
           ++ apply Hmax'; assumption.
           ++ assert (e = e0) as -> by congruence. exact Hgt.
        -- intros m' Hin' Hres'. apply in_app_or in Hin' as [Hin'|[<-|[]]].
           ++ apply Hcomplete; assumption.
           ++ fold k. rewrite Hex. discriminate.
    + apply (Hset (score m)); [|apply Qle_refl].
      intros m' Hin' Hk'. exfalso.
      apply (Hcomplete m' Hin'); rewrite Hk'; [rewrite Hres; discriminate | exact Hex].
  - split; [exact Hnd|]. split.
    + intros k' e Hget. apply Hweaken; [|exact Hget].
      intros ->. destruct (Hsound k e Hget) as [Hres' _]. congruence.
    + intros m' Hin' Hres'. apply in_app_or in Hin' as [Hin'|[<-|[]]].
      * apply Hcomplete; assumption.
      * fold k in Hres'. contradiction.
Qed.

Lemma merge_fold_invariant (movieMap : Map MovieDocument) (found : list VectorMatch) :
  forall (acc : Map ScoredMovie) (seen : list VectorMatch),
    merge_invariant movieMap acc seen ->
    merge_invariant movieMap (fold_left (merge_step movieMap) found acc) (seen ++ found).
Proof.
  induction found as [|m found IH]; intros acc seen Hinv; cbn [fold_left].
  - rewrite app_nil_r. exact Hinv.
  - replace (seen ++ m :: found) with ((seen ++ [m]) ++ found)
      by (rewrite <- app_assoc; reflexivity).
    apply IH. apply merge_step_invariant. exact Hinv.
Qed.

Lemma merge_invariant_start (movieMap : Map MovieDocument) :
  merge_invariant movieMap [] [].
Proof.
  split; [constructor|]. split.
  - intros k e H. discriminate H.
  - intros m [].
Qed.

(** The merged and sorted entries, before truncation. *)
Lemma merged_entries {bson : Bson} (docs : list MovieDocument) (found : list VectorMatch) :
  ObjectId_isValid "" = false ->
  let movieMap :=
    index_movies (spec_getMoviesByIds docs (filter Boolean_string (map payload_movieId found))) in
  let full :=
    Array_sort by_score_descending
               (Map_values (fold_left (merge_step movieMap) found [])) in
  NoDup (map (fun e => _id (movie e)) full)
  /\ StronglySorted score_desc full
  /\ (forall e, In e full -> best_match docs found e)
  /\ (forall m d, In m found -> record_of docs (payload_movieId m) = Some d ->
                  exists e, In e full /\ movie e = d).
Proof.
  intros Hempty movieMap full.
  set (msm := fold_left (merge_step movieMap) found []) in *.
  destruct (merge_fold_invariant movieMap found [] [] (merge_invariant_start movieMap))
    as (Hnd & Hsound & Hcomplete).
  fold msm in Hnd, Hsound, Hcomplete. cbn [app] in Hsound, Hcomplete.
  assert (Hperm : Permutation (Map_values msm) full) by apply Array_sort_Permutation.
  assert (Hentry : forall e, In e full -> exists k, Map_get msm k = Some e).
  { intros e Hin. apply (Permutation_in _ (Permutation_sym Hperm)) in Hin.
    unfold Map_values in Hin. apply in_map_iff in Hin as ([k e'] & Heq & Hin).
    cbn in Heq. subst e'. exists k. apply Map_get_In; assumption. }
  split; [|split; [|split]].
  - eapply Permutation_NoDup; [apply Permutation_map; exact Hperm|].
    replace (map (fun e => _id (movie e)) (Map_values msm)) with (Map_keys msm); [exact Hnd|].
    unfold Map_values, Map_keys. rewrite map_map. apply map_ext_in.
    intros [k e] Hin. cbn [fst snd].
    destruct (Hsound k e (Map_get_In msm k e Hnd Hin)) as [Hres _].
    apply index_movies_sound in Hres as [_ Hk]. symmetry. exact Hk.
  - apply Array_sort_sorted.
  - intros e Hin. destruct (Hentry e Hin) as (k & Hget).
    destruct (Hsound k e Hget) as (Hres & m & Hm & Hk & Hs & Hmax).
    exists m. split; [exact Hm|]. split.
    + rewrite <- (movieMap_resolves docs found m Hempty Hm). rewrite Hk. exact Hres.
    + split; [exact Hs|]. intros m' Hm' Hrec'. apply Hmax; [exact Hm'|].
      rewrite <- (movieMap_resolves docs found m' Hempty Hm') in Hrec'.
      apply index_movies_sound in Hrec' as [_ Hk']. apply index_movies_sound in Hres as [_ Hk''].
      congruence.
  - intros m d Hm Hrec.
    rewrite <- (movieMap_resolves docs found m Hempty Hm) in Hrec. fold movieMap in Hrec.
    destruct (Map_get msm (payload_movieId m)) as [e|] eqn:Hget.
    + exists e. split.
      * apply (Permutation_in _ Hperm). unfold Map_values.
        apply in_map_iff. exists (payload_movieId m, e).
        split; [reflexivity | apply Map_get_Some_In; exact Hget].
      * destruct (Hsound _ e Hget) as [Hres _]. congruence.
    + exfalso. apply (Hcomplete m Hm); [rewrite Hrec; discriminate | exact Hget].
Qed.

(** What the function computes, step by step. *)
Lemma searchMoviesByEmbedding_run :
  forall (bson : Bson) (deployment : Deployment) (embedding : list Q) (limit : Z)
         (w w1 : World) (found : list VectorMatch),
    well_formed_collection (collection w) = true ->
    0 <= limit ->
    semanticSearch embedding (limit * 2) w = (Return found, w1) ->
    exists w' : World,
      searchMoviesByEmbedding embedding limit w
      = (Return
           (firstn (Z.to_nat limit)
              (Array_sort by_score_descending
                 (Map_values
                    (fold_left
                       (merge_step
                          (index_movies
                             (spec_getMoviesByIds (collection w)
                                (filter Boolean_string (map payload_movieId found)))))
                       found [])))),
         w').
Proof.
  intros bson deployment embedding limit w w1 found Hwf Hlimit Hsearch.
  assert (Hdocs1 : collection w1 = collection w).
  { pose proof (semanticSearch_keeps_collection deployment embedding (limit * 2) w) as Hk.
    rewrite Hsearch in Hk. exact Hk. }
  unfold searchMoviesByEmbedding. unfold bind at 1. rewrite Hsearch.
  remember (filter Boolean_string (map payload_movieId found)) as ids eqn:Hids.
  destruct (List.length found =? 0)%nat eqn:Hlen.
  - apply Nat.eqb_eq in Hlen. apply length_zero_iff_nil in Hlen. subst found.
    exists w1. cbn. rewrite firstn_nil. reflexivity.
  - destruct (List.length ids =? 0)%nat eqn:Hlen'.
    + apply Nat.eqb_eq in Hlen'. apply length_zero_iff_nil in Hlen'. rewrite Hlen'.
      exists w1. unfold ret. f_equal. f_equal.
      assert (Hstuck : forall ms acc,
                 fold_left (merge_step (index_movies (spec_getMoviesByIds (collection w) [])))
                           ms acc = acc).
      { induction ms as [|m ms IH]; intros acc; cbn [fold_left]; [reflexivity|].
        rewrite <- (IH acc) at 2. f_equal. }
      rewrite Hstuck. cbn. rewrite firstn_nil. reflexivity.
    + destruct (getMoviesByIds_run (collection w) Hwf ids w1 Hdocs1) as (w2 & Hrun & Hdocs2).
      unfold bind at 1. rewrite Hrun.
      destruct (foldM_merge_match (index_movies (spec_getMoviesByIds (collection w) ids))
                                  found [] w2) as (w3 & Hfold & _).
      unfold bind at 1. rewrite Hfold.
      exists w3. unfold ret. rewrite Array_slice0_firstn by exact Hlimit. reflexivity.
Qed.

Lemma StronglySorted_firstn_skipn {A} (R : A -> A -> Prop) (l : list A) :
  StronglySorted R l ->
  forall (n : nat) (a b : A), In a (firstn n l) -> In b (skipn n l) -> R a b.
Proof.
  induction 1 as [|x l Hsorted IH Hall]; intros n a b Ha Hb.
  - rewrite firstn_nil in Ha. destruct Ha.
  - destruct n as [|n]; [destruct Ha|]. cbn in Ha, Hb. destruct Ha as [<-|Ha].
    + rewrite Forall_forall in Hall. apply Hall.
      rewrite <- (firstn_skipn n l). apply in_or_app. right. exact Hb.
    + apply (IH n); assumption.
Qed.


(** X25. What [searchMoviesByEmbedding] does with the raw matches of
    [semanticSearch], a raw match counting for the stored movie whose
    [id] string it carries: the result is the first [limit] entries of a
    list [full] that has exactly one entry for every such movie, pairing
    it with the highest score among the raw matches carrying its [id]
    string, in descending order of score. So every movie occurs at most
    once in the result, the result is in descending order, has at most
    [limit] entries, and no entry left out scores higher than an entry
    kept. *)
Theorem searchMoviesByEmbedding_best_score_once :
  forall (bson : Bson) (deployment : Deployment) (embedding : list Q) (limit : Z)
         (w w1 : World) (found : list VectorMatch),
    ObjectId_isValid "" = false ->
    well_formed_collection (collection w) = true ->
    0 <= limit ->
    semanticSearch embedding (limit * 2) w = (Return found, w1) ->
    exists (full result : list ScoredMovie) (w' : World),
      searchMoviesByEmbedding embedding limit w = (Return result, w')
      /\ result = firstn (Z.to_nat limit) full
      /\ NoDup (map (fun e => _id (movie e)) full)
      /\ StronglySorted score_desc full
      /\ (forall e, In e full -> best_match (collection w) found e)
      /\ (forall m d, In m found ->
                      record_of (collection w) (payload_movieId m) = Some d ->
                      exists e, In e full /\ movie e = d)
      /\ NoDup (map (fun e => _id (movie e)) result)
      /\ (forall e, In e result -> best_match (collection w) found e)
      /\ StronglySorted score_desc result
      /\ List.length result = Nat.min (Z.to_nat limit) (List.length full)
      /\ (forall e e', In e result -> In e' full -> ~ In e' result -> score_desc e e').
Proof.
  intros bson deployment embedding limit w w1 found Hempty Hwf Hlimit Hsearch.
  destruct (merged_entries (collection w) found Hempty) as (Hnd & Hsorted & Hbest & Hall).
  destruct (searchMoviesByEmbedding_run bson deployment embedding limit w w1 found
              Hwf Hlimit Hsearch) as (w' & Hrun).
  set (full := Array_sort by_score_descending
                 (Map_values
                    (fold_left
                       (merge_step
                          (index_movies
                             (spec_getMoviesByIds (collection w)
                                (filter Boolean_string (map payload_movieId found)))))
                       found []))) in *.
  exists full, (firstn (Z.to_nat limit) full), w'.
  split; [exact Hrun|]. split; [reflexivity|]. split; [exact Hnd|].
  split; [exact Hsorted|]. split; [exact Hbest|]. split; [exact Hall|].
  split; [rewrite <- firstn_map; apply NoDup_firstn; exact Hnd|].
  split; [intros e Hin; apply Hbest; eapply firstn_In; exact Hin|].
  split; [apply StronglySorted_firstn; exact Hsorted|].
  split; [apply length_firstn|].
  intros e e' He He' Hout.
  apply (StronglySorted_firstn_skipn score_desc full Hsorted (Z.to_nat limit)); [exact He|].
  rewrite <- (firstn_skipn (Z.to_nat limit) full) in He'.
  apply in_app_or in He'. destruct He' as [Hkept|Hleft]; [contradiction | exact Hleft].
Qed.

Lemma searchMoviesByEmbedding_best_score_once_witness :
  exists (full result : list ScoredMovie) (w' : World),
    @searchMoviesByEmbedding hex24 two_movies_deployment [1#2; 1#3] 1 sample_world
    = (Return result, w')
    /\ result = firstn (Z.to_nat 1) full
    /\ NoDup (map (fun e => _id (movie e)) full)
    /\ StronglySorted score_desc full
    /\ (forall e, In e full ->
                  @best_match hex24 (collection sample_world) (map as_match two_movies) e)
    /\ (forall m d, In m (map as_match two_movies) ->
                    @record_of hex24 (collection sample_world) (payload_movieId m) = Some d ->
                    exists e, In e full /\ movie e = d)
    /\ NoDup (map (fun e => _id (movie e)) result)
    /\ (forall e, In e result ->
                  @best_match hex24 (collection sample_world) (map as_match two_movies) e)
    /\ StronglySorted score_desc result
    /\ List.length result = Nat.min (Z.to_nat 1) (List.length full)
    /\ (forall e e', In e result -> In e' full -> ~ In e' result -> score_desc e e').
Proof.
  apply (searchMoviesByEmbedding_best_score_once hex24 two_movies_deployment [1#2; 1#3] 1
           sample_world
           (mkWorld (collection sample_world)
                    [QdrantGetCollection "movies"; QdrantSearch "movies" [1#2; 1#3] 2])
           (map as_match two_movies)).
  - reflexivity.
  - reflexivity.
  - lia.
  - reflexivity.
Defined.

(** With limit 1 the entry with the higher score is the one returned,
    though its raw match came second. *)
Example the_best_entry_is_kept :
  fst (@searchMoviesByEmbedding hex24 two_movies_deployment [1#2; 1#3] 1 sample_world)
  = Return [mkScoredMovie alien (95#100)].
Proof. vm_compute. reflexivity. Qed.

(** Raw scores 0.9, 0.7 and 0.95 for one movie: one entry, scored 0.95. *)
Example three_matches_one_entry :
  fst (@searchMoviesByEmbedding hex24 alien_deployment [1#2; 1#3] 10 sample_world)
  = Return [mkScoredMovie alien (95#100); mkScoredMovie brazil (4#5)].
Proof. vm_compute. reflexivity. Qed.

(* ===================================================================== *)
(** * Further properties of the two services *)
(* ===================================================================== *)

(** ** Writing embeddings *)

Lemma stringToNumericId_returns (str : string) :
  exists n : Z, stringToNumericId str = Return n /\ 0 <= n < MAX_SAFE_INTEGER.
Proof.
  destruct (digest_first8 (utf8_bytes str))
    as (b0 & b1 & b2 & b3 & b4 & b5 & b6 & b7 & rest & Hd & Hb).
  pose proof (uint64_be_range _ _ _ _ _ _ _ _ Hb) as Hr.
  assert (Hm : 0 <= uint64_be b0 b1 b2 b3 b4 b5 b6 b7 mod MAX_SAFE_INTEGER < MAX_SAFE_INTEGER)
    by (apply Z.mod_pos_bound; reflexivity).
  exists (uint64_be b0 b1 b2 b3 b4 b5 b6 b7 mod MAX_SAFE_INTEGER).
  split; [|exact Hm].
  unfold stringToNumericId, readBigUInt64BE. rewrite Hd.
  change (skipn 0 (b0 :: b1 :: b2 :: b3 :: b4 :: b5 :: b6 :: b7 :: rest))
    with (b0 :: b1 :: b2 :: b3 :: b4 :: b5 :: b6 :: b7 :: rest).
  change (firstn 8 (b0 :: b1 :: b2 :: b3 :: b4 :: b5 :: b6 :: b7 :: rest))
    with [b0; b1; b2; b3; b4; b5; b6; b7].
  rewrite be_value_8.
  replace ((0 + 8 <=? List.length (b0 :: b1 :: b2 :: b3 :: b4 :: b5 :: b6 :: b7 :: rest))%nat)
    with true by (symmetry; apply Nat.leb_le; simpl; lia).
  rewrite Number_of_BigInt_safe; [reflexivity|].
  unfold MAX_SAFE_INTEGER in *. lia.
Qed.

Lemma numeric_id_of_run (key : string) :
  stringToNumericId key = Return (numeric_id_of key)
  /\ 0 <= numeric_id_of key < MAX_SAFE_INTEGER.
Proof.
  destruct (stringToNumericId_returns key) as (n & Hrun & Hrange).
  unfold numeric_id_of. rewrite Hrun. split; [reflexivity | exact Hrange].
Qed.

Lemma fold_left_mapped {A B C} (f : C -> B -> C) (g : A -> B) (xs : list A) :
  forall acc : C, fold_left f (map g xs) acc = fold_left (fun c x => f c (g x)) xs acc.
Proof. induction xs as [|x xs IH]; intros acc; cbn; [reflexivity | apply IH]. Qed.

(** Assigning distinct keys one after the other lists them in that order. *)
Lemma fold_Map_set_distinct {A V} (key : A -> string) (value : A -> V) (xs : list A) :
  NoDup (map key xs) ->
  fold_left (fun acc x => Map_set acc (key x) (value x)) xs []
  = map (fun x => (key x, value x)) xs.
Proof.
  intros Hnd.
  assert (Hfold : forall acc,
             fold_left (fun acc x => Map_set acc (key x) (value x)) xs acc
             = fold_left (fun m kv => Map_set m (fst kv) (snd kv))
                         (map (fun x => (key x, value x)) xs) acc).
  { induction xs as [|x xs IH]; intros acc; cbn; [reflexivity|].
    apply IH. inversion Hnd; assumption. }
  rewrite Hfold. apply (Map_of_entries_distinct_from _ []).
  cbn [app]. rewrite map_map. cbn [fst]. exact Hnd.
Qed.

(** Assigning distinct names to an empty object lists them in that
    order, except [__proto__], whose assignment adds nothing. *)
Lemma fold_Object_set_distinct {A} (key value : A -> string) (xs : list A) :
  NoDup (map key xs) ->
  fold_left (fun acc x => Object_set acc (key x) (value x)) xs []
  = map (fun x => (key x, value x))
        (filter (fun x => negb (String.eqb (key x) "__proto__")) xs).
Proof.
  intros Hnd.
  assert (Hfold : forall acc,
             fold_left (fun acc x => Object_set acc (key x) (value x)) xs acc
             = fold_left (fun acc x => Map_set acc (key x) (value x))
                         (filter (fun x => negb (String.eqb (key x) "__proto__")) xs) acc).
  { clear Hnd. induction xs as [|x xs IH]; intros acc; cbn [fold_left filter];
      [reflexivity|].
    unfold Object_set at 2. destruct (String.eqb (key x) "__proto__"); cbn [negb fold_left];
      apply IH. }
  rewrite Hfold. apply fold_Map_set_distinct. apply NoDup_map_filter. exact Hnd.
Qed.

Section Upsert.
Context {deployment : Deployment}.
Variable movieId : string.

Lemma qdrant_points_run (embeddings : EmbeddingRecord) (w : World) :
  mapM (fun entry : string * list Q =>
          let (source, vector) := entry in
          let stringId := composite_key movieId source in
          bind (lift (stringToNumericId stringId))
               (fun numericId =>
                  ret (mkQdrantPoint numericId vector
                         [ ("movieId", VString movieId);
                           ("source", VString source);
                           ("originalId", VString stringId) ])))
       embeddings w
  = (Return (qdrant_points movieId embeddings), w).
Proof.
  set (point_of := fun entry : string * list Q =>
                     let (source, vector) := entry in
                     let stringId := composite_key movieId source in
                     bind (lift (stringToNumericId stringId))
                          (fun numericId =>
                             ret (mkQdrantPoint numericId vector
                                    [ ("movieId", VString movieId);
                                      ("source", VString source);
                                      ("originalId", VString stringId) ]))).
  induction embeddings as [|[source vector] embeddings IH]; cbn [mapM qdrant_points map].
  - reflexivity.
  - assert (Hpoint : point_of (source, vector) w
                     = (Return (mkQdrantPoint (numeric_id_of (composite_key movieId source))
                                  vector
                                  [ ("movieId", VString movieId);
                                    ("source", VString source);
                                    ("originalId", VString (composite_key movieId source)) ]),
                        w)).
    { unfold point_of, bind, lift, ret.
      destruct (numeric_id_of_run (composite_key movieId source)) as [Hrun _].
      rewrite Hrun. reflexivity. }
    unfold bind at 1. rewrite Hpoint. unfold bind at 1.
    fold (qdrant_points movieId embeddings). rewrite IH. reflexivity.
Qed.

Lemma upsert_Qdrant_run (embeddings : EmbeddingRecord) (w : World) (upsert : UpsertMethod) :
  NoDup (Map_keys embeddings) ->
  client_upsert getVectorClient = Some upsert ->
  upsert (VECTOR_COLLECTION env) (qdrant_points movieId embeddings) = Return tt ->
  upsert_Qdrant getVectorClient movieId embeddings w
  = (Return (map (fun entry : string * list Q =>
                    (fst entry,
                     String_of_number (numeric_id_of (composite_key movieId (fst entry)))))
                 (filter assignable embeddings)),
     mkWorld (collection w)
       (trace w ++ [ QdrantUpsert (VECTOR_COLLECTION env)
                       (map (fun entry : string * list Q =>
                               numeric_id_of (composite_key movieId (fst entry)))
                            embeddings);
                     Log info (upserted_message embeddings movieId "Qdrant") ])).
Proof.
  intros Hnd Hmethod Hok. unfold upsert_Qdrant.
  unfold bind at 1. rewrite qdrant_points_run. rewrite Hmethod. cbn [option_map].
  run_M. rewrite Hok. cbn [collection trace]. rewrite world_trace_app.
  f_equal.
  - f_equal. unfold qdrant_points. rewrite fold_left_mapped. cbn [qp_payload qp_id].
    rewrite (fold_Object_set_distinct
               (fun entry : string * list Q => fst entry)
               (fun entry : string * list Q =>
                  String_of_number (numeric_id_of (composite_key movieId (fst entry))))).
    + reflexivity.
    + exact Hnd.
  - f_equal. f_equal. cbn [app]. f_equal.
    + f_equal. unfold qdrant_points. rewrite map_map. reflexivity.
    + f_equal. unfold upserted_message, count_string, qdrant_points.
      rewrite length_map. reflexivity.
Qed.
End Upsert.

Lemma nonempty_mapping (embeddings : EmbeddingRecord) :
  embeddings <> [] -> (List.length (Map_keys embeddings) =? 0)%nat = false.
Proof. destruct embeddings; [contradiction | reflexivity]. Qed.

Lemma returned_keys_distinct (movieId : string) (embeddings : EmbeddingRecord) :
  NoDup (Map_keys embeddings) ->
  returned_keys (string_keyed_vectors movieId embeddings)
  = map (fun entry : string * list Q => (fst entry, composite_key movieId (fst entry)))
        (filter assignable embeddings).
Proof.
  intros Hnd. unfold returned_keys, string_keyed_vectors.
  rewrite fold_left_mapped.
  change (filter assignable embeddings)
    with (filter (fun entry : string * list Q => negb (String.eqb (fst entry) "__proto__"))
                 embeddings).
  rewrite <- (fold_Object_set_distinct
                (fun entry : string * list Q => fst entry)
                (fun entry : string * list Q => composite_key movieId (fst entry))
                embeddings Hnd).
  assert (Hsame : forall acc : Map string,
             fold_left
               (fun c (x : string * list Q) =>
                  Object_set c
                    (source_of (pv_metadata
                       (let (source, vector) := x in
                        mkPineconeVector (composite_key movieId source) vector
                          [("movieId", VString movieId); ("source", VString source)])))
                    (pv_id (let (source, vector) := x in
                            mkPineconeVector (composite_key movieId source) vector
                              [("movieId", VString movieId); ("source", VString source)])))
               embeddings acc
             = fold_left (fun acc x => Object_set acc (fst x) (composite_key movieId (fst x)))
                         embeddings acc).
  { induction embeddings as [|[source vector] embeddings IH]; intros acc; cbn [fold_left];
      [reflexivity|].
    rewrite IH; [reflexivity|]. inversion Hnd; assumption. }
  apply Hsame.
Qed.

Lemma string_keyed_ids (movieId : string) (embeddings : EmbeddingRecord) :
  map pv_id (string_keyed_vectors movieId embeddings)
  = map (fun entry : string * list Q => composite_key movieId (fst entry)) embeddings.
Proof.
  unfold string_keyed_vectors. rewrite map_map. apply map_ext.
  intros [source vector]. reflexivity.
Qed.

(** X1. On a Qdrant client whose write succeeds, [upsertMovieEmbeddings]
    issues one write carrying one point per named vector, logs it, and
    resolves to the mapping from each name other than [__proto__] to the
    decimal numeral of the numeric id of [movieId:name]; a vector named
    [__proto__] is written but gets no entry, the result being built by
    assignment to a plain object. Every id written is a non-negative
    integer below [Number.MAX_SAFE_INTEGER]. *)
Theorem upsert_Qdrant_returns_numeric_ids :
  forall (deployment : Deployment) (movieId : string) (embeddings : EmbeddingRecord)
         (w : World) (upsert : UpsertMethod),
    embeddings <> [] ->
    NoDup (Map_keys embeddings) ->
    isQdrant getVectorClient = true ->
    client_upsert getVectorClient = Some upsert ->
    upsert (VECTOR_COLLECTION env) (qdrant_points movieId embeddings) = Return tt ->
    upsertMovieEmbeddings movieId embeddings w
    = (Return (map (fun entry : string * list Q =>
                      (fst entry,
                       String_of_number (numeric_id_of (composite_key movieId (fst entry)))))
                   (filter assignable embeddings)),
       mkWorld (collection w)
         (trace w ++ [ QdrantUpsert (VECTOR_COLLECTION env)
                         (map (fun entry : string * list Q =>
                                 numeric_id_of (composite_key movieId (fst entry)))
                              embeddings);
                       Log info (upserted_message embeddings movieId "Qdrant") ]))
    /\ Forall (fun entry : string * list Q =>
                 stringToNumericId (composite_key movieId (fst entry))
                 = Return (numeric_id_of (composite_key movieId (fst entry)))
                 /\ 0 <= numeric_id_of (composite_key movieId (fst entry)) < MAX_SAFE_INTEGER)
              embeddings.
Proof.
  intros deployment movieId embeddings w upsert Hne Hnd Hq Hmethod Hok. split.
  - unfold upsertMovieEmbeddings. rewrite Hq, (nonempty_mapping embeddings Hne).
    apply (upsert_Qdrant_run movieId embeddings w upsert); assumption.
  - apply Forall_forall. intros entry _. apply numeric_id_of_run.
Qed.

Lemma upsert_Qdrant_returns_numeric_ids_witness :
  fst (@upsertMovieEmbeddings
         (qdrant_deployment (Return (mkCollectionInfo (Some 0))) (Return (PointArray [])))
         "507f1f77bcf86cd799439011"
         [("title", [1#2]); ("__proto__", [1#5]); ("plot", [1#3])] sample_world)
  = Return [ ("title", String_of_number
                         (numeric_id_of (composite_key "507f1f77bcf86cd799439011" "title")));
             ("plot", String_of_number
                        (numeric_id_of (composite_key "507f1f77bcf86cd799439011" "plot"))) ].
Proof.
  rewrite (proj1 (upsert_Qdrant_returns_numeric_ids
                    (qdrant_deployment (Return (mkCollectionInfo (Some 0)))
                                       (Return (PointArray [])))
                    "507f1f77bcf86cd799439011"
                    [("title", [1#2]); ("__proto__", [1#5]); ("plot", [1#3])]
                    sample_world (fun _ _ => Return tt)
                    ltac:(discriminate)
                    ltac:(repeat constructor; cbn; intuition discriminate)
                    eq_refl eq_refl eq_refl)).
  reflexivity.
Defined.

(** X2. On a Pinecone client whose write succeeds, the composite strings
    [movieId:name] are the identifiers: one write carries them, and the
    result maps each name other than [__proto__] to its composite
    string (the assignment of a string to [__proto__] adds no entry). *)
Theorem upsert_Pinecone_returns_composite_keys :
  forall (deployment : Deployment) (movieId : string) (embeddings : EmbeddingRecord)
         (w : World) (index_method : IndexMethod),
    embeddings <> [] ->
    NoDup (Map_keys embeddings) ->
    isQdrant getVectorClient = false ->
    client_index getVectorClient = Some index_method ->
    index_upsert (index_method (or_opt_string (PINECONE_INDEX env) (VECTOR_COLLECTION env)))
                 (string_keyed_vectors movieId embeddings) = Return tt ->
    upsertMovieEmbeddings movieId embeddings w
    = (Return (map (fun entry : string * list Q =>
                      (fst entry, composite_key movieId (fst entry)))
                   (filter assignable embeddings)),
       mkWorld (collection w)
         (trace w ++ [ PineconeUpsert
                         (or_opt_string (PINECONE_INDEX env) (VECTOR_COLLECTION env))
                         (map (fun entry : string * list Q =>
                                 composite_key movieId (fst entry)) embeddings);
                       Log info (upserted_message embeddings movieId "Pinecone") ])).
Proof.
  intros deployment movieId embeddings w index_method Hne Hnd Hq Hindex Hok.
  unfold upsertMovieEmbeddings, isPinecone. rewrite Hq, Hindex. cbn [defined].
  rewrite orb_true_r, (nonempty_mapping embeddings Hne).
  unfold upsert_Pinecone. rewrite Hindex. run_M. rewrite Hok.
  cbn [collection trace]. rewrite world_trace_app.
  rewrite returned_keys_distinct by exact Hnd. rewrite string_keyed_ids.
  unfold upserted_message, count_string, string_keyed_vectors. rewrite length_map.
  reflexivity.
Qed.

Lemma upsert_Pinecone_returns_composite_keys_witness :
  fst (@upsertMovieEmbeddings (pinecone_deployment (Return (mkQueryResponse None)))
         "507f1f77bcf86cd799439011"
         [("title", [1#2]); ("__proto__", [1#5]); ("plot", [1#3])] sample_world)
  = Return [ ("title", "507f1f77bcf86cd799439011:title");
             ("plot", "507f1f77bcf86cd799439011:plot") ].
Proof.
  rewrite (upsert_Pinecone_returns_composite_keys
             (pinecone_deployment (Return (mkQueryResponse None)))
             "507f1f77bcf86cd799439011"
             [("title", [1#2]); ("__proto__", [1#5]); ("plot", [1#3])] sample_world
             (fun _ => mkPineconeIndex (fun _ _ => Return (mkQueryResponse None))
                                       (fun _ => Return tt))
             ltac:(discriminate)
             ltac:(repeat constructor; cbn; intuition discriminate)
             eq_refl eq_refl eq_refl).
  reflexivity.
Defined.

(** X3. On a Chroma client whose request succeeds, one POST to
    [baseUrl/collections/collection/add] carries the composite strings,
    the vectors and the metadata in the same order, and the result maps
    each name other than [__proto__] to its composite string (the
    assignment of a string to [__proto__] adds no entry). *)
Theorem upsert_Chroma_returns_composite_keys :
  forall (deployment : Deployment) (movieId : string) (embeddings : EmbeddingRecord)
         (w : World) (response : AxiosResponse),
    embeddings <> [] ->
    NoDup (Map_keys embeddings) ->
    isQdrant getVectorClient = false ->
    isPinecone getVectorClient = false ->
    isChroma getVectorClient = true ->
    axios_post (chroma_url getVectorClient "add")
               (AddBody (map (fun entry : string * list Q =>
                                composite_key movieId (fst entry)) embeddings)
                        (map snd embeddings)
                        (map (fun entry : string * list Q =>
                                [ ("movieId", VString movieId);
                                  ("source", VString (fst entry)) ]) embeddings))
    = Return response ->
    upsertMovieEmbeddings movieId embeddings w
    = (Return (map (fun entry : string * list Q =>
                      (fst entry, composite_key movieId (fst entry)))
                   (filter assignable embeddings)),
       mkWorld (collection w)
         (trace w ++ [ AxiosPost (chroma_url getVectorClient "add")
                         (AddBody (map (fun entry : string * list Q =>
                                          composite_key movieId (fst entry)) embeddings)
                                  (map snd embeddings)
                                  (map (fun entry : string * list Q =>
                                          [ ("movieId", VString movieId);
                                            ("source", VString (fst entry)) ]) embeddings));
                       Log info (upserted_message embeddings movieId "Chroma") ])).
Proof.
  intros deployment movieId embeddings w response Hne Hnd Hq Hp Hc Hok.
  unfold upsertMovieEmbeddings. rewrite Hq, Hp, Hc, (nonempty_mapping embeddings Hne).
  unfold upsert_Chroma.
  assert (Hvalues : map pv_values (string_keyed_vectors movieId embeddings) = map snd embeddings).
  { unfold string_keyed_vectors. rewrite map_map. apply map_ext. intros [s v]. reflexivity. }
  assert (Hmeta : map pv_metadata (string_keyed_vectors movieId embeddings)
                  = map (fun entry : string * list Q =>
                           [ ("movieId", VString movieId);
                             ("source", VString (fst entry)) ]) embeddings).
  { unfold string_keyed_vectors. rewrite map_map. apply map_ext. intros [s v]. reflexivity. }
  rewrite string_keyed_ids, Hvalues, Hmeta.
  run_M. rewrite Hok. cbn [collection trace]. rewrite world_trace_app.
  rewrite returned_keys_distinct by exact Hnd.
  unfold upserted_message, count_string, string_keyed_vectors. rewrite length_map.
  reflexivity.
Qed.

Lemma upsert_Chroma_returns_composite_keys_witness :
  fst (@upsertMovieEmbeddings (chroma_deployment (Return (mkAxiosResponse None)))
         "507f1f77bcf86cd799439011"
         [("title", [1#2]); ("__proto__", [1#5]); ("plot", [1#3])] sample_world)
  = Return [ ("title", "507f1f77bcf86cd799439011:title");
             ("plot", "507f1f77bcf86cd799439011:plot") ].
Proof.
  rewrite (upsert_Chroma_returns_composite_keys
             (chroma_deployment (Return (mkAxiosResponse None)))
             "507f1f77bcf86cd799439011"
             [("title", [1#2]); ("__proto__", [1#5]); ("plot", [1#3])] sample_world
             (mkAxiosResponse None)
             ltac:(discriminate)
             ltac:(repeat constructor; cbn; intuition discriminate)
             eq_refl eq_refl eq_refl eq_refl).
  reflexivity.
Defined.

Section UpsertFailure.
Context {deployment : Deployment}.
Variables (movieId : string) (embeddings : EmbeddingRecord) (w : World).

Lemma upsert_Qdrant_fails (upsert : UpsertMethod) (e : Error) :
  client_upsert getVectorClient = Some upsert ->
  upsert (VECTOR_COLLECTION env) (qdrant_points movieId embeddings) = Throw e ->
  upsert_Qdrant getVectorClient movieId embeddings w
  = (Throw e,
     mkWorld (collection w)
       (trace w ++ [QdrantUpsert (VECTOR_COLLECTION env)
                      (map qp_id (qdrant_points movieId embeddings))])).
Proof.
  intros Hmethod Hfail. unfold upsert_Qdrant.
  unfold bind at 1. rewrite qdrant_points_run. rewrite Hmethod. cbn [option_map].
  run_M. rewrite Hfail. reflexivity.
Qed.

Lemma upsert_Qdrant_no_method :
  client_upsert getVectorClient = None ->
  upsert_Qdrant getVectorClient movieId embeddings w
  = (Throw (mkError "TypeError: not a function"), w).
Proof.
  intros Hmethod. unfold upsert_Qdrant.
  unfold bind at 1. rewrite qdrant_points_run. rewrite Hmethod. reflexivity.
Qed.

Lemma upsert_Pinecone_fails (index_method : IndexMethod) (e : Error) :
  client_index getVectorClient = Some index_method ->
  index_upsert (index_method (or_opt_string (PINECONE_INDEX env) (VECTOR_COLLECTION env)))
               (string_keyed_vectors movieId embeddings) = Throw e ->
  upsert_Pinecone getVectorClient movieId embeddings w
  = (Throw e,
     mkWorld (collection w)
       (trace w ++ [PineconeUpsert
                      (or_opt_string (PINECONE_INDEX env) (VECTOR_COLLECTION env))
                      (map pv_id (string_keyed_vectors movieId embeddings))])).
Proof.
  intros Hindex Hfail. unfold upsert_Pinecone. rewrite Hindex.
  run_M. rewrite Hfail. reflexivity.
Qed.

Lemma upsert_Chroma_fails (e : Error) :
  axios_post (chroma_url getVectorClient "add")
             (AddBody (map pv_id (string_keyed_vectors movieId embeddings))
                      (map pv_values (string_keyed_vectors movieId embeddings))
                      (map pv_metadata (string_keyed_vectors movieId embeddings)))
  = Throw e ->
  upsert_Chroma getVectorClient movieId embeddings w
  = (Throw e,
     mkWorld (collection w)
       (trace w ++ [AxiosPost (chroma_url getVectorClient "add")
                      (AddBody (map pv_id (string_keyed_vectors movieId embeddings))
                               (map pv_values (string_keyed_vectors movieId embeddings))
                               (map pv_metadata (string_keyed_vectors movieId embeddings)))])).
Proof.
  intros Hfail. unfold upsert_Chroma. run_M. rewrite Hfail. reflexivity.
Qed.
End UpsertFailure.

(** X4. A failing write is not caught: on each backend, when the write
    call rejects, [upsertMovieEmbeddings] rejects with the same error
    after that one call, and the success line is not logged. *)
Theorem upsert_write_failure_propagates :
  forall (deployment : Deployment) (movieId : string) (embeddings : EmbeddingRecord)
         (w : World) (e : Error),
    embeddings <> [] ->
    (forall upsert : UpsertMethod,
        isQdrant getVectorClient = true ->
        client_upsert getVectorClient = Some upsert ->
        upsert (VECTOR_COLLECTION env) (qdrant_points movieId embeddings) = Throw e ->
        upsertMovieEmbeddings movieId embeddings w
        = (Throw e,
           mkWorld (collection w)
             (trace w ++ [QdrantUpsert (VECTOR_COLLECTION env)
                            (map qp_id (qdrant_points movieId embeddings))])))
    /\ (forall index_method : IndexMethod,
           isQdrant getVectorClient = false ->
           client_index getVectorClient = Some index_method ->
           index_upsert
             (index_method (or_opt_string (PINECONE_INDEX env) (VECTOR_COLLECTION env)))
             (string_keyed_vectors movieId embeddings) = Throw e ->
           upsertMovieEmbeddings movieId embeddings w
           = (Throw e,
              mkWorld (collection w)
                (trace w ++ [PineconeUpsert
                               (or_opt_string (PINECONE_INDEX env) (VECTOR_COLLECTION env))
                               (map pv_id (string_keyed_vectors movieId embeddings))])))
    /\ (isQdrant getVectorClient = false ->
        isPinecone getVectorClient = false ->
        isChroma getVectorClient = true ->
        axios_post (chroma_url getVectorClient "add")
                   (AddBody (map pv_id (string_keyed_vectors movieId embeddings))
                            (map pv_values (string_keyed_vectors movieId embeddings))
                            (map pv_metadata (string_keyed_vectors movieId embeddings)))
        = Throw e ->
        upsertMovieEmbeddings movieId embeddings w
        = (Throw e,
           mkWorld (collection w)
             (trace w ++ [AxiosPost (chroma_url getVectorClient "add")
                            (AddBody (map pv_id (string_keyed_vectors movieId embeddings))
                                     (map pv_values (string_keyed_vectors movieId embeddings))
                                     (map pv_metadata
                                          (string_keyed_vectors movieId embeddings)))]))).
Proof.
  intros deployment movieId embeddings w e Hne.
  pose proof (nonempty_mapping embeddings Hne) as Hlen.
  split; [|split].
  - intros upsert Hq Hmethod Hfail. unfold upsertMovieEmbeddings. rewrite Hlen, Hq.
    apply (upsert_Qdrant_fails movieId embeddings w upsert e); assumption.
  - intros index_method Hq Hindex Hfail.
    unfold upsertMovieEmbeddings, isPinecone. rewrite Hlen, Hq, Hindex. cbn [defined].
    rewrite orb_true_r. apply (upsert_Pinecone_fails movieId embeddings w index_method e);
      assumption.
  - intros Hq Hp Hc Hfail. unfold upsertMovieEmbeddings. rewrite Hlen, Hq, Hp, Hc.
    apply upsert_Chroma_fails. exact Hfail.
Qed.

Lemma upsert_write_failure_propagates_witness :
  @upsertMovieEmbeddings (chroma_deployment (Throw (mkError "ECONNREFUSED")))
     "507f1f77bcf86cd799439011" [("title", [1#2])] sample_world
  = (Throw (mkError "ECONNREFUSED"),
     mkWorld [alien; brazil; casablanca]
       [AxiosPost "http://localhost:8000/collections/movies/add"
          (AddBody ["507f1f77bcf86cd799439011:title"] [[1#2]]
                   [[("movieId", VString "507f1f77bcf86cd799439011");
                     ("source", VString "title")]])]).
Proof.
  apply (proj2 (proj2 (upsert_write_failure_propagates
                         (chroma_deployment (Throw (mkError "ECONNREFUSED")))
                         "507f1f77bcf86cd799439011" [("title", [1#2])] sample_world
                         (mkError "ECONNREFUSED") ltac:(discriminate)))
           eq_refl eq_refl eq_refl eq_refl).
Defined.

(** X5. Whenever [upsertMovieEmbeddings] resolves, its result has exactly
    one entry per named vector other than [__proto__] (a name that the
    assignment to a plain object cannot add), in the order of the names,
    holding the identifier the backend was given for [movieId:name]: the
    numeral of the numeric id on Qdrant, the composite string otherwise.
    The identifiers therefore depend on the movie and the names only,
    not on the vectors: writing other vectors under the same names
    yields the same mapping. *)
Theorem upsert_result_one_id_per_name :
  forall (deployment : Deployment) (movieId : string) (embeddings : EmbeddingRecord)
         (w w' : World) (keys : Map string),
    NoDup (Map_keys embeddings) ->
    upsertMovieEmbeddings movieId embeddings w = (Return keys, w') ->
    keys = map (fun entry : string * list Q =>
                  (fst entry,
                   if isQdrant getVectorClient
                   then String_of_number (numeric_id_of (composite_key movieId (fst entry)))
                   else composite_key movieId (fst entry)))
               (filter assignable embeddings)
    /\ Map_keys keys
       = filter (fun name => negb (String.eqb name "__proto__")) (Map_keys embeddings)
    /\ (forall (others : EmbeddingRecord) (v v' : World) (keys' : Map string),
          Map_keys others = Map_keys embeddings ->
          upsertMovieEmbeddings movieId others v = (Return keys', v') ->
          keys' = keys).
Proof.
  assert (Hshape : forall (deployment : Deployment) movieId embeddings w w' keys,
             NoDup (Map_keys embeddings) ->
             upsertMovieEmbeddings movieId embeddings w = (Return keys, w') ->
             keys = map (fun entry : string * list Q =>
                           (fst entry,
                            if isQdrant getVectorClient
                            then String_of_number
                                   (numeric_id_of (composite_key movieId (fst entry)))
                            else composite_key movieId (fst entry)))
                        (filter assignable embeddings)).
  { intros deployment movieId embeddings w w' keys Hnd Hrun.
    unfold upsertMovieEmbeddings in Hrun.
    destruct (List.length (Map_keys embeddings) =? 0)%nat; [discriminate Hrun|].
    destruct (isQdrant getVectorClient) eqn:Hq.
    - destruct (client_upsert getVectorClient) as [upsert|] eqn:Hmethod.
      + destruct (upsert (VECTOR_COLLECTION env) (qdrant_points movieId embeddings))
          as [[]|e] eqn:Hcall.
        * rewrite (upsert_Qdrant_run movieId embeddings w upsert Hnd Hmethod Hcall) in Hrun.
          injection Hrun as <- _. reflexivity.
        * rewrite (upsert_Qdrant_fails movieId embeddings w upsert e Hmethod Hcall) in Hrun.
          discriminate Hrun.
      + rewrite (upsert_Qdrant_no_method movieId embeddings w Hmethod) in Hrun.
        discriminate Hrun.
    - destruct (isPinecone getVectorClient) eqn:Hp.
      + unfold upsert_Pinecone in Hrun.
        destruct (client_index getVectorClient) as [index_method|]; [|discriminate Hrun].
        revert Hrun. run_M.
        destruct (index_upsert _ _) as [[]|e]; intros Hrun; [|discriminate Hrun].
        injection Hrun as <- _. apply returned_keys_distinct. exact Hnd.
      + destruct (isChroma getVectorClient); [|discriminate Hrun].
        unfold upsert_Chroma in Hrun. revert Hrun. run_M.
        destruct (axios_post _ _) as [response|e]; intros Hrun; [|discriminate Hrun].
        injection Hrun as <- _. apply returned_keys_distinct. exact Hnd. }
  intros deployment movieId embeddings w w' keys Hnd Hrun.
  pose proof (Hshape deployment movieId embeddings w w' keys Hnd Hrun) as Hkeys.
  split; [exact Hkeys|]. split.
  - rewrite Hkeys. unfold Map_keys. rewrite map_map. cbn [fst]. clear.
    induction embeddings as [|entry embeddings IH]; [reflexivity|].
    cbn [filter map]. unfold assignable at 1. destruct (String.eqb (fst entry) "__proto__");
      cbn [negb map]; rewrite IH; reflexivity.
  - intros others v v' keys' Hsame Hrun'.
    assert (Hnd' : NoDup (Map_keys others)) by (rewrite Hsame; exact Hnd).
    rewrite (Hshape deployment movieId others v v' keys' Hnd' Hrun'), Hkeys.
    unfold Map_keys in Hsame. clear -Hsame.
    revert others Hsame. induction embeddings as [|entry embeddings IH]; intros others Hsame;
      destruct others as [|other others]; try discriminate Hsame; [reflexivity|].
    cbn [map] in Hsame. injection Hsame as Hfst Hrest.
    assert (Hsame_name : assignable other = assignable entry)
      by (unfold assignable; rewrite Hfst; reflexivity).
    cbn [filter]. rewrite Hsame_name.
    destruct (assignable entry); cbn [map]; rewrite ?Hfst, (IH others Hrest); reflexivity.
Qed.

Lemma upsert_result_one_id_per_name_witness :
  Map_keys [ ("title", "507f1f77bcf86cd799439011:title");
             ("plot", "507f1f77bcf86cd799439011:plot") ]
  = filter (fun name => negb (String.eqb name "__proto__"))
           (Map_keys [("title", [1#2]); ("__proto__", [1#5]); ("plot", [1#3])]).
Proof.
  apply (upsert_result_one_id_per_name
           (pinecone_deployment (Return (mkQueryResponse None)))
           "507f1f77bcf86cd799439011"
           [("title", [1#2]); ("__proto__", [1#5]); ("plot", [1#3])]
           sample_world
           (mkWorld [alien; brazil; casablanca]
              [ PineconeUpsert "movies" [ "507f1f77bcf86cd799439011:title";
                                          "507f1f77bcf86cd799439011:__proto__";
                                          "507f1f77bcf86cd799439011:plot" ];
                Log info "Upserted 3 embeddings for movie 507f1f77bcf86cd799439011 to Pinecone" ])
           [ ("title", "507f1f77bcf86cd799439011:title");
             ("plot", "507f1f77bcf86cd799439011:plot") ]).
  - repeat constructor; cbn; intuition discriminate.
  - reflexivity.
Defined.

(** The object returned for a vector named [__proto__]: three vectors
    are written, two entries come back. *)
Example upsert_drops_the_name___proto__ :
  @upsertMovieEmbeddings (pinecone_deployment (Return (mkQueryResponse None)))
     "507f1f77bcf86cd799439011"
     [("title", [1#2]); ("__proto__", [1#5]); ("plot", [1#3])] sample_world
  = (Return [ ("title", "507f1f77bcf86cd799439011:title");
              ("plot", "507f1f77bcf86cd799439011:plot") ],
     mkWorld [alien; brazil; casablanca]
       [ PineconeUpsert "movies" [ "507f1f77bcf86cd799439011:title";
                                   "507f1f77bcf86cd799439011:__proto__";
                                   "507f1f77bcf86cd799439011:plot" ];
         Log info "Upserted 3 embeddings for movie 507f1f77bcf86cd799439011 to Pinecone" ]).
Proof. reflexivity. Qed.

(** ** Composite keys *)

Lemma colon_free_cons (c : ascii) (s : string) :
  colon_free (String c s) = true -> c <> ":"%char /\ colon_free s = true.
Proof.
  unfold colon_free. cbn. intros H. apply andb_true_iff in H as [Hc Hs].
  split; [|exact Hs]. intros ->. discriminate Hc.
Qed.

(** X6. For movie identifiers without a colon (such as ObjectId strings),
    the composite key [movieId:name] determines both the movie and the
    name: two embeddings get the same key only if they are the same
    embedding of the same movie. *)
Theorem composite_key_injective :
  forall (movieId movieId' source source' : string),
    colon_free movieId = true ->
    colon_free movieId' = true ->
    composite_key movieId source = composite_key movieId' source' ->
    movieId = movieId' /\ source = source'.
Proof.
  unfold composite_key.
  induction movieId as [|c movieId IH]; intros movieId' source source' Hfree Hfree' Heq.
  - destruct movieId' as [|c' movieId'].
    + cbn in Heq. injection Heq as ->. split; reflexivity.
    + apply colon_free_cons in Hfree' as [Hc' _].
      cbn in Heq. injection Heq as Hc _. exfalso. apply Hc'. symmetry. exact Hc.
  - apply colon_free_cons in Hfree as [Hc Hfree].
    destruct movieId' as [|c' movieId'].
    + cbn in Heq. injection Heq as Hc' _. contradiction.
    + apply colon_free_cons in Hfree' as [_ Hfree'].
      cbn in Heq. injection Heq as -> Hrest.
      destruct (IH movieId' source source' Hfree Hfree' Hrest) as [-> ->].
      split; reflexivity.
Qed.

Lemma composite_key_injective_witness :
  "507f1f77bcf86cd799439011" = "507f1f77bcf86cd799439011" /\ "title" = "title".
Proof.
  apply (composite_key_injective "507f1f77bcf86cd799439011" "507f1f77bcf86cd799439011"
           "title" "title"); reflexivity.
Defined.

(** With a colon in the identifier two different embeddings can collide. *)
Example composite_key_collision :
  composite_key "a:b" "c" = composite_key "a" "b:c".
Proof. reflexivity. Qed.

(** ** Searching on each backend *)

(** X7. On a Qdrant-shaped client [semanticSearch] never rejects, whatever
    the client's calls do (reject, be missing, or answer with something
    that is not an array), and it leaves the document collection alone. *)
Theorem semanticSearch_Qdrant_never_rejects :
  forall (deployment : Deployment) (embedding : list Q) (limit : Z) (w : World),
    isQdrant getVectorClient = true ->
    exists (found : list VectorMatch) (w' : World),
      semanticSearch embedding limit w = (Return found, w')
      /\ collection w' = collection w.
Proof.
  intros deployment embedding limit w Hq.
  pose proof (semanticSearch_keeps_collection deployment embedding limit w) as Hkeep.
  unfold semanticSearch in *. rewrite Hq in *.
  destruct (search_Qdrant_resolves deployment getVectorClient embedding limit w)
    as (found & w' & Hrun).
  exists found, w'. rewrite Hrun in *. split; [reflexivity | exact Hkeep].
Qed.

Lemma semanticSearch_Qdrant_never_rejects_witness :
  exists (found : list VectorMatch) (w' : World),
    @semanticSearch
      (qdrant_deployment (Return (mkCollectionInfo (Some 3))) (Throw (mkError "timeout")))
      [1#2] 10 sample_world = (Return found, w')
    /\ collection w' = collection sample_world.
Proof.
  apply (semanticSearch_Qdrant_never_rejects
           (qdrant_deployment (Return (mkCollectionInfo (Some 3))) (Throw (mkError "timeout")))).
  reflexivity.
Defined.

(** X8. On Qdrant, when the collection exists and is not reported empty
    but the search call rejects, [semanticSearch] resolves to the empty
    list after logging the error and a warning. *)
Theorem semanticSearch_Qdrant_query_failure :
  forall (deployment : Deployment) (embedding : list Q) (limit : Z) (w : World)
         (info : CollectionInfo) (search : SearchMethod) (e : Error),
    getCollection_outcome getVectorClient = Some (Return info) ->
    points_count info <> Some 0 ->
    client_search getVectorClient = Some search ->
    search (VECTOR_COLLECTION env) embedding limit = Throw e ->
    semanticSearch embedding limit w
    = (Return [],
       mkWorld (collection w)
         (trace w ++ [ QdrantGetCollection (VECTOR_COLLECTION env);
                       QdrantSearch (VECTOR_COLLECTION env) embedding limit;
                       Log error "Qdrant search error";
                       Log warn "Returning empty results due to search error" ])).
Proof.
  intros deployment embedding limit w info search e Hinfo Hcount Hsearch Hfail.
  unfold semanticSearch. rewrite isQdrant_search, Hsearch. cbn [defined].
  apply (search_Qdrant_swallows_query_failure deployment getVectorClient embedding limit w
           info search e); assumption.
Qed.

Lemma semanticSearch_Qdrant_query_failure_witness :
  fst (@semanticSearch
         (qdrant_deployment (Return (mkCollectionInfo (Some 3))) (Throw (mkError "timeout")))
         [1#2] 10 sample_world)
  = Return [].
Proof.
  rewrite (semanticSearch_Qdrant_query_failure
             (qdrant_deployment (Return (mkCollectionInfo (Some 3)))
                                (Throw (mkError "timeout")))
             [1#2] 10 sample_world (mkCollectionInfo (Some 3))
             (fun _ _ _ => Throw (mkError "timeout")) (mkError "timeout")
             eq_refl ltac:(discriminate) eq_refl eq_refl).
  reflexivity.
Defined.

(** X9. On Qdrant, when the collection is not reported empty (its count
    is positive, or is not reported at all) and the search call resolves,
    exactly the two calls are issued; an array of points becomes one match
    per point in the same order, with the point id as a string (for a
    numeric id the numeral [String] gives the number, which beyond 2^53
    is not the exact decimal numeral), a missing score read as 0 and a
    missing payload as the empty object, and any other answer becomes
    the empty list with a warning. *)
Theorem semanticSearch_Qdrant_answer :
  forall (deployment : Deployment) (embedding : list Q) (limit : Z) (w : World)
         (info : CollectionInfo) (search : SearchMethod) (response : SearchResponse),
    getCollection_outcome getVectorClient = Some (Return info) ->
    points_count info <> Some 0 ->
    client_search getVectorClient = Some search ->
    search (VECTOR_COLLECTION env) embedding limit = Return response ->
    semanticSearch embedding limit w
    = match response with
      | PointArray points =>
          (Return (map (fun point =>
                          mkVectorMatch (String_of_PointId (sp_id point))
                                        (nullish (sp_score point) 0%Q)
                                        (nullish (sp_payload point) []))
                       points),
           mkWorld (collection w)
             (trace w ++ [ QdrantGetCollection (VECTOR_COLLECTION env);
                           QdrantSearch (VECTOR_COLLECTION env) embedding limit ]))
      | NotAnArray =>
          (Return [],
           mkWorld (collection w)
             (trace w ++ [ QdrantGetCollection (VECTOR_COLLECTION env);
                           QdrantSearch (VECTOR_COLLECTION env) embedding limit;
                           Log warn "Qdrant search returned invalid response" ]))
      end.
Proof.
  intros deployment embedding limit w info search response Hinfo Hcount Hsearch Hok.
  unfold semanticSearch. rewrite isQdrant_search, Hsearch. cbn [defined].
  unfold search_Qdrant, qdrant_precheck.
  unfold getCollection_outcome in Hinfo. rewrite Hsearch.
  destruct (client_getCollection getVectorClient) as [getCollection|]; [|discriminate].
  cbn [option_map] in *. injection Hinfo as Hinfo.
  run_M. rewrite Hinfo, Hok.
  destruct (points_count info) as [[| |]|]; try (exfalso; apply Hcount; reflexivity);
    destruct response; cbn [collection trace]; rewrite !world_trace_app; reflexivity.
Qed.

Lemma semanticSearch_Qdrant_answer_witness :
  fst (@semanticSearch
         (qdrant_deployment (Return (mkCollectionInfo None))
            (Return (PointArray [ mkScoredPoint (StringPointId "p1") None None;
                                  mkScoredPoint (NumericPointId 9223372036854775808)
                                                (Some (1#2)) None ])))
         [1#2] 10 sample_world)
  = Return [mkVectorMatch "p1" 0%Q []; mkVectorMatch "9223372036854776000" (1#2) []].
Proof.
  rewrite (semanticSearch_Qdrant_answer
             (qdrant_deployment (Return (mkCollectionInfo None))
                (Return (PointArray [ mkScoredPoint (StringPointId "p1") None None;
                                      mkScoredPoint (NumericPointId 9223372036854775808)
                                                    (Some (1#2)) None ])))
             [1#2] 10 sample_world (mkCollectionInfo None)
             (fun _ _ _ =>
                Return (PointArray [ mkScoredPoint (StringPointId "p1") None None;
                                     mkScoredPoint (NumericPointId 9223372036854775808)
                                                   (Some (1#2)) None ]))
             (PointArray [ mkScoredPoint (StringPointId "p1") None None;
                           mkScoredPoint (NumericPointId 9223372036854775808)
                                         (Some (1#2)) None ])
             eq_refl ltac:(discriminate) eq_refl eq_refl).
  vm_compute. reflexivity.
Defined.

(** [String] on numbers: exact up to 2^53, the shortest numeral that
    reads back as the same double beyond, with an exponent from 1e21. *)
Example String_of_number_samples :
  map String_of_number
      [0; 42; -17; 9007199254740991; 9223372036854775808; 18446744073709551615;
       100000000000000000000; 1000000000000000000000; 123456789012345678901234567890]
  = [ "0"; "42"; "-17"; "9007199254740991"; "9223372036854776000"; "18446744073709552000";
      "100000000000000000000"; "1e+21"; "1.2345678901234568e+29" ]%string.
Proof. vm_compute. reflexivity. Qed.

(** X10. On a Pinecone client (one that is not of the Qdrant shape) whose
    query resolves, one query is issued against the index named by
    [PINECONE_INDEX], or by [VECTOR_COLLECTION] when that is unset or
    empty; the result has one match per returned match in the same order,
    and is empty when the answer has no [matches]. *)
Theorem semanticSearch_Pinecone_answer :
  forall (deployment : Deployment) (embedding : list Q) (limit : Z) (w : World)
         (index_method : IndexMethod) (response : QueryResponse),
    isQdrant getVectorClient = false ->
    client_index getVectorClient = Some index_method ->
    index_query (index_method (or_opt_string (PINECONE_INDEX env) (VECTOR_COLLECTION env)))
                embedding limit = Return response ->
    exists found : list VectorMatch,
      semanticSearch embedding limit w
      = (Return found,
         mkWorld (collection w)
           (trace w ++ [PineconeQuery
                          (or_opt_string (PINECONE_INDEX env) (VECTOR_COLLECTION env))
                          embedding limit]))
      /\ map vm_id found = map pm_id (nullish (matches response) [])
      /\ map score found = map (fun m => nullish (pm_score m) 0%Q) (nullish (matches response) [])
      /\ (matches response = None -> found = [])
      /\ or_opt_string (PINECONE_INDEX env) (VECTOR_COLLECTION env)
         = match PINECONE_INDEX env with
           | Some name => if String.eqb name "" then VECTOR_COLLECTION env else name
           | None => VECTOR_COLLECTION env
           end.
Proof.
  intros deployment embedding limit w index_method response Hq Hindex Hok.
  unfold semanticSearch, isPinecone. rewrite Hq, Hindex. cbn [defined]. rewrite orb_true_r.
  unfold search_Pinecone. rewrite Hindex. run_M. rewrite Hok.
  eexists. split; [reflexivity|]. split; [|split; [|split]].
  - rewrite map_map. reflexivity.
  - rewrite map_map. reflexivity.
  - intros ->. reflexivity.
  - unfold or_opt_string, or_string, Boolean_string.
    destruct (PINECONE_INDEX env) as [name|]; [|reflexivity].
    destruct (String.eqb name ""); reflexivity.
Qed.

Lemma semanticSearch_Pinecone_answer_witness :
  exists found : list VectorMatch,
    @semanticSearch (pinecone_deployment (Return (mkQueryResponse None))) [1#2] 10 sample_world
    = (Return found,
       mkWorld (collection sample_world)
         (trace sample_world ++ [PineconeQuery "movies" [1#2] 10]))
    /\ found = [].
Proof.
  destruct (semanticSearch_Pinecone_answer
              (pinecone_deployment (Return (mkQueryResponse None))) [1#2] 10 sample_world
              (fun _ => mkPineconeIndex (fun _ _ => Return (mkQueryResponse None))
                                        (fun _ => Return tt))
              (mkQueryResponse None) eq_refl eq_refl eq_refl)
    as (found & Hrun & _ & _ & Hnone & _).
  exists found. split; [exact Hrun | exact (Hnone eq_refl)].
Defined.

Lemma indexed_ids (ids : list string) :
  forall start : nat, map snd (combine (seq start (List.length ids)) ids) = ids.
Proof.
  induction ids as [|id ids IH]; intros start; cbn; [reflexivity|].
  rewrite IH. reflexivity.
Qed.

Lemma chroma_matches_ids (results : ChromaResults) :
  map vm_id (chroma_matches results) = first_or_empty (chroma_ids results).
Proof.
  unfold chroma_matches, first_or_empty.
  destruct (chroma_ids results) as [[|ids others]|]; try reflexivity.
  rewrite map_map.
  transitivity (map snd (combine (seq 0 (List.length ids)) ids));
    [apply map_ext; intros [idx id]; reflexivity | apply indexed_ids].
Qed.

Lemma chroma_matches_nth (results : ChromaResults) (idx : nat) (m : VectorMatch) :
  nth_error (chroma_matches results) idx = Some m ->
  score m = Number_sub 1 (or_zero (nullish (Array_at (first_or_empty (chroma_distances results))
                                                     idx)
                                           None)).
Proof.
  unfold chroma_matches.
  destruct (chroma_ids results) as [[|ids others]|]; try (destruct idx; discriminate).
  intros Hm. rewrite nth_error_map in Hm.
  destruct (nth_error ids idx) as [id|] eqn:Hid.
  - rewrite (nth_error_indexed ids 0 idx id Hid) in Hm. cbn in Hm.
    injection Hm as <-. reflexivity.
  - assert (Hnone : nth_error (combine (seq 0 (List.length ids)) ids) idx = None).
    { apply nth_error_None. rewrite length_combine, length_seq, Nat.min_id.
      apply nth_error_None. exact Hid. }
    rewrite Hnone in Hm. discriminate Hm.
Qed.

(** X11. On a Chroma client whose request resolves with a result object,
    [semanticSearch] issues that one request and returns one match per
    identifier of the first result list, in order: none when the answer
    carries no identifiers. A position for which no distance is reported
    (the list is absent or too short, or the entry is null) gets score 1.
    An answer without a body makes the search reject. *)
Theorem semanticSearch_Chroma_answer :
  forall (deployment : Deployment) (embedding : list Q) (limit : Z) (w : World)
         (response : AxiosResponse),
    isQdrant getVectorClient = false ->
    isPinecone getVectorClient = false ->
    isChroma getVectorClient = true ->
    axios_post (chroma_url getVectorClient "query") (QueryBody [embedding] limit)
    = Return response ->
    match data response with
    | Some results =>
        exists found : list VectorMatch,
          semanticSearch embedding limit w
          = (Return found,
             mkWorld (collection w)
               (trace w ++ [AxiosPost (chroma_url getVectorClient "query")
                                      (QueryBody [embedding] limit)]))
          /\ map vm_id found = first_or_empty (chroma_ids results)
          /\ (forall (idx : nat) (m : VectorMatch),
                nth_error found idx = Some m ->
                nullish (Array_at (first_or_empty (chroma_distances results)) idx) None = None ->
                (score m == 1)%Q)
    | None =>
        exists e : Error,
          semanticSearch embedding limit w
          = (Throw e,
             mkWorld (collection w)
               (trace w ++ [AxiosPost (chroma_url getVectorClient "query")
                                      (QueryBody [embedding] limit)]))
    end.
Proof.
  intros deployment embedding limit w response Hq Hp Hc Hok.
  unfold semanticSearch. rewrite Hq, Hp, Hc. unfold search_Chroma. run_M. rewrite Hok.
  destruct (data response) as [results|].
  - eexists. split; [reflexivity|]. split; [apply chroma_matches_ids|].
    intros idx m Hm Hnone. rewrite (chroma_matches_nth results idx m Hm), Hnone.
    vm_compute. reflexivity.
  - eexists. reflexivity.
Qed.

Lemma semanticSearch_Chroma_answer_witness :
  exists found : list VectorMatch,
    @semanticSearch
       (chroma_deployment
          (Return (mkAxiosResponse (Some (mkChromaResults (Some [["a:title"]]) None None)))))
       [1#2] 10 sample_world
    = (Return found,
       mkWorld (collection sample_world)
         (trace sample_world
          ++ [AxiosPost "http://localhost:8000/collections/movies/query" (QueryBody [[1#2]] 10)]))
    /\ map vm_id found = ["a:title"]
    /\ (forall (idx : nat) (m : VectorMatch),
          nth_error found idx = Some m ->
          nullish (Array_at (@nil (option Q)) idx) None = None ->
          (score m == 1)%Q).
Proof.
  apply (semanticSearch_Chroma_answer
           (chroma_deployment
              (Return (mkAxiosResponse (Some (mkChromaResults (Some [["a:title"]]) None None)))))
           [1#2] 10 sample_world
           (mkAxiosResponse (Some (mkChromaResults (Some [["a:title"]]) None None)))
           eq_refl eq_refl eq_refl eq_refl).
Defined.

(** ** The store is only read *)

Lemma keeps_get_collection : keeps_collection get_collection.
Proof. intros w. reflexivity. Qed.

Lemma keeps_mapM {A B} (f : A -> M B) (xs : list A) :
  (forall x, keeps_collection (f x)) -> keeps_collection (mapM f xs).
Proof.
  intros Hf. induction xs as [|x xs IH]; cbn [mapM].
  - apply keeps_ret.
  - apply keeps_bind; [apply Hf|]. intros y.
    apply keeps_bind; [exact IH|]. intros ys. apply keeps_ret.
Qed.

Lemma keeps_foldM {A B} (step : B -> A -> M B) (xs : list A) :
  (forall acc x, keeps_collection (step acc x)) ->
  forall acc, keeps_collection (foldM step xs acc).
Proof.
  intros Hstep. induction xs as [|x xs IH]; intros acc; cbn [foldM].
  - apply keeps_ret.
  - apply keeps_bind; [apply Hstep|]. intros acc'. apply IH.
Qed.

Lemma keeps_Promise_all2 {A B} (a : M A) (b : M B) :
  keeps_collection a -> keeps_collection b -> keeps_collection (Promise_all2 a b).
Proof.
  intros Ha Hb w. unfold Promise_all2. specialize (Ha w).
  destruct (a w) as [ra w1]. specialize (Hb w1). destruct (b w1) as [rb w2].
  cbn in *. destruct ra, rb; cbn; congruence.
Qed.

Ltac keeps_all :=
  repeat first
    [ apply keeps_ret | apply keeps_throw | apply keeps_lift | apply keeps_logger
    | apply keeps_call | apply keeps_emit | apply keeps_get_collection
    | apply semanticSearch_keeps_collection
    | apply keeps_Promise_all2
    | apply keeps_mapM; intros ?
    | apply keeps_foldM; intros ? ?
    | apply keeps_bind; [|intros ?]
    | apply keeps_try_catch; [|intros ?]
    | match goal with
      | |- keeps_collection (match ?x with _ => _ end) => destruct x
      | |- keeps_collection (let (_, _) := ?x in _) => destruct x
      end ].

(** X12. Writing embeddings, searching and every read of the movie service
    leave the document collection exactly as it was, whether they resolve
    or reject: in particular the upsert adapter never records anything on
    the movie documents. *)
Theorem reads_and_vector_calls_keep_collection :
  forall (bson : Bson) (deployment : Deployment),
    (forall movieId embeddings, keeps_collection (upsertMovieEmbeddings movieId embeddings))
    /\ (forall embedding limit, keeps_collection (semanticSearch embedding limit))
    /\ (forall embedding limit, keeps_collection (searchMoviesByEmbedding embedding limit))
    /\ (forall id, keeps_collection (getMovieById id))
    /\ (forall ids, keeps_collection (getMoviesByIds ids))
    /\ (forall page limit sortBy sortOrder,
           keeps_collection (getAllMovies page limit sortBy sortOrder)).
Proof.
  intros bson deployment.
  assert (Hbulk : forall ids, keeps_collection (getMoviesByIds ids)).
  { intros ids. unfold getMoviesByIds, MovieModel_find_in. keeps_all. }
  repeat split.
  - intros movieId embeddings.
    unfold upsertMovieEmbeddings, upsert_Qdrant, upsert_Pinecone, upsert_Chroma. keeps_all.
  - intros embedding limit. apply semanticSearch_keeps_collection.
  - intros embedding limit. unfold searchMoviesByEmbedding.
    apply keeps_bind; [apply semanticSearch_keeps_collection|]. intros found.
    destruct (List.length found =? 0)%nat; [apply keeps_ret|].
    destruct (List.length _ =? 0)%nat; [apply keeps_ret|].
    apply keeps_bind; [apply Hbulk|]. intros loaded.
    unfold merge_match. keeps_all.
  - intros id. unfold getMovieById, MovieModel_findById. keeps_all.
  - exact Hbulk.
  - intros page limit sortBy sortOrder.
    unfold getAllMovies, MovieModel_find_page, MovieModel_countDocuments. keeps_all.
Qed.

(** ** What the movie search does besides merging *)

Lemma getMoviesByIds_world {bson : Bson} (ids : list string) (w : World) :
  snd (getMoviesByIds ids w) = mkWorld (collection w) (trace w ++ lookup_request ids).
Proof.
  unfold getMoviesByIds, lookup_request.
  destruct (filter ObjectId_isValid ids) as [|id0 objectIds]; cbn [List.length Nat.eqb].
  - unfold ret. cbn [snd]. rewrite app_nil_r. destruct w; reflexivity.
  - unfold MovieModel_find_in, get_collection. run_M.
    destruct (forallb ObjectId_isValid (id0 :: objectIds)); reflexivity.
Qed.

Lemma foldM_merge_match_world (movieMap : Map MovieDocument) (found : list VectorMatch) :
  forall (acc : Map ScoredMovie) (w : World),
    snd (foldM (merge_match movieMap) found acc w)
    = mkWorld (collection w)
        (trace w ++ map not_found_warning
                        (filter (fun m => negb (defined (Map_get movieMap (payload_movieId m))))
                                found)).
Proof.
  induction found as [|m found IH]; intros acc w; cbn [foldM filter map].
  - unfold ret. cbn [snd]. rewrite app_nil_r. destruct w; reflexivity.
  - unfold bind at 1. unfold merge_match at 1.
    destruct (Map_get movieMap (payload_movieId m)) as [loaded|]; cbn [defined negb].
    + destruct (match Map_get acc (payload_movieId m) with
                | Some e => Qgt_bool (score m) (movie_score e)
                | None => true
                end); unfold ret at 1; apply IH.
    + run_M. rewrite IH. cbn [collection trace map]. rewrite world_trace_app. reflexivity.
Qed.

(** X13. [searchMoviesByEmbedding] asks [semanticSearch] for twice the
    limit. If that search rejects, the movie search rejects with the same
    error; if it yields no match with a non-empty [movieId] (in particular
    no match at all), the result is empty. In both cases nothing else
    happens: no store request and no warning. *)
Theorem searchMoviesByEmbedding_without_usable_matches :
  forall (bson : Bson) (deployment : Deployment) (embedding : list Q) (limit : Z)
         (w w1 : World),
    (forall e : Error,
        semanticSearch embedding (limit * 2) w = (Throw e, w1) ->
        searchMoviesByEmbedding embedding limit w = (Throw e, w1))
    /\ (forall found : list VectorMatch,
           semanticSearch embedding (limit * 2) w = (Return found, w1) ->
           (forall m, In m found -> payload_movieId m = "") ->
           searchMoviesByEmbedding embedding limit w = (Return [], w1)).
Proof.
  intros bson deployment embedding limit w w1. split.
  - intros e Hsearch. unfold searchMoviesByEmbedding. unfold bind at 1.
    rewrite Hsearch. reflexivity.
  - intros found Hsearch Hempty. unfold searchMoviesByEmbedding. unfold bind at 1.
    rewrite Hsearch.
    destruct (List.length found =? 0)%nat; [reflexivity|].
    assert (Hids : filter Boolean_string (map payload_movieId found) = []).
    { clear Hsearch. induction found as [|m found IH]; cbn; [reflexivity|].
      rewrite (Hempty m (or_introl eq_refl)). cbn.
      apply IH. intros m' Hin. apply Hempty. right. exact Hin. }
    rewrite Hids. reflexivity.
Qed.

Lemma searchMoviesByEmbedding_without_usable_matches_witness :
  @searchMoviesByEmbedding hex24 unsupported_deployment [1#2] 10 sample_world
  = (Throw unsupported_provider, sample_world).
Proof.
  apply (proj1 (searchMoviesByEmbedding_without_usable_matches
                  hex24 unsupported_deployment [1#2] 10 sample_world sample_world)
           unsupported_provider).
  reflexivity.
Defined.

(** X14. When some raw match carries a non-empty [movieId], the movie
    search resolves, and besides the search it issues at most one store
    request (one bulk lookup of the valid identifiers, none if no
    identifier is valid) and then logs one warning per raw match whose
    [movieId] is not, character for character, the [id] of a stored
    movie, in the order of the matches: so for a string of invalid
    format, for the identifier of no stored movie, and also for a stored
    identifier written in upper case. Nothing else is logged or
    requested. *)
Theorem searchMoviesByEmbedding_warns_per_unresolved_match :
  forall (bson : Bson) (deployment : Deployment) (embedding : list Q) (limit : Z)
         (w w1 : World) (found : list VectorMatch),
    ObjectId_isValid "" = false ->
    well_formed_collection (collection w) = true ->
    0 <= limit ->
    semanticSearch embedding (limit * 2) w = (Return found, w1) ->
    existsb (fun m => Boolean_string (payload_movieId m)) found = true ->
    exists result : list ScoredMovie,
      searchMoviesByEmbedding embedding limit w
      = (Return result,
         mkWorld (collection w)
           (trace w1
            ++ lookup_request (filter Boolean_string (map payload_movieId found))
            ++ map not_found_warning
                   (filter (fun m => negb (defined (record_of (collection w)
                                                              (payload_movieId m))))
                           found))).
Proof.
  intros bson deployment embedding limit w w1 found Hempty Hwf Hlimit Hsearch Hsome.
  destruct (searchMoviesByEmbedding_run bson deployment embedding limit w w1 found
              Hwf Hlimit Hsearch) as (w' & Hrun).
  eexists. rewrite Hrun. f_equal.
  assert (Hworld : snd (searchMoviesByEmbedding embedding limit w) = w')
    by (rewrite Hrun; reflexivity).
  rewrite <- Hworld. clear Hrun Hworld w'.
  assert (Hdocs1 : collection w1 = collection w).
  { pose proof (semanticSearch_keeps_collection deployment embedding (limit * 2) w) as Hk.
    rewrite Hsearch in Hk. exact Hk. }
  apply existsb_exists in Hsome as (m0 & Hin0 & Hid0).
  unfold searchMoviesByEmbedding. unfold bind at 1. rewrite Hsearch.
  set (ids := filter Boolean_string (map payload_movieId found)).
  assert (Hids : In (payload_movieId m0) ids)
    by (apply filter_In; split; [apply in_map; exact Hin0 | exact Hid0]).
  assert (Hlen1 : (List.length found =? 0)%nat = false)
    by (destruct found; [destruct Hin0 | reflexivity]).
  assert (Hlen2 : (List.length ids =? 0)%nat = false)
    by (destruct ids; [destruct Hids | reflexivity]).
  rewrite Hlen1, Hlen2.
  destruct (getMoviesByIds_run (collection w) Hwf ids w1 Hdocs1) as (w2 & Hbulk & _).
  pose proof (getMoviesByIds_world ids w1) as Hw2. rewrite Hbulk in Hw2. cbn [snd] in Hw2.
  unfold bind at 1. rewrite Hbulk.
  set (movieMap := index_movies (spec_getMoviesByIds (collection w) ids)).
  destruct (foldM_merge_match movieMap found [] w2) as (w3 & Hfold & _).
  pose proof (foldM_merge_match_world movieMap found [] w2) as Hw3.
  rewrite Hfold in Hw3. cbn [snd] in Hw3.
  unfold bind at 1. rewrite Hfold. unfold ret. cbn [snd].
  rewrite Hw3, Hw2. cbn [collection trace]. rewrite Hdocs1, <- app_assoc.
  f_equal. f_equal. f_equal. f_equal.
  apply filter_ext_in. intros m Hm. unfold movieMap, ids.
  rewrite (movieMap_resolves (collection w) found m Hempty Hm). reflexivity.
Qed.

Lemma searchMoviesByEmbedding_warns_per_unresolved_match_witness :
  exists result : list ScoredMovie,
    @searchMoviesByEmbedding hex24 alien_deployment [1#2; 1#3] 10 sample_world
    = (Return result,
       mkWorld [alien; brazil; casablanca]
         [ QdrantGetCollection "movies";
           QdrantSearch "movies" [1#2; 1#3] 20;
           DbFindIn [ "507f1f77bcf86cd799439011"; "507f1f77bcf86cd7994390ff";
                      "507f1f77bcf86cd799439011"; "507f1f77bcf86cd799439012";
                      "507f1f77bcf86cd799439011" ];
           Log warn "Movie not found for ID: 507f1f77bcf86cd7994390ff" ]).
Proof.
  apply (searchMoviesByEmbedding_warns_per_unresolved_match hex24 alien_deployment
           [1#2; 1#3] 10 sample_world
           (mkWorld (collection sample_world)
                    [QdrantGetCollection "movies"; QdrantSearch "movies" [1#2; 1#3] 20])
           (map as_match three_for_alien));
    try reflexivity; lia.
Defined.

(** ** Reading movies *)

Lemma flat_map_ext_in_local {A B} (f g : A -> list B) (xs : list A) :
  (forall x, In x xs -> f x = g x) -> flat_map f xs = flat_map g xs.
Proof.
  induction xs as [|x xs IH]; intros Hext; cbn; [reflexivity|].
  rewrite (Hext x (or_introl eq_refl)), IH; [reflexivity|].
  intros y Hy. apply Hext. right. exact Hy.
Qed.

Lemma find_ext_local {A} (p q : A -> bool) (xs : list A) :
  (forall x, p x = q x) -> find p xs = find q xs.
Proof.
  intros Hext. induction xs as [|x xs IH]; cbn; [reflexivity|].
  rewrite Hext, IH. reflexivity.
Qed.

(** X15. For a valid identifier [getMovieById] issues one lookup and
    resolves: to a stored document whose [_id] is the identifier the
    string denotes, or to [null] when the collection has no such
    document. *)
Theorem getMovieById_valid_identifier :
  forall (bson : Bson) (id : string) (w : World),
    ObjectId_isValid id = true ->
    exists found : option MovieDocument,
      getMovieById id w
      = (Return found, mkWorld (collection w) (trace w ++ [DbFindById id]))
      /\ match found with
         | Some m => In m (collection w) /\ _id m = ObjectId_cast id
         | None => forall m, In m (collection w) -> _id m <> ObjectId_cast id
         end.
Proof.
  intros bson id w Hvalid. unfold getMovieById, MovieModel_findById, get_collection.
  rewrite Hvalid. run_M.
  eexists. split; [reflexivity|].
  destruct (find (has_id id) (collection w)) as [m|] eqn:Hfind.
  - apply find_some in Hfind as [Hin Hid]. split; [exact Hin|].
    apply String.eqb_eq. exact Hid.
  - intros m Hin Heq. pose proof (find_none _ _ Hfind m Hin) as Hno.
    unfold has_id in Hno. rewrite Heq, String.eqb_refl in Hno. discriminate Hno.
Qed.

Lemma getMovieById_valid_identifier_witness :
  exists found : option MovieDocument,
    @getMovieById hex24 "507F1F77BCF86CD799439011" sample_world
    = (Return found,
       mkWorld (collection sample_world)
               (trace sample_world ++ [DbFindById "507F1F77BCF86CD799439011"]))
    /\ match found with
       | Some m => In m (collection sample_world)
                   /\ _id m = @ObjectId_cast hex24 "507F1F77BCF86CD799439011"
       | None => forall m, In m (collection sample_world) ->
                           _id m <> @ObjectId_cast hex24 "507F1F77BCF86CD799439011"
       end.
Proof.
  apply (getMovieById_valid_identifier hex24 "507F1F77BCF86CD799439011" sample_world).
  reflexivity.
Defined.

(** X16. If no identifier of the list is valid (in particular for the
    empty list), [getMoviesByIds] resolves to the empty list without
    asking the store: the world is left as it was. *)
Theorem getMoviesByIds_without_valid_identifier :
  forall (bson : Bson) (ids : list string) (w : World),
    (forall id, In id ids -> ObjectId_isValid id = false) ->
    getMoviesByIds ids w = (Return [], w).
Proof.
  intros bson ids w Hinvalid. unfold getMoviesByIds.
  assert (Hfilter : filter ObjectId_isValid ids = []).
  { induction ids as [|id ids IH]; cbn; [reflexivity|].
    rewrite (Hinvalid id (or_introl eq_refl)). apply IH.
    intros id' Hin. apply Hinvalid. right. exact Hin. }
  rewrite Hfilter. reflexivity.
Qed.

Lemma getMoviesByIds_without_valid_identifier_witness :
  @getMoviesByIds hex24 ["not-an-id"; ""; "undefined"] sample_world = (Return [], sample_world).
Proof.
  apply (getMoviesByIds_without_valid_identifier hex24 ["not-an-id"; ""; "undefined"]
           sample_world).
  intros id [<-|[<-|[<-|[]]]]; reflexivity.
Defined.

(** X17. On a well-formed collection [getMoviesByIds] issues at most one
    store request and returns only stored documents: each has a valid
    identifier of the input list as its [id], and there are no more
    documents than input identifiers. *)
Theorem getMoviesByIds_returns_requested_documents :
  forall (bson : Bson) (ids : list string) (w : World),
    well_formed_collection (collection w) = true ->
    exists loaded : list MovieDocument,
      getMoviesByIds ids w
      = (Return loaded, mkWorld (collection w) (trace w ++ lookup_request ids))
      /\ (List.length (lookup_request ids) <= 1)%nat
      /\ (List.length loaded <= List.length ids)%nat
      /\ (forall m, In m loaded ->
                    In m (collection w) /\ In (doc_id m) ids
                    /\ ObjectId_isValid (doc_id m) = true).
Proof.
  intros bson ids w Hwf.
  destruct (getMoviesByIds_run (collection w) Hwf ids w eq_refl) as (w' & Hrun & _).
  pose proof (getMoviesByIds_world ids w) as Hworld. rewrite Hrun in Hworld.
  cbn [snd] in Hworld. subst w'.
  eexists. split; [exact Hrun|]. split; [|split].
  - unfold lookup_request. destruct (filter ObjectId_isValid ids); cbn; lia.
  - unfold spec_getMoviesByIds. clear. induction ids as [|id ids IH]; cbn; [lia|].
    rewrite length_app. destruct (record_of (collection w) id); cbn; lia.
  - intros m Hin. apply spec_getMoviesByIds_In in Hin as (id & Hid & Hrec).
    destruct (record_of_some _ _ _ Hrec) as (Hm & Hstored & Hvalid).
    unfold doc_id. rewrite Hm. repeat split; assumption.
Qed.

Lemma getMoviesByIds_returns_requested_documents_witness :
  exists loaded : list MovieDocument,
    @getMoviesByIds hex24 ["507f1f77bcf86cd799439012"; "not-an-id"] sample_world
    = (Return loaded,
       mkWorld (collection sample_world)
         (trace sample_world
          ++ @lookup_request hex24 ["507f1f77bcf86cd799439012"; "not-an-id"]))
    /\ (List.length (@lookup_request hex24 ["507f1f77bcf86cd799439012"; "not-an-id"]) <= 1)%nat
    /\ (List.length loaded <= 2)%nat
    /\ (forall m, In m loaded ->
                  In m (collection sample_world)
                  /\ In (doc_id m) ["507f1f77bcf86cd799439012"; "not-an-id"]
                  /\ @ObjectId_isValid hex24 (doc_id m) = true).
Proof.
  apply (getMoviesByIds_returns_requested_documents hex24
           ["507f1f77bcf86cd799439012"; "not-an-id"] sample_world).
  reflexivity.
Defined.

(** X18. For identifiers in canonical form a bulk lookup is the sequence
    of the single lookups: on a well-formed collection, if every valid
    identifier of the list denotes itself, [getMoviesByIds] returns, in
    order, what [getMovieById] finds for each identifier. *)
Theorem getMoviesByIds_is_sequence_of_getMovieById :
  forall (bson : Bson) (ids : list string) (w : World),
    well_formed_collection (collection w) = true ->
    (forall id, In id ids -> ObjectId_isValid id = true -> ObjectId_cast id = id) ->
    fst (getMoviesByIds ids w) = Return (flat_map (single_lookup w) ids).
Proof.
  intros bson ids w Hwf Hcanonical.
  destruct (getMoviesByIds_run (collection w) Hwf ids w eq_refl) as (w' & Hrun & _).
  rewrite Hrun. cbn [fst]. f_equal. unfold spec_getMoviesByIds.
  apply flat_map_ext_in_local.
  intros id Hin. unfold single_lookup, getMovieById, record_of.
  destruct (ObjectId_isValid id) eqn:Hvalid; cbn [negb]; [|reflexivity].
  unfold MovieModel_findById, get_collection. run_M. rewrite Hvalid. cbn [fst collection].
  replace (find (has_id id) (collection w))
    with (find (fun m => String.eqb (doc_id m) id) (collection w)); [reflexivity|].
  apply find_ext_local. intros m. unfold has_id, doc_id.
  rewrite (Hcanonical id Hin Hvalid). reflexivity.
Qed.

Lemma getMoviesByIds_is_sequence_of_getMovieById_witness :
  fst (@getMoviesByIds hex24 ["507f1f77bcf86cd799439013"; "nope"; "507f1f77bcf86cd799439011"]
         sample_world)
  = Return [casablanca; alien].
Proof.
  rewrite (getMoviesByIds_is_sequence_of_getMovieById hex24
             ["507f1f77bcf86cd799439013"; "nope"; "507f1f77bcf86cd799439011"] sample_world
             eq_refl).
  - reflexivity.
  - intros id [<-|[<-|[<-|[]]]]; intros _; reflexivity.
Defined.

(** An identifier written in upper case is found by the single lookup and
    missed by the bulk lookup. *)
Example upper_case_identifier :
  fst (@getMovieById hex24 "507F1F77BCF86CD799439011" sample_world) = Return (Some alien)
  /\ fst (@getMoviesByIds hex24 ["507F1F77BCF86CD799439011"] sample_world) = Return [].
Proof. split; reflexivity. Qed.

(** ** Deleting and updating movies *)

Lemma filter_all {A} (p : A -> bool) (xs : list A) :
  (forall x, In x xs -> p x = true) -> filter p xs = xs.
Proof.
  induction xs as [|x xs IH]; intros Hall; cbn; [reflexivity|].
  rewrite (Hall x (or_introl eq_refl)), IH; [reflexivity|].
  intros y Hy. apply Hall. right. exact Hy.
Qed.

Lemma remove_first_filter {bson : Bson} (id : string) (docs : list MovieDocument) :
  distinct_ids docs = true ->
  remove_first (has_id id) docs = filter (fun m => negb (has_id id m)) docs.
Proof.
  induction docs as [|m docs IH]; cbn; intros Hdistinct; [reflexivity|].
  apply andb_true_iff in Hdistinct as [Hfresh Hrest].
  destruct (has_id id m) eqn:Hm; cbn.
  - symmetry. apply filter_all. intros m' Hin.
    apply negb_true_iff. apply negb_true_iff in Hfresh.
    destruct (has_id id m') eqn:Hm'; [|reflexivity].
    unfold has_id in Hm, Hm'. apply String.eqb_eq in Hm, Hm'.
    assert (Hex : existsb (fun m' => String.eqb (_id m') (_id m)) docs = true).
    { apply existsb_exists. exists m'. split; [exact Hin|].
      rewrite Hm, Hm'. apply String.eqb_refl. }
    congruence.
  - rewrite IH by exact Hrest. reflexivity.
Qed.

Lemma distinct_ids_filter (p : MovieDocument -> bool) (docs : list MovieDocument) :
  distinct_ids docs = true -> distinct_ids (filter p docs) = true.
Proof.
  induction docs as [|m docs IH]; cbn; intros Hdistinct; [reflexivity|].
  apply andb_true_iff in Hdistinct as [Hfresh Hrest].
  destruct (p m); cbn; [|apply IH; exact Hrest].
  apply andb_true_iff. split; [|apply IH; exact Hrest].
  apply negb_true_iff. apply negb_true_iff in Hfresh.
  destruct (existsb (fun m' => String.eqb (_id m') (_id m)) (filter p docs)) eqn:Hex;
    [|reflexivity].
  apply existsb_exists in Hex as (m' & Hin & Heq). apply filter_In in Hin as [Hin _].
  assert (Hex' : existsb (fun m' => String.eqb (_id m') (_id m)) docs = true)
    by (apply existsb_exists; exists m'; split; assumption).
  congruence.
Qed.

Lemma well_formed_filter {bson : Bson} (p : MovieDocument -> bool) (docs : list MovieDocument) :
  well_formed_collection docs = true -> well_formed_collection (filter p docs) = true.
Proof.
  unfold well_formed_collection. intros Hwf.
  apply andb_true_iff in Hwf as [Hcanon Hdistinct]. apply andb_true_iff. split.
  - unfold canonical_ids in *. rewrite forallb_forall in *.
    intros m Hin. apply filter_In in Hin as [Hin _]. apply Hcanon. exact Hin.
  - apply distinct_ids_filter. exact Hdistinct.
Qed.

Lemma deleteMovie_run {bson : Bson} (id : string) (w : World) :
  ObjectId_isValid id = true ->
  deleteMovie id w
  = (Return (defined (find (has_id id) (collection w))),
     mkWorld (remove_first (has_id id) (collection w))
             (trace w ++ [DbFindByIdAndDelete id])).
Proof.
  intros Hvalid. unfold deleteMovie, MovieModel_findByIdAndDelete, get_collection,
    put_collection.
  rewrite Hvalid. cbn [negb]. run_M.
  destruct (find (has_id id) (collection w)); reflexivity.
Qed.

(** X19. On a well-formed collection, [deleteMovie] with a valid identifier
    issues one request and removes exactly the documents with the
    identifier the string denotes, keeping all others in place; it
    resolves to [true] exactly when there was such a document, and the
    collection stays well formed. *)
Theorem deleteMovie_removes_the_document :
  forall (bson : Bson) (id : string) (w : World),
    well_formed_collection (collection w) = true ->
    ObjectId_isValid id = true ->
    exists deleted : bool,
      deleteMovie id w
      = (Return deleted,
         mkWorld (filter (fun m => negb (String.eqb (_id m) (ObjectId_cast id))) (collection w))
                 (trace w ++ [DbFindByIdAndDelete id]))
      /\ (deleted = true <-> exists m, In m (collection w) /\ _id m = ObjectId_cast id)
      /\ well_formed_collection
           (filter (fun m => negb (String.eqb (_id m) (ObjectId_cast id))) (collection w))
         = true.
Proof.
  intros bson id w Hwf Hvalid.
  assert (Hdistinct : distinct_ids (collection w) = true).
  { unfold well_formed_collection in Hwf. apply andb_true_iff in Hwf as [_ H]. exact H. }
  exists (defined (find (has_id id) (collection w))). split; [|split].
  - rewrite (deleteMovie_run id w Hvalid).
    rewrite (remove_first_filter id (collection w) Hdistinct). reflexivity.
  - destruct (find (has_id id) (collection w)) as [m|] eqn:Hfind; cbn [defined]; split.
    + intros _. apply find_some in Hfind as [Hin Hid]. exists m.
      split; [exact Hin | apply String.eqb_eq; exact Hid].
    + reflexivity.
    + discriminate.
    + intros (m & Hin & Hid). pose proof (find_none _ _ Hfind m Hin) as Hno.
      unfold has_id in Hno. rewrite Hid, String.eqb_refl in Hno. discriminate Hno.
  - apply well_formed_filter. exact Hwf.
Qed.

Lemma deleteMovie_removes_the_document_witness :
  exists deleted : bool,
    @deleteMovie hex24 "507f1f77bcf86cd799439012" sample_world
    = (Return deleted,
       mkWorld (filter (fun m => negb (String.eqb (_id m)
                                         (@ObjectId_cast hex24 "507f1f77bcf86cd799439012")))
                       (collection sample_world))
               (trace sample_world ++ [DbFindByIdAndDelete "507f1f77bcf86cd799439012"]))
    /\ (deleted = true <-> exists m, In m (collection sample_world)
                                     /\ _id m = @ObjectId_cast hex24 "507f1f77bcf86cd799439012")
    /\ @well_formed_collection hex24
         (filter (fun m => negb (String.eqb (_id m)
                                   (@ObjectId_cast hex24 "507f1f77bcf86cd799439012")))
                 (collection sample_world))
       = true.
Proof.
  apply (deleteMovie_removes_the_document hex24 "507f1f77bcf86cd799439012" sample_world);
    reflexivity.
Defined.

Example deleteMovie_brazil :
  @deleteMovie hex24 "507f1f77bcf86cd799439012" sample_world
  = (Return true,
     mkWorld [alien; casablanca] [DbFindByIdAndDelete "507f1f77bcf86cd799439012"]).
Proof. reflexivity. Qed.

(** X20. After [deleteMovie] with a valid identifier on a well-formed
    collection the movie is gone for good: in the resulting world
    [getMovieById] with that identifier resolves to [null], and deleting
    again resolves to [false] and changes no document. *)
Theorem deleted_movie_is_not_found :
  forall (bson : Bson) (id : string) (w w' : World) (deleted : bool),
    well_formed_collection (collection w) = true ->
    ObjectId_isValid id = true ->
    deleteMovie id w = (Return deleted, w') ->
    fst (getMovieById id w') = Return None
    /\ fst (deleteMovie id w') = Return false
    /\ collection (snd (deleteMovie id w')) = collection w'.
Proof.
  intros bson id w w' deleted Hwf Hvalid Hrun.
  assert (Hdistinct : distinct_ids (collection w) = true).
  { unfold well_formed_collection in Hwf. apply andb_true_iff in Hwf as [_ H]. exact H. }
  rewrite (deleteMovie_run id w Hvalid) in Hrun. injection Hrun as _ <-.
  rewrite (remove_first_filter id (collection w) Hdistinct).
  assert (Hgone : find (has_id id) (filter (fun m => negb (has_id id m)) (collection w)) = None).
  { destruct (find (has_id id) (filter (fun m => negb (has_id id m)) (collection w)))
      as [m|] eqn:Hfind; [|reflexivity].
    apply find_some in Hfind as [Hin Hid]. apply filter_In in Hin as [_ Hnot].
    rewrite Hid in Hnot. discriminate Hnot. }
  split; [|split].
  - unfold getMovieById, MovieModel_findById, get_collection. rewrite Hvalid.
    cbn [negb]. run_M. cbn [fst]. rewrite Hgone. reflexivity.
  - rewrite deleteMovie_run by exact Hvalid. cbn [fst collection]. rewrite Hgone. reflexivity.
  - rewrite deleteMovie_run by exact Hvalid. cbn [snd collection].
    rewrite remove_first_filter by (apply distinct_ids_filter; exact Hdistinct).
    apply filter_all. intros m Hin. apply filter_In in Hin as [_ Hnot]. exact Hnot.
Qed.

Lemma deleted_movie_is_not_found_witness :
  fst (@getMovieById hex24 "507f1f77bcf86cd799439012"
         (mkWorld [alien; casablanca] [DbFindByIdAndDelete "507f1f77bcf86cd799439012"]))
  = Return None.
Proof.
  apply (deleted_movie_is_not_found hex24 "507f1f77bcf86cd799439012" sample_world
           (mkWorld [alien; casablanca] [DbFindByIdAndDelete "507f1f77bcf86cd799439012"])
           true); reflexivity.
Defined.

Lemma update_first_ids (p : MovieDocument -> bool) (f : MovieDocument -> MovieDocument)
    (docs : list MovieDocument) :
  (forall m, _id (f m) = _id m) ->
  map _id (update_first p f docs) = map _id docs.
Proof.
  intros Hid. induction docs as [|m docs IH]; cbn; [reflexivity|].
  destruct (p m); cbn; [rewrite Hid; reflexivity | rewrite IH; reflexivity].
Qed.

Lemma update_first_absent (p : MovieDocument -> bool) (f : MovieDocument -> MovieDocument)
    (docs : list MovieDocument) :
  find p docs = None -> update_first p f docs = docs.
Proof.
  induction docs as [|m docs IH]; cbn; [reflexivity|].
  destruct (p m); [discriminate|]. intros Hnone. rewrite IH by exact Hnone. reflexivity.
Qed.


Lemma forallb_by_image {A B} (f : A -> B) (p : B -> bool) (xs ys : list A) :
  map f xs = map f ys -> forallb (fun x => p (f x)) xs = forallb (fun x => p (f x)) ys.
Proof.
  revert ys. induction xs as [|x xs IH]; intros [|y ys] Himage;
    try discriminate Himage; [reflexivity|].
  cbn in *. injection Himage as Hx Hrest. rewrite Hx, (IH ys Hrest). reflexivity.
Qed.

Lemma existsb_by_image {A B} (f : A -> B) (p : B -> bool) (xs ys : list A) :
  map f xs = map f ys -> existsb (fun x => p (f x)) xs = existsb (fun x => p (f x)) ys.
Proof.
  revert ys. induction xs as [|x xs IH]; intros [|y ys] Himage;
    try discriminate Himage; [reflexivity|].
  cbn in *. injection Himage as Hx Hrest. rewrite Hx, (IH ys Hrest). reflexivity.
Qed.

Lemma distinct_ids_by_ids (docs docs' : list MovieDocument) :
  map _id docs = map _id docs' -> distinct_ids docs = distinct_ids docs'.
Proof.
  revert docs'. induction docs as [|m docs IH]; intros [|m' docs'] Hids;
    try discriminate Hids; [reflexivity|].
  cbn in *. injection Hids as Hm Hrest. rewrite (IH docs' Hrest), Hm.
  rewrite (existsb_by_image _id (fun i => String.eqb i (_id m')) docs docs' Hrest).
  reflexivity.
Qed.

Lemma well_formed_by_ids {bson : Bson} (docs docs' : list MovieDocument) :
  map _id docs = map _id docs' ->
  well_formed_collection docs = well_formed_collection docs'.
Proof.
  intros Hids. unfold well_formed_collection, canonical_ids.
  rewrite (forallb_by_image _id
             (fun i => ObjectId_isValid i && String.eqb (ObjectId_cast i) i)
             docs docs' Hids).
  rewrite (distinct_ids_by_ids docs docs' Hids). reflexivity.
Qed.

Lemma updateMovie_run {bson : Bson} (id : string) (payload : PartialMovie) (w : World) :
  ObjectId_isValid id = true ->
  updateMovie id payload w
  = match find (has_id id) (collection w) with
    | Some m =>
        (Return (Some (apply_set payload m)),
         mkWorld (update_first (has_id id) (apply_set payload) (collection w))
           (trace w ++ [ DbFindByIdAndUpdate id payload;
                         RegenerateMovieEmbeddings id
                           (regeneration_payload (apply_set payload m) payload) ]))
    | None =>
        (Return None,
         mkWorld (collection w) (trace w ++ [DbFindByIdAndUpdate id payload]))
    end.
Proof.
  intros Hvalid.
  unfold updateMovie, MovieModel_findByIdAndUpdate, regenerateMovieEmbeddings,
    get_collection, put_collection.
  rewrite Hvalid. cbn [negb]. run_M.
  destruct (find (has_id id) (collection w)) as [m|] eqn:Hfind; cbn [option_map].
  - cbn [collection trace]. rewrite world_trace_app. reflexivity.
  - rewrite (update_first_absent _ _ _ Hfind). reflexivity.
Qed.



(** X22. Whenever [updateMovie] with a valid identifier resolves, one
    store request has been issued, and the re-embedding has been
    triggered exactly when a document was updated: once, after the store
    request and for the requested identifier, when the result is the
    updated document, which then replaces a stored document with that
    identifier; not at all when the result is [null], in which case no
    stored document has the identifier and the collection is unchanged. *)
Theorem updateMovie_triggers_regeneration_when_found :
  forall (bson : Bson) (id : string) (payload : PartialMovie) (w w' : World)
         (result : option MovieDocument),
    ObjectId_isValid id = true ->
    updateMovie id payload w = (Return result, w') ->
    match result with
    | Some updated =>
        (exists embeddingPayload : PartialMovie,
            trace w' = trace w ++ [ DbFindByIdAndUpdate id payload;
                                    RegenerateMovieEmbeddings id embeddingPayload ])
        /\ (exists m : MovieDocument,
               In m (collection w) /\ _id m = ObjectId_cast id /\ updated = apply_set payload m)
        /\ In updated (collection w')
    | None =>
        trace w' = trace w ++ [DbFindByIdAndUpdate id payload]
        /\ collection w' = collection w
        /\ forall m, In m (collection w) -> _id m <> ObjectId_cast id
    end.
Proof.
  intros bson id payload w w' result Hvalid Hrun.
  rewrite (updateMovie_run id payload w Hvalid) in Hrun.
  destruct (find (has_id id) (collection w)) as [m|] eqn:Hfind.
  - injection Hrun as <- <-. split; [|split].
    + eexists. reflexivity.
    + exists m. apply find_some in Hfind as [Hin Hid].
      split; [exact Hin|]. split; [|reflexivity].
      unfold has_id in Hid. apply String.eqb_eq in Hid. exact Hid.
    + cbn [collection]. clear -Hfind.
      induction (collection w) as [|d docs IH]; cbn in *; [discriminate Hfind|].
      destruct (has_id id d).
      * injection Hfind as ->. left. reflexivity.
      * right. apply IH. exact Hfind.
  - injection Hrun as <- <-. split; [reflexivity|]. split; [reflexivity|].
    intros m Hin Heq. pose proof (find_none _ _ Hfind m Hin) as Hno.
    unfold has_id in Hno. rewrite Heq, String.eqb_refl in Hno. discriminate Hno.
Qed.

Lemma updateMovie_triggers_regeneration_when_found_witness :
  (exists embeddingPayload : PartialMovie,
      [ DbFindByIdAndUpdate "507f1f77bcf86cd799439012" new_title;
        RegenerateMovieEmbeddings "507f1f77bcf86cd799439012"
          (regeneration_payload (apply_set new_title brazil) new_title) ]
      = trace sample_world
        ++ [ DbFindByIdAndUpdate "507f1f77bcf86cd799439012" new_title;
             RegenerateMovieEmbeddings "507f1f77bcf86cd799439012" embeddingPayload ])
  /\ (exists m : MovieDocument,
         In m (collection sample_world)
         /\ _id m = @ObjectId_cast hex24 "507f1f77bcf86cd799439012"
         /\ apply_set new_title brazil = apply_set new_title m)
  /\ In (apply_set new_title brazil) [alien; apply_set new_title brazil; casablanca].
Proof.
  apply (updateMovie_triggers_regeneration_when_found hex24 "507f1f77bcf86cd799439012"
           new_title sample_world
           (mkWorld
              [alien; apply_set new_title brazil; casablanca]
              [ DbFindByIdAndUpdate "507f1f77bcf86cd799439012" new_title;
                RegenerateMovieEmbeddings "507f1f77bcf86cd799439012"
                  (regeneration_payload (apply_set new_title brazil) new_title) ])
           (Some (apply_set new_title brazil))
           eq_refl eq_refl).
Defined.

(** X23. [updateMovie] never adds, removes, reorders or re-identifies
    documents: whatever the identifier and the payload, the collection
    afterwards has the same [_id]s in the same order, so a well-formed
    collection stays well formed. *)
Theorem updateMovie_keeps_identifiers :
  forall (bson : Bson) (id : string) (payload : PartialMovie) (w : World),
    map _id (collection (snd (updateMovie id payload w))) = map _id (collection w)
    /\ well_formed_collection (collection (snd (updateMovie id payload w)))
       = well_formed_collection (collection w).
Proof.
  intros bson id payload w.
  assert (Hids : map _id (collection (snd (updateMovie id payload w)))
                 = map _id (collection w)).
  { destruct (ObjectId_isValid id) eqn:Hvalid.
    - rewrite (updateMovie_run id payload w Hvalid).
      destruct (find (has_id id) (collection w)); cbn [snd collection]; [|reflexivity].
      apply update_first_ids. intros m'. reflexivity.
    - unfold updateMovie. rewrite Hvalid. reflexivity. }
  split; [exact Hids | apply well_formed_by_ids; exact Hids].
Qed.

(** ** Pages of a listing *)

Lemma sort_insert_Permutation_any {A} (cmp : A -> A -> Q) (x : A) (l : list A) :
  Permutation (x :: l) (sort_insert cmp x l).
Proof.
  induction l as [|y l IH]; cbn; [reflexivity|].
  destruct (Qle_bool (cmp x y) 0); [reflexivity|].
  rewrite perm_swap. apply perm_skip. exact IH.
Qed.

Lemma Array_sort_Permutation_any {A} (cmp : A -> A -> Q) (l : list A) :
  Permutation l (Array_sort cmp l).
Proof.
  induction l as [|x l IH]; cbn; [reflexivity|].
  rewrite <- sort_insert_Permutation_any. apply perm_skip. exact IH.
Qed.

(** Cutting a list into consecutive slices of one size loses nothing. *)
Lemma slices_concat {A} (size : nat) (n : nat) :
  forall xs : list A,
    (List.length xs <= n * size)%nat ->
    concat (map (fun p => firstn size (skipn (p * size) xs)) (seq 0 n)) = xs.
Proof.
  induction n as [|n IH]; intros xs Hlen.
  - destruct xs; [reflexivity | cbn in Hlen; lia].
  - cbn [seq map concat]. rewrite <- seq_shift, map_map.
    cbn [Nat.mul skipn].
    rewrite (map_ext (fun p => firstn size (skipn (S p * size) xs))
                     (fun p => firstn size (skipn (p * size) (skipn size xs)))).
    + rewrite IH; [apply firstn_skipn|]. rewrite length_skipn. lia.
    + intros p. rewrite skipn_skipn. f_equal. f_equal. lia.
Qed.

Lemma page_movies_slice (page limit : Z) (sortBy : string) (sortOrder : SortOrder)
    (w : World) :
  0 < limit ->
  1 <= page ->
  page_movies page limit sortBy sortOrder w
  = firstn (Z.to_nat limit)
      (skipn (Z.to_nat (page - 1) * Z.to_nat limit)
             (sorted_collection sortBy sortOrder (collection w))).
Proof.
  intros Hlimit Hpage. unfold page_movies, getAllMovies, Promise_all2,
    MovieModel_find_page, MovieModel_countDocuments, get_collection.
  run_M.
  destruct (Z.ltb_spec ((page - 1) * limit) 0) as [Hneg|_]; [nia|].
  destruct (Z.eqb_spec limit 0) as [Hz|_]; [lia|].
  cbn [fst movies]. unfold sorted_collection.
  rewrite Z.abs_eq by lia. rewrite Z2Nat.inj_mul by lia. reflexivity.
Qed.

(** X24. With a positive limit, whatever the sort field and direction,
    the number of documents on page [page] of [getAllMovies] is fixed by
    the arithmetic of skip and limit: it is [limit] while
    [page * limit] stays within the number of stored documents, what is
    left over on the page after, and 0 from then on; every document on a
    page is a stored document; and the sizes of pages 1 to n add up to
    the number of stored documents as soon as [n * limit] reaches it.
    (Which documents share a page depends on the order the store gives
    to documents that compare equal, which is left open here.) *)
Theorem getAllMovies_page_sizes :
  forall (limit page : Z) (sortBy : string) (sortOrder : SortOrder) (w : World),
    0 < limit ->
    1 <= page ->
    Z.of_nat (List.length (page_movies page limit sortBy sortOrder w))
    = Z.max 0 (Z.min limit (Z.of_nat (List.length (collection w)) - (page - 1) * limit))
    /\ (forall m : MovieDocument,
          In m (page_movies page limit sortBy sortOrder w) -> In m (collection w))
    /\ (forall n : nat,
          Z.of_nat (List.length (collection w)) <= Z.of_nat n * limit ->
          list_sum (map (fun p => List.length
                                    (page_movies (Z.of_nat p + 1) limit sortBy sortOrder w))
                        (seq 0 n))
          = List.length (collection w)).
Proof.
  intros limit page sortBy sortOrder w Hlimit Hpage.
  assert (Hsize : List.length (sorted_collection sortBy sortOrder (collection w))
                  = List.length (collection w))
    by (apply Array_sort_length).
  split; [|split].
  - rewrite page_movies_slice by lia.
    rewrite length_firstn, length_skipn, Hsize. nia.
  - intros m Hin. rewrite page_movies_slice in Hin by lia.
    apply firstn_In in Hin.
    assert (Hsorted : In m (sorted_collection sortBy sortOrder (collection w))).
    { rewrite <- (firstn_skipn (Z.to_nat (page - 1) * Z.to_nat limit)).
      apply in_or_app. right. exact Hin. }
    eapply Permutation_in; [|exact Hsorted].
    apply Permutation_sym, Array_sort_Permutation_any.
  - intros n Hreach.
    transitivity
      (List.length
         (concat (map (fun p => firstn (Z.to_nat limit)
                                  (skipn (p * Z.to_nat limit)
                                     (sorted_collection sortBy sortOrder (collection w))))
                      (seq 0 n)))).
    + rewrite length_concat, map_map. f_equal. apply map_ext_in.
      intros p _. rewrite page_movies_slice by lia.
      replace (Z.to_nat (Z.of_nat p + 1 - 1)) with p by lia. reflexivity.
    + rewrite slices_concat by (rewrite Hsize; nia). exact Hsize.
Qed.

Lemma getAllMovies_page_sizes_witness :
  Z.of_nat (List.length (page_movies 3 20 "createdAt" desc forty_five_movies))
  = Z.max 0 (Z.min 20 (Z.of_nat (List.length (collection forty_five_movies)) - (3 - 1) * 20)).
Proof.
  apply (getAllMovies_page_sizes 20 3 "createdAt" desc forty_five_movies); lia.
Defined.

(** Forty-five documents in pages of twenty: 20, 20, 5, and then none. *)
Example page_sizes_of_forty_five :
  map (fun page => List.length (page_movies page 20 "title" asc forty_five_movies))
      [1; 2; 3; 4]
  = [20; 20; 5; 0]%nat.
Proof. vm_compute. reflexivity. Qed.
